(** * The enclave of a privilege-separated WireGuard endpoint (enclave.c)

    A shallow embedding of the handshake core of [enclave.c]: the HMAC and
    KDF chain, the four handshake routines, the message handlers, the
    dispatcher entry points, the event loop and the configuration loader,
    together with the sender of that configuration in [master.c], followed
    by the properties of the specification proved over them and by further
    properties of the code.

    Conventions.
    - A C byte array is a [list byte]; a [uint32_t] is a [Z].
    - A [struct peer *] obtained from [ifn->peers[n]] is the index [n]: every
      peer is a separate allocation, so two such pointers are equal exactly
      when the indices are.  The back pointers [peer->ifn], [peer->hs] and
      [hs->peer] are the embedding itself: a peer lives inside its interface
      and carries its handshake state.
    - Library primitives (BLAKE2s, X25519, ChaCha20-Poly1305) and the
      helpers of the repository that are not part of enclave.c are fields of
      a record [primitives]; nothing is assumed about them except where a
      theorem states a law as a hypothesis.
    - A routine is a state transformer that returns how it ended together
      with the state it left behind, so an early [return -1] keeps every
      write made before it. *)

From Stdlib Require Import ZArith Lia.
From Stdlib Require Import Strings.Byte Strings.String.
From stdpp Require Import base option list.

Local Open Scope Z_scope.

(** ** Bytes *)

#[global] Instance byte_eq_decision : EqDecision byte := Byte.byte_eq_dec.

Definition byte_val (b : byte) : Z := Z.of_N (Byte.to_N b).

Definition byte_of_nat (n : nat) : byte :=
  match Byte.of_nat n with Some b => b | None => x00 end.

(** [a ^ b] on [uint8_t]. *)
Definition byte_xor (a b : byte) : byte :=
  let '(a0, (a1, (a2, (a3, (a4, (a5, (a6, a7))))))) := Byte.to_bits a in
  let '(b0, (b1, (b2, (b3, (b4, (b5, (b6, b7))))))) := Byte.to_bits b in
  Byte.of_bits (xorb a0 b0, (xorb a1 b1, (xorb a2 b2, (xorb a3 b3,
               (xorb a4 b4, (xorb a5 b5, (xorb a6 b6, xorb a7 b7))))))).

Definition zeros (n : nat) : list byte := replicate n x00.

(** [memcmp(s1, s2, n)]: the difference of the first pair of bytes that
    differ, compared as [unsigned char], and 0 when the first [n] bytes
    agree.  Every call of the program passes buffers of at least [n] bytes;
    a list that ends early compares as a proper prefix. *)
Fixpoint memcmp (s1 s2 : list byte) (n : nat) {struct n} : Z :=
  match n with
  | O => 0
  | S n' =>
    match s1, s2 with
    | b1 :: r1, b2 :: r2 =>
      if decide (b1 = b2) then memcmp r1 r2 n' else byte_val b1 - byte_val b2
    | [], [] => 0
    | [], _ :: _ => -1
    | _ :: _, [] => 1
    end
  end.

(** The order of the specification: [lex_lt a b] when [a] is strictly
    smaller than [b] byte by byte, most significant byte first. *)
Fixpoint lex_lt (a b : list byte) : Prop :=
  match a, b with
  | x :: a', y :: b' => byte_val x < byte_val y \/ (x = y /\ lex_lt a' b')
  | [], _ :: _ => True
  | _, [] => False
  end.

(** The 32-bit value [v] as it lies in memory in wire format. *)
Definition le32 (v : Z) : list byte :=
  map (fun i => byte_of_nat (Z.to_nat ((v / 2 ^ (8 * Z.of_nat i)) mod 256)))
      (seq 0 4).

(** ** Sizes *)

Definition KEYLEN : nat := 32.
Definition HASHLEN : nat := 32.
Definition TAGLEN : nat := 16.
Definition BLAKE2S_BLOCKBYTES : nat := 64.
Definition BLAKE2S_KEYBYTES : nat := 32.

Definition wskey := list byte.
Definition wshash := list byte.

(** ** Wire and control messages *)

(** [struct msgwginit] (148 bytes). *)
Record msgwginit := {
  mwi_type : Z;
  mwi_sender : Z;
  mwi_ephemeral : list byte;   (* 32 *)
  mwi_stat : list byte;        (* 32 + TAGLEN *)
  mwi_timestamp : list byte;   (* 12 + TAGLEN *)
  mwi_mac1 : list byte;        (* 16 *)
  mwi_mac2 : list byte         (* 16 *)
}.

(** [struct msgwgresp] (92 bytes). *)
Record msgwgresp := {
  mwr_type : Z;
  mwr_sender : Z;
  mwr_receiver : Z;
  mwr_ephemeral : list byte;   (* 32 *)
  mwr_empty : list byte;       (* 0 + TAGLEN *)
  mwr_mac1 : list byte;
  mwr_mac2 : list byte
}.

(** The first [MAC1OFFSETINIT] bytes of a [struct msgwginit]. *)
Definition mwi_prefix (m : msgwginit) : list byte :=
  le32 (mwi_type m) ++ le32 (mwi_sender m) ++ mwi_ephemeral m ++
  mwi_stat m ++ mwi_timestamp m.

(** The first [MAC1OFFSETRESP] bytes of a [struct msgwgresp]. *)
Definition mwr_prefix (m : msgwgresp) : list byte :=
  le32 (mwr_type m) ++ le32 (mwr_sender m) ++ le32 (mwr_receiver m) ++
  mwr_ephemeral m ++ mwr_empty m.

(** [struct msgsesskeys]. *)
Record msgsesskeys := {
  msk_sessid : Z;
  msk_peersessid : Z;
  msk_sendkey : wskey;
  msk_recvkey : wskey
}.

(** [union sockaddr_inet] and [struct msgconnreq]. *)
Definition sockaddr_inet := list byte.

Record msgconnreq := {
  mcr_fsn : sockaddr_inet;
  mcr_lsn : sockaddr_inet
}.

(** Message type codes exchanged with the siblings. *)
Inductive mtcode :=
  | MSGWGINIT | MSGWGRESP | MSGREQWGINIT | MSGCONNREQ | MSGSESSKEYS
  | MSGOTHER (code : Z).

#[global] Instance mtcode_eq_decision : EqDecision mtcode.
Proof. solve_decision. Defined.

(** ** Primitives that enclave.c takes from libraries and sibling files *)

Record primitives := {
  (** [blake2s_init], [blake2s_update]..., [blake2s_final] with 32 bytes of
      output, over the concatenation of the updates. *)
  blake2s : list byte -> list byte;
  (** [ws_hash(out, iov, iovlen)]. *)
  ws_hash : list (list byte) -> wshash;
  (** [ws_mac(mac, 16, data, datasize, key)]; [None] is the -1 return. *)
  ws_mac : list byte -> wskey -> option (list byte);
  (** [ws_validmac(mac, 16, data, datasize, key)]. *)
  ws_validmac : list byte -> list byte -> wskey -> bool;
  (** The 32 bytes [X25519(out, priv, peer)] writes to [out]. *)
  X25519 : wskey -> wskey -> wskey;
  (** The public key [X25519_keypair] stores next to the private key. *)
  X25519_public : wskey -> wskey;
  (** [EVP_AEAD_CTX_seal] and [EVP_AEAD_CTX_open] of ChaCha20-Poly1305 with
      the all-zero nonce: key, additional data, input.  [None] covers a
      failing [EVP_AEAD_CTX_init] as well. *)
  aead_seal : wskey -> wshash -> list byte -> option (list byte);
  aead_open : wskey -> wshash -> list byte -> option (list byte);
  (** The process-wide [conshash] and [considhash], read at startup from
      the constants [CONSHASH] and [CONSIDHASH]. *)
  conshash : wshash;
  considhash : wshash;
  (** [makemsgconnreq(mcr, fsn, lsn)]; [None] is the -1 return. *)
  makemsgconnreq : sockaddr_inet -> sockaddr_inet -> option msgconnreq
}.

(** What the handshake algebra needs from the primitives. *)
Record primitives_ok (P : primitives) : Prop := {
  X25519_comm : forall a b,
    X25519 P a (X25519_public P b) = X25519 P b (X25519_public P a);
  aead_open_seal : forall k ad pt ct,
    aead_seal P k ad pt = Some ct -> aead_open P k ad ct = Some pt
}.

(** [ws_validmac] accepts a MAC exactly when it is the one [ws_mac]
    computes over the same data with the same key. *)
Definition validmac_ok (P : primitives) : Prop :=
  forall mac data key,
    ws_validmac P mac data key = true <-> ws_mac P data key = Some mac.

(** ** HMAC and the KDF chain *)

Section Kdf.
Context (P : primitives).

(** [hmac(out, iovin, iovinlen, key)]. *)
Definition hmac (iovin : list (list byte)) (key : wskey) : wskey :=
  let x_key := take BLAKE2S_KEYBYTES key ++
               zeros (BLAKE2S_BLOCKBYTES - BLAKE2S_KEYBYTES) in
  let x_key := map (fun b => byte_xor b x36) x_key in
  let i_hash := blake2s P (x_key ++ concat iovin) in
  let x_key := map (fun b => byte_xor b (byte_xor x5c x36)) x_key in
  blake2s P (x_key ++ i_hash).

(** The loop of [kdfn] from counter [t] on, [cnt] rounds; [prev] is
    [iovout[t - 2]]. *)
Fixpoint kdfn_loop (t0 prev : wskey) (t cnt : nat) : list wskey :=
  match cnt with
  | O => []
  | S cnt' =>
    let out := hmac [prev; [byte_of_nat t]] t0 in
    out :: kdfn_loop t0 out (S t) cnt'
  end.

(** [kdfn(iovout, iovoutlen, in, key)]: the [iovoutlen] derived keys in
    order, [None] for the -1 return.  The callers pass 1, 2 or 3; the model
    follows the loop for every count below 255 (at 255 the one-byte counter
    of the source wraps round). *)
Definition kdfn (iovoutlen : nat) (input : option wskey) (key : wskey)
  : option (list wskey) :=
  if bool_decide (iovoutlen < 1)%nat || bool_decide (255 < iovoutlen)%nat
  then None
  else
    let t0 := match input with
              | Some i => hmac [take KEYLEN i] key
              | None => hmac [] key
              end in
    let out1 := hmac [[x01]] t0 in
    Some (out1 :: kdfn_loop t0 out1 2 (iovoutlen - 1)).

(** [kdf1(out, in, key)]. *)
Definition kdf1 (input key : wskey) : option wskey :=
  match kdfn 1 (Some input) key with
  | Some [out] => Some out
  | _ => None
  end.

(** [kdfn] called with two output slots. *)
Definition kdfn2 (input : option wskey) (key : wskey) : option (wskey * wskey) :=
  match kdfn 2 input key with
  | Some [o1; o2] => Some (o1, o2)
  | _ => None
  end.

(** [kdfn] called with three output slots. *)
Definition kdfn3 (input : option wskey) (key : wskey)
  : option (wskey * wskey * wskey) :=
  match kdfn 3 input key with
  | Some [o1; o2; o3] => Some (o1, o2, o3)
  | _ => None
  end.

(** [dh(sharedsecret, privkey, peerkey)]: [X25519] returns 0 when its output
    is all zero. *)
Definition dh (privkey peerkey : wskey) : option wskey :=
  let sharedsecret := X25519 P privkey peerkey in
  if decide (sharedsecret = zeros (length sharedsecret)) then None
  else Some sharedsecret.

(** [inithash2(out, in1, in1size, in2, in2size)]. *)
Definition inithash2 (in1 in2 : list byte) : wshash := ws_hash P [in1; in2].

(** [appendhash(h, in, insize)]. *)
Definition appendhash (h : wshash) (input : list byte) : wshash :=
  ws_hash P [take HASHLEN h; input].

(** [aead(out, outlen, in, inlen, key, h, open)]. *)
Definition aead (input : list byte) (key : wskey) (h : wshash) (open : bool)
  : option (list byte) :=
  if open then aead_open P key (take HASHLEN h) input
  else aead_seal P key (take HASHLEN h) input.

End Kdf.

(** The KDF of the specification: [t0 = HMAC(key, input)],
    [out_1 = HMAC(t0, 0x01)], [out_i = HMAC(t0, out_{i-1} || byte(i))]. *)
Definition KDF_2 (P : primitives) (input : list byte) (key : wskey)
  : wskey * wskey :=
  let t0 := hmac P [input] key in
  let out_1 := hmac P [[x01]] t0 in
  let out_2 := hmac P [out_1 ++ [x02]] t0 in
  (out_1, out_2).

(** ** The registry: handshake state, peers, interfaces *)

(** [struct hs]. *)
Record hs := {
  hs_sessid : Z;
  hs_peersessid : Z;
  hs_epriv : wskey;
  hs_epubi : wskey;
  hs_c : wskey;
  hs_h : wshash
}.

(** [struct peer]. *)
Record peer := {
  p_id : Z;
  p_pubkey : wskey;
  p_pubkeyhash : wshash;
  p_mac1key : wskey;
  p_dhsecret : wskey;
  p_psk : wskey;
  p_hs : hs;
  p_recvts : list byte         (* 12 *)
}.

(** [struct ifn]; [peerssize] is the length of [peers]. *)
Record ifn := {
  ifn_id : Z;
  ifn_port : Z;
  ifn_ifname : string;
  ifn_privkey : wskey;
  ifn_pubkey : wskey;
  ifn_pubkeyhash : wshash;
  ifn_mac1key : wskey;
  ifn_cookiekey : wskey;
  ifn_peers : list peer
}.

Definition ifn_peerssize (i : ifn) : Z := Z.of_nat (length (ifn_peers i)).

Definition set_hs_sessid (v : Z) (s : hs) : hs :=
  {| hs_sessid := v; hs_peersessid := hs_peersessid s; hs_epriv := hs_epriv s;
     hs_epubi := hs_epubi s; hs_c := hs_c s; hs_h := hs_h s |}.
Definition set_hs_peersessid (v : Z) (s : hs) : hs :=
  {| hs_sessid := hs_sessid s; hs_peersessid := v; hs_epriv := hs_epriv s;
     hs_epubi := hs_epubi s; hs_c := hs_c s; hs_h := hs_h s |}.
Definition set_hs_epriv (v : wskey) (s : hs) : hs :=
  {| hs_sessid := hs_sessid s; hs_peersessid := hs_peersessid s; hs_epriv := v;
     hs_epubi := hs_epubi s; hs_c := hs_c s; hs_h := hs_h s |}.
Definition set_hs_epubi (v : wskey) (s : hs) : hs :=
  {| hs_sessid := hs_sessid s; hs_peersessid := hs_peersessid s;
     hs_epriv := hs_epriv s; hs_epubi := v; hs_c := hs_c s; hs_h := hs_h s |}.
Definition set_hs_c (v : wskey) (s : hs) : hs :=
  {| hs_sessid := hs_sessid s; hs_peersessid := hs_peersessid s;
     hs_epriv := hs_epriv s; hs_epubi := hs_epubi s; hs_c := v; hs_h := hs_h s |}.
Definition set_hs_h (v : wshash) (s : hs) : hs :=
  {| hs_sessid := hs_sessid s; hs_peersessid := hs_peersessid s;
     hs_epriv := hs_epriv s; hs_epubi := hs_epubi s; hs_c := hs_c s; hs_h := v |}.

Definition set_p_hs (f : hs -> hs) (p : peer) : peer :=
  {| p_id := p_id p; p_pubkey := p_pubkey p; p_pubkeyhash := p_pubkeyhash p;
     p_mac1key := p_mac1key p; p_dhsecret := p_dhsecret p; p_psk := p_psk p;
     p_hs := f (p_hs p); p_recvts := p_recvts p |}.
Definition set_p_recvts (v : list byte) (p : peer) : peer :=
  {| p_id := p_id p; p_pubkey := p_pubkey p; p_pubkeyhash := p_pubkeyhash p;
     p_mac1key := p_mac1key p; p_dhsecret := p_dhsecret p; p_psk := p_psk p;
     p_hs := p_hs p; p_recvts := v |}.

Definition set_ifn_peers (f : list peer -> list peer) (i : ifn) : ifn :=
  {| ifn_id := ifn_id i; ifn_port := ifn_port i; ifn_ifname := ifn_ifname i;
     ifn_privkey := ifn_privkey i; ifn_pubkey := ifn_pubkey i;
     ifn_pubkeyhash := ifn_pubkeyhash i; ifn_mac1key := ifn_mac1key i;
     ifn_cookiekey := ifn_cookiekey i; ifn_peers := f (ifn_peers i) |}.

Definition set_mwr_type (v : Z) (m : msgwgresp) : msgwgresp :=
  {| mwr_type := v; mwr_sender := mwr_sender m; mwr_receiver := mwr_receiver m;
     mwr_ephemeral := mwr_ephemeral m; mwr_empty := mwr_empty m;
     mwr_mac1 := mwr_mac1 m; mwr_mac2 := mwr_mac2 m |}.
Definition set_mwr_sender (v : Z) (m : msgwgresp) : msgwgresp :=
  {| mwr_type := mwr_type m; mwr_sender := v; mwr_receiver := mwr_receiver m;
     mwr_ephemeral := mwr_ephemeral m; mwr_empty := mwr_empty m;
     mwr_mac1 := mwr_mac1 m; mwr_mac2 := mwr_mac2 m |}.
Definition set_mwr_receiver (v : Z) (m : msgwgresp) : msgwgresp :=
  {| mwr_type := mwr_type m; mwr_sender := mwr_sender m; mwr_receiver := v;
     mwr_ephemeral := mwr_ephemeral m; mwr_empty := mwr_empty m;
     mwr_mac1 := mwr_mac1 m; mwr_mac2 := mwr_mac2 m |}.
Definition set_mwr_ephemeral (v : list byte) (m : msgwgresp) : msgwgresp :=
  {| mwr_type := mwr_type m; mwr_sender := mwr_sender m;
     mwr_receiver := mwr_receiver m; mwr_ephemeral := v;
     mwr_empty := mwr_empty m; mwr_mac1 := mwr_mac1 m; mwr_mac2 := mwr_mac2 m |}.
Definition set_mwr_empty (v : list byte) (m : msgwgresp) : msgwgresp :=
  {| mwr_type := mwr_type m; mwr_sender := mwr_sender m;
     mwr_receiver := mwr_receiver m; mwr_ephemeral := mwr_ephemeral m;
     mwr_empty := v; mwr_mac1 := mwr_mac1 m; mwr_mac2 := mwr_mac2 m |}.
Definition set_mwr_mac1 (v : list byte) (m : msgwgresp) : msgwgresp :=
  {| mwr_type := mwr_type m; mwr_sender := mwr_sender m;
     mwr_receiver := mwr_receiver m; mwr_ephemeral := mwr_ephemeral m;
     mwr_empty := mwr_empty m; mwr_mac1 := v; mwr_mac2 := mwr_mac2 m |}.
Definition set_mwr_mac2 (v : list byte) (m : msgwgresp) : msgwgresp :=
  {| mwr_type := mwr_type m; mwr_sender := mwr_sender m;
     mwr_receiver := mwr_receiver m; mwr_ephemeral := mwr_ephemeral m;
     mwr_empty := mwr_empty m; mwr_mac1 := mwr_mac1 m; mwr_mac2 := v |}.

Definition set_mwi_type (v : Z) (m : msgwginit) : msgwginit :=
  {| mwi_type := v; mwi_sender := mwi_sender m;
     mwi_ephemeral := mwi_ephemeral m; mwi_stat := mwi_stat m;
     mwi_timestamp := mwi_timestamp m; mwi_mac1 := mwi_mac1 m;
     mwi_mac2 := mwi_mac2 m |}.
Definition set_mwi_sender (v : Z) (m : msgwginit) : msgwginit :=
  {| mwi_type := mwi_type m; mwi_sender := v;
     mwi_ephemeral := mwi_ephemeral m; mwi_stat := mwi_stat m;
     mwi_timestamp := mwi_timestamp m; mwi_mac1 := mwi_mac1 m;
     mwi_mac2 := mwi_mac2 m |}.
Definition set_mwi_ephemeral (v : list byte) (m : msgwginit) : msgwginit :=
  {| mwi_type := mwi_type m; mwi_sender := mwi_sender m;
     mwi_ephemeral := v; mwi_stat := mwi_stat m;
     mwi_timestamp := mwi_timestamp m; mwi_mac1 := mwi_mac1 m;
     mwi_mac2 := mwi_mac2 m |}.
Definition set_mwi_stat (v : list byte) (m : msgwginit) : msgwginit :=
  {| mwi_type := mwi_type m; mwi_sender := mwi_sender m;
     mwi_ephemeral := mwi_ephemeral m; mwi_stat := v;
     mwi_timestamp := mwi_timestamp m; mwi_mac1 := mwi_mac1 m;
     mwi_mac2 := mwi_mac2 m |}.
Definition set_mwi_timestamp (v : list byte) (m : msgwginit) : msgwginit :=
  {| mwi_type := mwi_type m; mwi_sender := mwi_sender m;
     mwi_ephemeral := mwi_ephemeral m; mwi_stat := mwi_stat m;
     mwi_timestamp := v; mwi_mac1 := mwi_mac1 m; mwi_mac2 := mwi_mac2 m |}.
Definition set_mwi_mac1 (v : list byte) (m : msgwginit) : msgwginit :=
  {| mwi_type := mwi_type m; mwi_sender := mwi_sender m;
     mwi_ephemeral := mwi_ephemeral m; mwi_stat := mwi_stat m;
     mwi_timestamp := mwi_timestamp m; mwi_mac1 := v; mwi_mac2 := mwi_mac2 m |}.
Definition set_mwi_mac2 (v : list byte) (m : msgwginit) : msgwginit :=
  {| mwi_type := mwi_type m; mwi_sender := mwi_sender m;
     mwi_ephemeral := mwi_ephemeral m; mwi_stat := mwi_stat m;
     mwi_timestamp := mwi_timestamp m; mwi_mac1 := mwi_mac1 m; mwi_mac2 := v |}.

(** ** Peer lookup *)

(** [findifnpeerbypubkey(p, ifn, pubkey)]: the first peer whose public key
    has the 32 bytes of [pubkey]. *)
Definition findifnpeerbypubkey (i : ifn) (pubkey : list byte) : option nat :=
  fst <$> list_find (fun p => memcmp (p_pubkey p) pubkey 32 = 0) (ifn_peers i).

(** [findifnpeerbysessid(p, ifn, sessid)]. *)
Definition findifnpeerbysessid (i : ifn) (sessid : Z) : option nat :=
  fst <$> list_find (fun p => hs_sessid (p_hs p) = sessid) (ifn_peers i).

(** [findifnpeerbyid(p, ifn, peerid)]. *)
Definition findifnpeerbyid (i : ifn) (peerid : Z) : option nat :=
  if bool_decide (peerid >= ifn_peerssize i) then None
  else Some (Z.to_nat peerid).

(** ** Routines as state transformers *)

(** What is handed to [wire_sendpeeridmsg]. *)
Inductive payload :=
  | PConnreq (m : msgconnreq)
  | PSesskeys (m : msgsesskeys)
  | PWgresp (m : msgwgresp)
  | PWginit (m : msgwginit).

(** One call of [wire_sendpeeridmsg] with what it returned. *)
Record sentmsg := {
  sent_port : Z;
  sent_peerid : Z;
  sent_mtcode : mtcode;
  sent_payload : payload;
  sent_result : Z
}.

(** The memory a handler works on: the interface with its peers, the scratch
    buffer [msg] seen as a [struct msgwginit] and as a [struct msgwgresp],
    and the calls of [wire_sendpeeridmsg] so far. *)
Record world := {
  w_ifn : ifn;
  w_mwi : msgwginit;
  w_mwr : msgwgresp;
  w_sent : list sentmsg
}.

(** What a handler takes from outside during one run. *)
Record env := {
  (** [arc4random()]. *)
  e_arc4random : Z;
  (** The private key drawn by [X25519_keypair]. *)
  e_keypair : wskey;
  (** The 12 bytes written by [externaltai64n(..., nowtai64n(&ts))], or
      [None] for its -1. *)
  e_now : option (list byte);
  (** The 16 bytes that lie in memory behind [recvts], the last member of
      [struct peer]. *)
  e_beyond : list byte;
  (** Whether [wire_sendpeeridmsg] of this type succeeds. *)
  e_send : mtcode -> bool
}.

(** How a routine ends. *)
Inductive result (A : Type) : Type :=
  | Ok (a : A)       (* ran to the end, or [return 0] *)
  | Fail             (* [return -1] *)
  | Exit             (* [exit(1)] or a failed [assert] *)
  | Undefined.       (* a read outside an object *)
Arguments Ok {A} a.
Arguments Fail {A}.
Arguments Exit {A}.
Arguments Undefined {A}.

Definition M (S A : Type) : Type := S -> result A * S.

Definition ret {S A} (a : A) : M S A := fun s => (Ok a, s).
Definition bind {S A B} (m : M S A) (f : A -> M S B) : M S B :=
  fun s =>
    match m s with
    | (Ok a, s') => f a s'
    | (Fail, s') => (Fail, s')
    | (Exit, s') => (Exit, s')
    | (Undefined, s') => (Undefined, s')
    end.
Definition fail {S A} : M S A := fun s => (Fail, s).
Definition exit {S A} : M S A := fun s => (Exit, s).
Definition undefined {S A} : M S A := fun s => (Undefined, s).
Definition gets {S A} (f : S -> A) : M S A := fun s => (Ok (f s), s).
Definition modify {S} (f : S -> S) : M S unit := fun s => (Ok tt, f s).

(** A callee's [-1], passed on with [return -1]. *)
Definition try {S A} (o : option A) : M S A :=
  match o with Some a => ret a | None => fail end.

Declare Scope enclave_scope.
Delimit Scope enclave_scope with M.
Notation "x <- m ;; k" := (bind m (fun x => k))
  (at level 20, m at level 99, k at level 200, only parsing) : enclave_scope.
Notation "' pat <- m ;; k" := (bind m (fun x => match x with pat => k end))
  (at level 20, pat pattern, m at level 99, k at level 200, only parsing)
  : enclave_scope.
Notation "m ;;; k" := (bind m (fun _ => k))
  (at level 20, k at level 200, only parsing) : enclave_scope.

Definition set_w_ifn (f : ifn -> ifn) (w : world) : world :=
  {| w_ifn := f (w_ifn w); w_mwi := w_mwi w; w_mwr := w_mwr w;
     w_sent := w_sent w |}.
Definition set_w_mwi (f : msgwginit -> msgwginit) (w : world) : world :=
  {| w_ifn := w_ifn w; w_mwi := f (w_mwi w); w_mwr := w_mwr w;
     w_sent := w_sent w |}.
Definition set_w_mwr (f : msgwgresp -> msgwgresp) (w : world) : world :=
  {| w_ifn := w_ifn w; w_mwi := w_mwi w; w_mwr := f (w_mwr w);
     w_sent := w_sent w |}.
Definition set_w_sent (f : list sentmsg -> list sentmsg) (w : world) : world :=
  {| w_ifn := w_ifn w; w_mwi := w_mwi w; w_mwr := w_mwr w;
     w_sent := f (w_sent w) |}.

(** [ifn->peers[n]] read through a peer pointer. *)
Definition peer_at (n : nat) : M world peer :=
  fun w => match ifn_peers (w_ifn w) !! n with
           | Some p => (Ok p, w)
           | None => (Undefined, w)
           end.

(** A write through a peer pointer. *)
Definition modify_peer (n : nat) (f : peer -> peer) : M world unit :=
  modify (set_w_ifn (set_ifn_peers (alter f n))).

(** A peer pointer that is dereferenced without a NULL test. *)
Definition deref (peer : option nat) : M world nat :=
  match peer with Some n => ret n | None => undefined end.

(** ** The handshake routines *)

Section Handshake.
Context (P : primitives) (E : env).
Local Open Scope enclave_scope.

(** [makemsgsesskeys(msk, hs, responder)]: [iov[0]] is [recvkey] for the
    responder and [sendkey] for the initiator. *)
Definition makemsgsesskeys (s : hs) (responder : bool) : option msgsesskeys :=
  match kdfn2 P None (hs_c s) with
  | Some (iov0, iov1) =>
    Some {| msk_sessid := hs_sessid s;
            msk_peersessid := hs_peersessid s;
            msk_sendkey := if responder then iov1 else iov0;
            msk_recvkey := if responder then iov0 else iov1 |}
  | None => None
  end.

(** The static 28-byte buffer [tmpts] after the timestamp was opened into
    it: the plaintext, followed by the zero bytes the buffer has held since
    the program was loaded (nothing else is ever written there). *)
Definition tmpts_buffer (plain : list byte) : list byte :=
  take (12 + TAGLEN) (plain ++ zeros (12 + TAGLEN)).

(** [upgradehsinit(ifn, mwi, &peer, responder)]; the result is [*peer] on
    return 0.  The three pointer arguments are never NULL. *)
Definition upgradehsinit (peer : option nat) (responder : bool)
  : M world nat :=
  i <- gets w_ifn ;;
  mwi <- gets w_mwi ;;
  tmph <- (if responder then ret (ifn_pubkeyhash i)
           else n <- deref peer ;; p <- peer_at n ;; ret (p_pubkeyhash p)) ;;
  let tmph := appendhash P tmph (mwi_ephemeral mwi) in
  tmpc <- try (kdf1 P (mwi_ephemeral mwi) (conshash P)) ;;
  k <- (if responder then try (dh P (ifn_privkey i) (mwi_ephemeral mwi))
        else n <- deref peer ;; p <- peer_at n ;;
             try (dh P (hs_epriv (p_hs p)) (p_pubkey p))) ;;
  '(tmpc, k) <- try (kdfn2 P (Some k) tmpc) ;;
  n <- (if responder then
          tmpstat <- try (aead P (mwi_stat mwi) k tmph true) ;;
          match findifnpeerbypubkey i tmpstat with
          | None => fail
          | Some p =>
            (* extra verification on connected sockets *)
            match peer with
            | Some q => if decide (p <> q) then fail else ret p
            | None => ret p
            end
          end
        else
          n <- deref peer ;;
          stat <- try (aead P (take KEYLEN (ifn_pubkey i)) k tmph false) ;;
          modify (set_w_mwi (set_mwi_stat stat)) ;;;
          ret n) ;;
  p <- peer_at n ;;
  mwi <- gets w_mwi ;;
  let tmph := appendhash P tmph (mwi_stat mwi) in
  '(tmpc, k) <- try (kdfn2 P (Some (p_dhsecret p)) tmpc) ;;
  (if responder then
     plain <- try (aead P (mwi_timestamp mwi) k tmph true) ;;
     let tmpts := tmpts_buffer plain in
     if bool_decide
          (memcmp tmpts (p_recvts p ++ e_beyond E) (12 + TAGLEN) <= 0)
     then fail
     else
       (* Successfully authenticated *)
       modify_peer n (set_p_recvts (take 12 tmpts)) ;;;
       modify_peer n (set_p_hs (set_hs_epubi (take KEYLEN (mwi_ephemeral mwi))))
   else
     ts <- try (aead P (take 12 (mwi_timestamp mwi)) k tmph false) ;;
     modify (set_w_mwi (set_mwi_timestamp ts))) ;;;
  mwi <- gets w_mwi ;;
  let tmph := appendhash P tmph (mwi_timestamp mwi) in
  modify_peer n (set_p_hs (set_hs_c (take KEYLEN tmpc))) ;;;
  modify_peer n (set_p_hs (set_hs_h (take HASHLEN tmph))) ;;;
  ret n.

(** [X25519_keypair(out_public, out_private)]. *)
Definition X25519_keypair : wskey * wskey :=
  (X25519_public P (e_keypair E), e_keypair E).

(** [createhsinit(peer, mwi)]. *)
Definition createhsinit (peer : nat) : M world unit :=
  peer_at peer ;;;
  modify_peer peer (set_p_hs (set_hs_sessid (e_arc4random E))) ;;;
  modify (set_w_mwi (set_mwi_type 1)) ;;;
  modify (set_w_mwi (set_mwi_sender (e_arc4random E))) ;;;
  modify (set_w_mwi (set_mwi_ephemeral (fst X25519_keypair))) ;;;
  modify_peer peer (set_p_hs (set_hs_epriv (snd X25519_keypair))) ;;;
  now <- try (e_now E) ;;
  modify (set_w_mwi (fun m =>
    set_mwi_timestamp (take 12 now ++ drop 12 (mwi_timestamp m)) m)) ;;;
  upgradehsinit (Some peer) false ;;;
  p <- peer_at peer ;;
  mwi <- gets w_mwi ;;
  mac1 <- try (ws_mac P (mwi_prefix mwi) (p_mac1key p)) ;;
  modify (set_w_mwi (set_mwi_mac1 mac1)) ;;;
  (* Cookies are handled outside the enclave. *)
  modify (set_w_mwi (set_mwi_mac2 (zeros 16))).

(** [upgradehsresp(hs, mwr, responder)] on the handshake state of peer
    [n]; [hs->peer] is that peer and [hs->peer->ifn] its interface. *)
Definition upgradehsresp (n : nat) (responder : bool) : M world unit :=
  i <- gets w_ifn ;;
  p <- peer_at n ;;
  mwr <- gets w_mwr ;;
  let s := p_hs p in
  tmpc <- try (kdf1 P (mwr_ephemeral mwr) (hs_c s)) ;;
  let tmph := inithash2 P (take HASHLEN (hs_h s))
                          (take KEYLEN (mwr_ephemeral mwr)) in
  k <- (if responder then try (dh P (hs_epriv s) (hs_epubi s))
        else try (dh P (hs_epriv s) (mwr_ephemeral mwr))) ;;
  tmpc <- try (kdf1 P k tmpc) ;;
  k <- (if responder then try (dh P (hs_epriv s) (p_pubkey p))
        else try (dh P (ifn_privkey i) (mwr_ephemeral mwr))) ;;
  tmpc <- try (kdf1 P k tmpc) ;;
  '(tmpc, tau, k) <- try (kdfn3 P (Some (p_psk p)) tmpc) ;;
  let tmph := appendhash P tmph (take KEYLEN tau) in
  (if responder then
     empty <- try (aead P [] k tmph false) ;;
     modify (set_w_mwr (set_mwr_empty empty))
   else
     try (aead P (mwr_empty mwr) k tmph true) ;;;
     ret tt) ;;;
  (* skip hashing msg.empty *)
  (* Successfully authenticated *)
  modify_peer n (set_p_hs (set_hs_c (take KEYLEN tmpc))).

(** [createhsresp(peer, mwr, mwi)].  In [handlewginit] both messages lie
    in [msg]; [mwi->sender] is read before the first write to [mwr], and
    nothing of [mwi] is read afterwards. *)
Definition createhsresp (peer : nat) : M world unit :=
  peer_at peer ;;;
  mwi <- gets w_mwi ;;
  modify_peer peer (set_p_hs (set_hs_sessid (e_arc4random E))) ;;;
  modify_peer peer (set_p_hs (set_hs_peersessid (mwi_sender mwi))) ;;;
  modify (set_w_mwr (set_mwr_type 2)) ;;;
  modify (set_w_mwr (set_mwr_sender (e_arc4random E))) ;;;
  modify (set_w_mwr (set_mwr_receiver (mwi_sender mwi))) ;;;
  modify (set_w_mwr (set_mwr_ephemeral (fst X25519_keypair))) ;;;
  modify_peer peer (set_p_hs (set_hs_epriv (snd X25519_keypair))) ;;;
  upgradehsresp peer true ;;;
  p <- peer_at peer ;;
  mwr <- gets w_mwr ;;
  mac1 <- try (ws_mac P (mwr_prefix mwr) (p_mac1key p)) ;;
  modify (set_w_mwr (set_mwr_mac1 mac1)) ;;;
  modify (set_w_mwr (set_mwr_mac2 (zeros 16))).

(** ** The message handlers *)

(** [wire_sendpeeridmsg(port, peerid, mtcode, msg, msgsize)]: 0 when the
    message was written to the sibling, -1 otherwise. *)
Definition wire_sendpeeridmsg (port peerid : Z) (mt : mtcode) (pl : payload)
  : M world Z :=
  let r := if e_send E mt then 0 else -1 in
  modify (set_w_sent (fun l => l ++
    [{| sent_port := port; sent_peerid := peerid; sent_mtcode := mt;
        sent_payload := pl; sent_result := r |}])) ;;;
  ret r.

(** [handlewginit(ifn, peer, fsn, lsn)]; [addrs] is [Some (fsn, lsn)] when
    both pointers are given. *)
Definition handlewginit (peer : option nat)
    (addrs : option (sockaddr_inet * sockaddr_inet)) : M world unit :=
  i <- gets w_ifn ;;
  mwi <- gets w_mwi ;;
  if negb (ws_validmac P (mwi_mac1 mwi) (mwi_prefix mwi) (ifn_mac1key i))
  then fail
  else
    peer <- upgradehsinit peer true ;;
    (* Overwrite msg mwi with mwr *)
    createhsresp peer ;;;
    p <- peer_at peer ;;
    (match addrs with
     | Some (fsn, lsn) =>
       match makemsgconnreq P fsn lsn with
       | None => exit
       | Some mcr =>
         r <- wire_sendpeeridmsg (ifn_port i) (p_id p) MSGCONNREQ
                (PConnreq mcr) ;;
         if decide (r = -1) then fail else ret tt
       end
     | None => ret tt
     end) ;;;
    match makemsgsesskeys (p_hs p) true with
    | None => exit
    | Some msk =>
      r <- wire_sendpeeridmsg (ifn_port i) (p_id p) MSGSESSKEYS
             (PSesskeys msk) ;;
      if decide (r = -1) then fail
      else
        mwr <- gets w_mwr ;;
        r <- wire_sendpeeridmsg (ifn_port i) (p_id p) MSGWGRESP
               (PWgresp mwr) ;;
        if decide (r = -1) then fail else ret tt
    end.

(** [handlewgresp(ifn, peer, fsn, lsn)]. *)
Definition handlewgresp (peer : option nat)
    (addrs : option (sockaddr_inet * sockaddr_inet)) : M world unit :=
  i <- gets w_ifn ;;
  mwr <- gets w_mwr ;;
  if negb (ws_validmac P (mwr_mac1 mwr) (mwr_prefix mwr) (ifn_mac1key i))
  then fail
  else
    match findifnpeerbysessid i (mwr_receiver mwr) with
    | None => fail
    | Some n =>
      p <- peer_at n ;;
      (* verify the authenticated packet came in on the right socket *)
      (match peer with
       | Some q =>
         asserted <- peer_at q ;;
         if decide (p_id asserted <> p_id p) then fail else ret tt
       | None => ret tt
       end) ;;;
      upgradehsresp n false ;;;
      modify_peer n (set_p_hs (set_hs_peersessid (mwr_sender mwr))) ;;;
      p <- peer_at n ;;
      (match addrs with
       | Some (fsn, lsn) =>
         match makemsgconnreq P fsn lsn with
         | None => exit
         | Some mcr =>
           r <- wire_sendpeeridmsg (ifn_port i) (p_id p) MSGCONNREQ
                  (PConnreq mcr) ;;
           if decide (r = -1) then fail else ret tt
         end
       | None => ret tt
       end) ;;;
      match makemsgsesskeys (p_hs p) false with
      | None => exit
      | Some msk =>
        r <- wire_sendpeeridmsg (ifn_port i) (p_id p) MSGSESSKEYS
               (PSesskeys msk) ;;
        if decide (r = -1) then fail else ret tt
      end
    end.

End Handshake.

(** ** The dispatcher *)

(** The process: the interface table [ifnv] ([ifnvsize] is its length), the
    scratch buffer [msg] in its two views, and the sends so far. *)
Record enclave := {
  ifnv : list ifn;
  msg_mwi : msgwginit;
  msg_mwr : msgwgresp;
  sent : list sentmsg
}.

Definition ifnvsize (st : enclave) : Z := Z.of_nat (length (ifnv st)).

(** What [wire_recvpeeridmsg] delivers: the peer id, the type code and the
    bytes put into [msg]. *)
Record peeridmsg := {
  pim_peerid : Z;
  pim_mtcode : mtcode;
  pim_mwi : msgwginit;
  pim_mwr : msgwgresp
}.

(** What [wire_recvproxymsg] delivers. *)
Record proxymsg := {
  pm_ifnid : Z;
  pm_lsn : sockaddr_inet;
  pm_fsn : sockaddr_inet;
  pm_mtcode : mtcode;
  pm_mwi : msgwginit;
  pm_mwr : msgwgresp
}.

(** Run a handler on the interface [ifnv[n]], which is [i]. *)
Definition on_ifn {A} (n : nat) (i : ifn) (m : M world A) : M enclave A :=
  fun st =>
    let '(r, w) := m {| w_ifn := i; w_mwi := msg_mwi st; w_mwr := msg_mwr st;
                        w_sent := sent st |} in
    (r, {| ifnv := <[n := w_ifn w]> (ifnv st); msg_mwi := w_mwi w;
           msg_mwr := w_mwr w; sent := w_sent w |}).

Section Dispatch.
Context (P : primitives) (E : env).
Local Open Scope enclave_scope.

(** [handleifnmsg(ifn)], run on the interface it is called for; [rcv] is
    what [wire_recvpeeridmsg] returned, [None] for -1. *)
Definition handleifnmsg (rcv : option peeridmsg) : M world unit :=
  match rcv with
  | None => fail
  | Some m =>
    modify (set_w_mwi (fun _ => pim_mwi m)) ;;;
    modify (set_w_mwr (fun _ => pim_mwr m)) ;;;
    i <- gets w_ifn ;;
    match findifnpeerbyid i (pim_peerid m) with
    | None => fail
    | Some peer =>
      match pim_mtcode m with
      | MSGWGINIT => handlewginit P E (Some peer) None
      | MSGWGRESP => handlewgresp P E (Some peer) None
      | MSGREQWGINIT =>
        createhsinit P E peer ;;;
        mwi <- gets w_mwi ;;
        r <- wire_sendpeeridmsg E (ifn_port i) (pim_peerid m) MSGWGINIT
               (PWginit mwi) ;;
        if decide (r = -1) then fail else ret tt
      | _ => fail
      end
    end
  end.

(** [handleproxymsg()]; [rcv] is what [wire_recvproxymsg] returned. *)
Definition handleproxymsg (rcv : option proxymsg) : M enclave unit :=
  match rcv with
  | None => fail
  | Some m =>
    modify (fun st => {| ifnv := ifnv st; msg_mwi := pm_mwi m;
                         msg_mwr := pm_mwr m; sent := sent st |}) ;;;
    st <- gets id ;;
    if bool_decide (pm_ifnid m > ifnvsize st) then fail
    else
      match ifnv st !! Z.to_nat (pm_ifnid m) with
      | None => undefined      (* [ifnv[ifnid]] lies behind the table *)
      | Some i =>
        match pm_mtcode m with
        | MSGWGINIT =>
          on_ifn (Z.to_nat (pm_ifnid m)) i
            (handlewginit P E None (Some (pm_fsn m, pm_lsn m)))
        | MSGWGRESP =>
          on_ifn (Z.to_nat (pm_ifnid m)) i
            (handlewgresp P E None (Some (pm_fsn m, pm_lsn m)))
        | _ => fail
        end
      end
  end.

(** One readiness event of [enclave_serv]. *)
Inductive event :=
  | EvProxy (eof : bool) (rcv : option proxymsg)
  | EvIfn (n : nat) (eof : bool) (rcv : option peeridmsg).

(** A call whose return value is not looked at. *)
Definition ignore {S} (m : M S unit) : M S unit :=
  fun s => match m s with
           | (Fail, s') => (Ok tt, s')
           | other => other
           end.

(** The body of the event loop of [enclave_serv] for one event: the loop
    goes on after [Ok]. *)
Definition enclave_serv_event (ev : event) : M enclave unit :=
  match ev with
  | EvProxy true _ => ret tt
  | EvProxy false rcv => ignore (handleproxymsg rcv)
  | EvIfn n true _ => ret tt
  | EvIfn n false rcv =>
    st <- gets id ;;
    match ifnv st !! n with
    | None => ret tt
    | Some i => ignore (on_ifn n i (handleifnmsg rcv))
    end
  end.

End Dispatch.

(** ** Configuration *)

(** [struct sinit], [struct sifn], [struct speer]: the fields the enclave
    reads. *)
Record sinit := { si_proxport : Z; si_nifns : Z }.

Record sifn := {
  sf_ifnid : Z;
  sf_ifname : string;
  sf_ifnport : Z;
  sf_npeers : Z;
  sf_privkey : wskey;
  sf_pubkey : wskey;
  sf_pubkeyhash : wshash;
  sf_mac1key : wskey;
  sf_cookiekey : wskey
}.

Record speer := {
  sp_ifnid : Z;
  sp_peerid : Z;
  sp_psk : wskey;
  sp_peerkey : wskey;
  sp_mac1key : wskey
}.

Inductive smsg :=
  | SINIT (m : sinit) | SIFN (m : sifn) | SPEER (m : speer) | SEOS.

Section Config.
Context (P : primitives).
(** The bytes found in a freshly allocated [struct hs] of peer [m] of
    interface [n]. *)
Context (fresh_hs : nat -> nat -> hs).
Local Open Scope enclave_scope.

(** [wire_recvmsg(masterport, ...)] followed by the test of the type code;
    the state is what the master still has to deliver, [None] standing for
    a read that fails.  Every failure here ends in [exit(1)]. *)
Definition wire_recvmsg : M (list (option smsg)) smsg :=
  fun s => match s with
           | Some m :: rest => (Ok m, rest)
           | None :: rest => (Exit, rest)
           | [] => (Exit, [])
           end.

(** The peer loop of [recvconfig] for interface [n], from peer [m] on. *)
Fixpoint recvconfig_peers (privkey : wskey) (n m count : nat)
  : M (list (option smsg)) (list peer) :=
  match count with
  | O => ret []
  | S count' =>
    msg <- wire_recvmsg ;;
    match msg with
    | SPEER sp =>
      if decide (sp_ifnid sp <> Z.of_nat n) then exit
      else if decide (sp_peerid sp <> Z.of_nat m) then exit
      else
        let pubkey := take KEYLEN (sp_peerkey sp) in
        let p := {| p_id := Z.of_nat m mod 2 ^ 32;
                    p_pubkey := pubkey;
                    p_pubkeyhash :=
                      appendhash P (take HASHLEN (considhash P))
                                 (take KEYLEN (sp_peerkey sp));
                    p_mac1key := take KEYLEN (sp_mac1key sp);
                    p_dhsecret := X25519 P privkey pubkey;
                    p_psk := take KEYLEN (sp_psk sp);
                    p_hs := fresh_hs n m;
                    p_recvts := zeros 12 |} in
        rest <- recvconfig_peers privkey n (S m) count' ;;
        ret (p :: rest)
    | _ => exit
    end
  end.

(** The interface loop of [recvconfig], from interface [n] on. *)
Fixpoint recvconfig_ifns (n count : nat) : M (list (option smsg)) (list ifn) :=
  match count with
  | O => ret []
  | S count' =>
    msg <- wire_recvmsg ;;
    match msg with
    | SIFN sf =>
      if decide (Z.of_nat n <> sf_ifnid sf) then exit
      else
        let privkey := take KEYLEN (sf_privkey sf) in
        peers <- recvconfig_peers privkey n 0 (Z.to_nat (sf_npeers sf)) ;;
        let i := {| ifn_id := sf_ifnid sf;
                    ifn_port := sf_ifnport sf;
                    ifn_ifname := sf_ifname sf;
                    ifn_privkey := privkey;
                    ifn_pubkey := take KEYLEN (sf_pubkey sf);
                    ifn_pubkeyhash := take HASHLEN (sf_pubkeyhash sf);
                    ifn_mac1key := take KEYLEN (sf_mac1key sf);
                    ifn_cookiekey := take KEYLEN (sf_cookiekey sf);
                    ifn_peers := peers |} in
        rest <- recvconfig_ifns (S n) count' ;;
        ret (i :: rest)
    | _ => exit
    end
  end.

(** [recvconfig(masterport)]: the interface table it builds. *)
Definition recvconfig : M (list (option smsg)) (list ifn) :=
  msg <- wire_recvmsg ;;
  match msg with
  | SINIT si =>
    table <- recvconfig_ifns 0 (Z.to_nat (si_nifns si)) ;;
    (* expect end of startup signal *)
    msg <- wire_recvmsg ;;
    match msg with
    | SEOS => ret table
    | _ => exit
    end
  | _ => exit
  end.

End Config.

(** ** Notions used to state the properties *)

Section Notions.
Context (P : primitives).

(** The scratch values [tmpc], [tmph] and the static key found in
    [tmpstat] once the responder has opened [mwi->stat]. *)
Definition hsinit_static (i : ifn) (mwi : msgwginit)
  : option (wskey * wshash * list byte) :=
  let tmph := appendhash P (ifn_pubkeyhash i) (mwi_ephemeral mwi) in
  tmpc ← kdf1 P (mwi_ephemeral mwi) (conshash P);
  k ← dh P (ifn_privkey i) (mwi_ephemeral mwi);
  '(tmpc, k) ← kdfn2 P (Some k) tmpc;
  tmpstat ← aead P (mwi_stat mwi) k tmph true;
  Some (tmpc, tmph, tmpstat).

(** The peer, the final [tmpc] and [tmph], and the plaintext timestamp
    once the responder has opened [mwi->timestamp] as well: everything but
    the replay test has passed. *)
Definition hsinit_opened (i : ifn) (mwi : msgwginit) (peer : option nat)
  : option (nat * wskey * wshash * list byte) :=
  '(tmpc, tmph, tmpstat) ← hsinit_static i mwi;
  n ← findifnpeerbypubkey i tmpstat;
  if decide (peer = None \/ peer = Some n) then
    p ← ifn_peers i !! n;
    let tmph := appendhash P tmph (mwi_stat mwi) in
    '(tmpc, k) ← kdfn2 P (Some (p_dhsecret p)) tmpc;
    plain ← aead P (mwi_timestamp mwi) k tmph true;
    Some (n, tmpc, appendhash P tmph (mwi_timestamp mwi), plain)
  else None.

(** The message fields and the final [tmpc], [tmph] the initiator
    computes in [upgradehsinit] for its peer [p]; [pubkey] is the static
    public key of its interface. *)
Definition hsinit_sealed (pubkey : wskey) (p : peer) (mwi : msgwginit)
  : option (list byte * list byte * wskey * wshash) :=
  let tmph := appendhash P (p_pubkeyhash p) (mwi_ephemeral mwi) in
  tmpc ← kdf1 P (mwi_ephemeral mwi) (conshash P);
  k ← dh P (hs_epriv (p_hs p)) (p_pubkey p);
  '(tmpc, k) ← kdfn2 P (Some k) tmpc;
  stat ← aead P (take KEYLEN pubkey) k tmph false;
  let tmph := appendhash P tmph stat in
  '(tmpc, k) ← kdfn2 P (Some (p_dhsecret p)) tmpc;
  ts ← aead P (take 12 (mwi_timestamp mwi)) k tmph false;
  Some (stat, ts, tmpc, appendhash P tmph ts).

(** The chain of [upgradehsresp] from the chaining key [c]: response
    ephemeral, the two Diffie-Hellman results, pre-shared key. *)
Definition hsresp_chain (c : wskey) (ephemeral : list byte)
  (ee es : option wskey) (psk : wskey) : option (wskey * wskey * wskey) :=
  tmpc ← kdf1 P ephemeral c;
  k ← ee;
  tmpc ← kdf1 P k tmpc;
  k ← es;
  tmpc ← kdf1 P k tmpc;
  kdfn3 P (Some psk) tmpc.

End Notions.

(** The writes of an accepted init: timestamp, initiator ephemeral, chaining
    key and hash of peer [n]. *)
Definition hsinit_commit (n : nat) (ephemeral tmpc tmph plain : list byte)
  (i : ifn) : ifn :=
  set_ifn_peers (fun l =>
    alter (set_p_hs (set_hs_h (take HASHLEN tmph))) n
      (alter (set_p_hs (set_hs_c (take KEYLEN tmpc))) n
        (alter (set_p_hs (set_hs_epubi (take KEYLEN ephemeral))) n
          (alter (set_p_recvts (take 12 (tmpts_buffer plain))) n l)))) i.

(** The persistent fields of the peers of an interface that a handshake
    commits: chaining key, transcript hash, last accepted timestamp. *)
Definition persistent (i : ifn) : list (wskey * wshash * list byte) :=
  map (fun p => (hs_c (p_hs p), hs_h (p_hs p), p_recvts p)) (ifn_peers i).

(** Peer ids are the indices into the peer table. *)
Definition ids_dense (i : ifn) : Prop :=
  forall m p, ifn_peers i !! m = Some p -> p_id p = Z.of_nat m.

(** Bit [j] of byte [n] of [l] inverted. *)
Definition bit_mask (j : nat) : byte :=
  byte_of_nat (2 ^ j).
Definition flip_bit (n j : nat) (l : list byte) : list byte :=
  alter (fun b => byte_xor b (bit_mask j)) n l.

(** Every send recorded so far was successful. *)
Definition sends_ok (l : list sentmsg) : Prop :=
  Forall (fun s => sent_result s = 0) l.

(** The peer id of a [struct speer] fits its 32-bit field. *)
Definition speer_uint32 (f : option smsg) : Prop :=
  match f with
  | Some (SPEER sp) => 0 <= sp_peerid sp < 2 ^ 32
  | _ => True
  end.

(** ** The event loop of [enclave_serv] *)

(** The signals [handlesig] tells apart. *)
Inductive signal := SIGUSR1 | SIGINT | SIGTERM | SIGOTHER (signo : Z).

(** The two flags written by [handlesig] and read at the top of the loop. *)
Record flags := { logstats : bool; doterm : bool }.

(** [handlesig(signo)]. *)
Definition handlesig (signo : signal) (f : flags) : flags :=
  match signo with
  | SIGUSR1 => {| logstats := true; doterm := doterm f |}
  | SIGINT | SIGTERM => {| logstats := logstats f; doterm := true |}
  | SIGOTHER _ => f
  end.

(** The loop over the events one [kevent] call returned.  Every event comes
    with what its handler takes from outside.  An event of the proxy port
    leaves the loop by [break]: the events behind it are not looked at. *)
Fixpoint enclave_serv_events (P : primitives) (evs : list (env * event))
  : M enclave unit :=
  match evs with
  | [] => ret tt
  | (E, EvProxy eof rcv) :: _ => enclave_serv_event P E (EvProxy eof rcv)
  | (E, ev) :: rest =>
    bind (enclave_serv_event P E ev) (fun _ => enclave_serv_events P rest)
  end.

(** What [kevent] returns: -1 with [EINTR], -1 otherwise, or events. *)
Inductive kevent_result :=
  | KEINTR
  | KERROR
  | KEVENTS (evs : list (env * event)).

(** One turn of the [for (;;)] loop: the signals delivered since the flags
    were last read, and what [kevent] returns. *)
Record iteration := { it_signals : list signal; it_kevent : kevent_result }.

(** The process with its flags. *)
Record serv := { sv_flags : flags; sv_enclave : enclave }.

(** The body of the [for (;;)] loop of [enclave_serv]. *)
Definition enclave_serv_iteration (P : primitives) (it : iteration)
  : M serv unit :=
  fun s =>
    let f := fold_left (fun f signo => handlesig signo f) (it_signals it)
                       (sv_flags s) in
    let f := if logstats f then {| logstats := false; doterm := doterm f |}
             else f in
    if doterm f then (Exit, {| sv_flags := f; sv_enclave := sv_enclave s |})
    else
      match it_kevent it with
      | KEINTR => (Ok tt, {| sv_flags := f; sv_enclave := sv_enclave s |})
      | KERROR => (Exit, {| sv_flags := f; sv_enclave := sv_enclave s |})
      | KEVENTS evs =>
        let '(r, st) := enclave_serv_events P evs (sv_enclave s) in
        (r, {| sv_flags := f; sv_enclave := st |})
      end.


(** ** The master's side of the configuration (master.c) *)

(** [struct peer] and [struct ifn] of the master: the fields
    [sendconfig_enclave] reads. *)
Record mpeer := {
  mp_psk : wskey;
  mp_pubkey : wskey;
  mp_mac1key : wskey
}.

Record mifn := {
  mi_ifname : string;
  mi_enclwithifn : Z;
  mi_psk : wskey;
  mi_privkey : wskey;
  mi_pubkey : wskey;
  mi_pubkeyhash : wshash;
  mi_mac1key : wskey;
  mi_cookiekey : wskey;
  mi_peers : list mpeer
}.

(** The master: its interface table and the frames written to the enclave
    so far. *)
Record master := { m_ifnv : list mifn; m_out : list smsg }.

Definition set_mp_psk (v : wskey) (p : mpeer) : mpeer :=
  {| mp_psk := v; mp_pubkey := mp_pubkey p; mp_mac1key := mp_mac1key p |}.
Definition set_mi_peers (f : list mpeer -> list mpeer) (i : mifn) : mifn :=
  {| mi_ifname := mi_ifname i; mi_enclwithifn := mi_enclwithifn i;
     mi_psk := mi_psk i; mi_privkey := mi_privkey i; mi_pubkey := mi_pubkey i;
     mi_pubkeyhash := mi_pubkeyhash i; mi_mac1key := mi_mac1key i;
     mi_cookiekey := mi_cookiekey i; mi_peers := f (mi_peers i) |}.
Definition set_m_ifnv (f : list mifn -> list mifn) (s : master) : master :=
  {| m_ifnv := f (m_ifnv s); m_out := m_out s |}.

Section Master.
(** [sizeof(smsg.ifn.ifname)]. *)
Context (ifnamesize : nat).
(** Whether [wire_sendmsg] of a frame succeeds. *)
Context (sendok : smsg -> bool).
Local Open Scope enclave_scope.

(** [wire_sendmsg(port, ...)] followed by [logexitx] on -1. *)
Definition wire_sendmsg (m : smsg) : M master unit :=
  if sendok m
  then modify (fun s => {| m_ifnv := m_ifnv s; m_out := m_out s ++ [m] |})
  else exit.

(** [snprintf(dst, size, "%s", src)]: at most [size - 1] characters. *)
Definition snprintf_s (size : nat) (src : string) : string :=
  substring 0 (size - 1) src.

(** The psk of a peer once [sendconfig_enclave] has dealt with it: the
    interface psk when the first 32 bytes of its own are zero. *)
Definition default_psk (ifnpsk psk : wskey) : wskey :=
  if decide (memcmp psk (zeros KEYLEN) KEYLEN = 0)
  then take KEYLEN ifnpsk ++ drop KEYLEN psk
  else psk.

(** [smsg.peer] as filled in for peer [m] of interface [n]; the id fields
    of the frames are 32 bits wide, the key fields are [wskey]s. *)
Definition speer_frame (n m : nat) (p : mpeer) : smsg :=
  SPEER {| sp_ifnid := Z.of_nat n mod 2 ^ 32;
           sp_peerid := Z.of_nat m mod 2 ^ 32;
           sp_psk := take KEYLEN (mp_psk p);
           sp_peerkey := take KEYLEN (mp_pubkey p);
           sp_mac1key := take KEYLEN (mp_mac1key p) |}.

(** [smsg.ifn] as filled in for interface [n]; [ifdesc], which the enclave
    does not read, is left out. *)
Definition sifn_frame (n : nat) (i : mifn) : smsg :=
  SIFN {| sf_ifnid := Z.of_nat n mod 2 ^ 32;
          sf_ifname := snprintf_s ifnamesize (mi_ifname i);
          sf_ifnport := mi_enclwithifn i;
          sf_npeers := Z.of_nat (length (mi_peers i));
          sf_privkey := take KEYLEN (mi_privkey i);
          sf_pubkey := take KEYLEN (mi_pubkey i);
          sf_pubkeyhash := take HASHLEN (mi_pubkeyhash i);
          sf_mac1key := take KEYLEN (mi_mac1key i);
          sf_cookiekey := take KEYLEN (mi_cookiekey i) |}.

(** The peer loop of [sendconfig_enclave] for interface [n], from peer [m]
    on. *)
Fixpoint sendconfig_enclave_peers (n m count : nat) : M master unit :=
  match count with
  | O => ret tt
  | S count' =>
    st <- gets id ;;
    match m_ifnv st !! n with
    | None => undefined
    | Some i =>
      match mi_peers i !! m with
      | None => undefined
      | Some p =>
        let psk := default_psk (mi_psk i) (mp_psk p) in
        modify (set_m_ifnv
                  (alter (set_mi_peers (alter (set_mp_psk psk) m)) n)) ;;;
        wire_sendmsg (speer_frame n m (set_mp_psk psk p)) ;;;
        sendconfig_enclave_peers n (S m) count'
      end
    end
  end.

(** The interface loop of [sendconfig_enclave], from interface [n] on. *)
Fixpoint sendconfig_enclave_ifns (n count : nat) : M master unit :=
  match count with
  | O => ret tt
  | S count' =>
    st <- gets id ;;
    match m_ifnv st !! n with
    | None => undefined
    | Some i =>
      wire_sendmsg (sifn_frame n i) ;;;
      sendconfig_enclave_peers n 0 (length (mi_peers i)) ;;;
      sendconfig_enclave_ifns (S n) count'
    end
  end.

(** [sendconfig_enclave(mast2encl, enclwithprox)]. *)
Definition sendconfig_enclave (enclwithprox : Z) : M master unit :=
  st <- gets id ;;
  wire_sendmsg (SINIT {| si_proxport := enclwithprox;
                         si_nifns := Z.of_nat (length (m_ifnv st)) |}) ;;;
  sendconfig_enclave_ifns 0 (length (m_ifnv st)).
  (* wait with end of startup signal *)

(** [signal_eos(mastport)] on the port of the enclave. *)
Definition signal_eos : M master unit := wire_sendmsg SEOS.

End Master.

(** ** Further notions *)

(** The peers of the master once [sendconfig_enclave] has dealt with them,
    and the frames it writes for an interface. *)
Definition defaulted_peer (i : mifn) (p : mpeer) : mpeer :=
  set_mp_psk (default_psk (mi_psk i) (mp_psk p)) p.

Definition frames_of_ifn (ifnamesize : nat) (n : nat) (i : mifn) : list smsg :=
  sifn_frame ifnamesize n i ::
  imap (fun m p => speer_frame n m (defaulted_peer i p)) (mi_peers i).

(** The enclave's peer [p] is what the master's peer [mp], stored at index
    [m], says, for an interface with private key [privkey]. *)
Definition peer_configured_as (P : primitives) (privkey : wskey) (m : nat)
    (mp : mpeer) (p : peer) : Prop :=
  p_id p = Z.of_nat m /\
  p_pubkey p = take KEYLEN (mp_pubkey mp) /\
  p_mac1key p = take KEYLEN (mp_mac1key mp) /\
  p_psk p = take KEYLEN (mp_psk mp) /\
  p_dhsecret p = X25519 P privkey (p_pubkey p) /\
  p_recvts p = zeros 12.

(** The enclave's interface [i] is what the master's interface [mi], stored
    at index [n], says; the psk of a peer is the interface psk where the
    peer has none of its own. *)
Definition ifn_configured_as (P : primitives) (ifnamesize n : nat)
    (mi : mifn) (i : ifn) : Prop :=
  ifn_id i = Z.of_nat n /\
  ifn_port i = mi_enclwithifn mi /\
  ifn_ifname i = snprintf_s ifnamesize (mi_ifname mi) /\
  ifn_privkey i = take KEYLEN (mi_privkey mi) /\
  ifn_pubkey i = take KEYLEN (mi_pubkey mi) /\
  ifn_pubkeyhash i = take HASHLEN (mi_pubkeyhash mi) /\
  ifn_mac1key i = take KEYLEN (mi_mac1key mi) /\
  ifn_cookiekey i = take KEYLEN (mi_cookiekey mi) /\
  length (ifn_peers i) = length (mi_peers mi) /\
  forall m mp, mi_peers mi !! m = Some mp ->
    exists p, ifn_peers i !! m = Some p /\
      peer_configured_as P (ifn_privkey i) m (defaulted_peer mi mp) p.




(** A send to the sibling that went through. *)
Definition sent_ok (port peerid : Z) (m : mtcode * payload) : sentmsg :=
  {| sent_port := port; sent_peerid := peerid; sent_mtcode := fst m;
     sent_payload := snd m; sent_result := 0 |}.

(** The connection request a handler sends first when it was given the
    addresses. *)
Definition connreq_msgs (P : primitives)
    (addrs : option (sockaddr_inet * sockaddr_inet))
  : list (mtcode * payload) :=
  match addrs with
  | Some (fsn, lsn) =>
    match makemsgconnreq P fsn lsn with
    | Some mcr => [(MSGCONNREQ, PConnreq mcr)]
    | None => []
    end
  | None => []
  end.

(** What the configuration fixes of a peer and of an interface: everything
    but the handshake state and the last accepted timestamp. *)
Definition peer_static (p : peer)
  : Z * wskey * wshash * wskey * wskey * wskey :=
  (p_id p, p_pubkey p, p_pubkeyhash p, p_mac1key p, p_dhsecret p, p_psk p).

Definition ifn_static (i : ifn) :=
  (ifn_id i, ifn_port i, ifn_ifname i, ifn_privkey i, ifn_pubkey i,
   ifn_pubkeyhash i, ifn_mac1key i, ifn_cookiekey i,
   map peer_static (ifn_peers i)).

(** [lex_lt] or equal. *)
Definition lex_le (a b : list byte) : Prop := a = b \/ lex_lt a b.

(** A peer that differs in its handshake state at most. *)
Definition hs_only (p p' : peer) : Prop :=
  peer_static p' = peer_static p /\ p_recvts p' = p_recvts p.

(** What one handler run may do to a peer: the configuration stays, and a
    12-byte [recvts] stays 12 bytes long and does not decrease. *)
Definition peer_step (p p' : peer) : Prop :=
  peer_static p' = peer_static p /\
  (length (p_recvts p) = 12%nat ->
   length (p_recvts p') = 12%nat /\ lex_le (p_recvts p) (p_recvts p')).

(** An interface of which peer [n] changed as [R] allows and nothing
    else. *)
Definition ifn_touch (R : peer -> peer -> Prop) (n : nat) (i i' : ifn)
  : Prop :=
  ifn_static i' = ifn_static i /\
  forall m p, ifn_peers i !! m = Some p ->
    exists p', ifn_peers i' !! m = Some p' /\
               (m = n -> R p p') /\ (m <> n -> p' = p).



(** ** A small instance of the primitives

    Executable stand-ins with the algebra the handshake relies on, used to
    run the routines on concrete inputs: a multiplicative Diffie-Hellman
    over the field of order [2^255 - 19] (commutative, and all-zero on the
    all-zero public key, as X25519 is), a rolling hash, and an AEAD that
    appends a keyed tag. *)
Module Toy.

Definition q : Z := Eval vm_compute in 2 ^ 255 - 19.

Definition byte_of_Z (z : Z) : byte :=
  match Byte.of_N (Z.to_N z) with Some b => b | None => x00 end.

Fixpoint bytes_of_Z (len : nat) (z : Z) : list byte :=
  match len with
  | O => []
  | S len' => byte_of_Z (z mod 256) :: bytes_of_Z len' (z / 256)
  end.

Fixpoint Z_of_bytes (l : list byte) : Z :=
  match l with
  | [] => 0
  | b :: r => byte_val b + 256 * Z_of_bytes r
  end.

Definition mask256 : Z := Eval vm_compute in 2 ^ 256 - 1.

Definition hash (data : list byte) : list byte :=
  bytes_of_Z 32
    (fold_left (fun acc b => Z.land (acc * 257 + byte_val b + 1) mask256)
               data 7).

Definition mac (data : list byte) (key : wskey) : option (list byte) :=
  Some (take 16 (hash (key ++ data))).

Definition scalarmult (priv pub : wskey) : wskey :=
  bytes_of_Z 32 ((Z_of_bytes priv * Z_of_bytes pub) mod q).

Definition public (priv : wskey) : wskey :=
  bytes_of_Z 32 ((Z_of_bytes priv * 9) mod q).

Definition tag (k : wskey) (ad pt : list byte) : list byte :=
  take 16 (hash (k ++ ad ++ pt)).

Definition seal (k : wskey) (ad pt : list byte) : option (list byte) :=
  Some (pt ++ tag k ad pt).

Definition open (k : wskey) (ad ct : list byte) : option (list byte) :=
  if bool_decide (length ct < 16)%nat then None
  else
    let pt := take (length ct - 16) ct in
    if decide (drop (length ct - 16) ct = tag k ad pt) then Some pt else None.

Definition connreq (fsn lsn : sockaddr_inet) : option msgconnreq :=
  Some {| mcr_fsn := fsn; mcr_lsn := lsn |}.

Definition validmac (m data : list byte) (key : wskey) : bool :=
  bool_decide (mac data key = Some m).

Definition prims : primitives :=
  {| blake2s := hash;
     ws_hash := fun iov => hash (concat iov);
     ws_mac := mac;
     ws_validmac := validmac;
     X25519 := scalarmult;
     X25519_public := public;
     aead_seal := seal;
     aead_open := open;
     conshash := hash [x01];
     considhash := hash [x02];
     makemsgconnreq := connreq |}.

End Toy.

(** ** A concrete deployment: responder R with three peers, initiator I *)
Module Scenario.
Import Toy.

Definition R_priv : wskey := bytes_of_Z 32 2222.
Definition I_priv : wskey := bytes_of_Z 32 1111.
Definition J_priv : wskey := bytes_of_Z 32 3333.
Definition R_pub : wskey := public R_priv.
Definition I_pub : wskey := public I_priv.
Definition J_pub : wskey := public J_priv.
Definition mac1key_of (pub : wskey) : wskey := hash (x6d :: pub).
Definition pubkeyhash_of (pub : wskey) : wshash :=
  appendhash prims (considhash prims) pub.

Definition fresh_hs (n m : nat) : hs :=
  {| hs_sessid := 100 + Z.of_nat m; hs_peersessid := 0;
     hs_epriv := zeros 32; hs_epubi := zeros 32;
     hs_c := zeros 32; hs_h := zeros 32 |}.

Definition speer_of (peerid : Z) (pub : wskey) : option smsg :=
  Some (SPEER {| sp_ifnid := 0; sp_peerid := peerid; sp_psk := zeros 32;
                 sp_peerkey := pub; sp_mac1key := mac1key_of pub |}).

Definition sifn_of (name : string) (port npeers : Z) (priv : wskey)
  : option smsg :=
  Some (SIFN {| sf_ifnid := 0; sf_ifname := name; sf_ifnport := port;
                sf_npeers := npeers; sf_privkey := priv;
                sf_pubkey := public priv;
                sf_pubkeyhash := pubkeyhash_of (public priv);
                sf_mac1key := mac1key_of (public priv);
                sf_cookiekey := hash (x63 :: public priv) |}).

(** R knows I, J and a peer configured with the all-zero public key. *)
Definition R_frames : list (option smsg) :=
  [ Some (SINIT {| si_proxport := 3; si_nifns := 1 |});
    sifn_of "tun0" 4 3 R_priv;
    speer_of 0 I_pub; speer_of 1 J_pub; speer_of 2 (zeros 32);
    Some SEOS ].

Definition I_frames : list (option smsg) :=
  [ Some (SINIT {| si_proxport := 3; si_nifns := 1 |});
    sifn_of "tun0" 4 1 I_priv;
    speer_of 0 R_pub;
    Some SEOS ].

Definition table_of (frames : list (option smsg)) : list ifn :=
  match recvconfig prims fresh_hs frames with
  | (Ok t, _) => t
  | _ => []
  end.

Definition blank_ifn : ifn :=
  {| ifn_id := 0; ifn_port := 0; ifn_ifname := ""; ifn_privkey := [];
     ifn_pubkey := []; ifn_pubkeyhash := []; ifn_mac1key := [];
     ifn_cookiekey := []; ifn_peers := [] |}.

Definition R_ifn : ifn :=
  Eval vm_compute in nth 0 (table_of R_frames) blank_ifn.
Definition I_ifn : ifn :=
  Eval vm_compute in nth 0 (table_of I_frames) blank_ifn.

Definition mwi0 : msgwginit :=
  {| mwi_type := 0; mwi_sender := 0; mwi_ephemeral := zeros 32;
     mwi_stat := zeros 48; mwi_timestamp := zeros 28;
     mwi_mac1 := zeros 16; mwi_mac2 := zeros 16 |}.

Definition mwr0 : msgwgresp :=
  {| mwr_type := 0; mwr_sender := 0; mwr_receiver := 0;
     mwr_ephemeral := zeros 32; mwr_empty := zeros 16;
     mwr_mac1 := zeros 16; mwr_mac2 := zeros 16 |}.

Definition world_of (i : ifn) (mwi : msgwginit) (mwr : msgwgresp) : world :=
  {| w_ifn := i; w_mwi := mwi; w_mwr := mwr; w_sent := [] |}.

Definition env_of (sessid ekey : Z) (now : Z) (send : mtcode -> bool) : env :=
  {| e_arc4random := sessid; e_keypair := bytes_of_Z 32 ekey;
     e_now := Some (rev (bytes_of_Z 12 now)); e_beyond := zeros 16;
     e_send := send |}.

Definition EI : env := env_of 287454020 4444 1600000000 (fun _ => true).
Definition ER : env := env_of 1432778632 5555 1600000001 (fun _ => true).

(** I creates an init for R. *)
Definition wI : world := world_of I_ifn mwi0 mwr0.
Definition wI1 : world :=
  Eval vm_compute in snd (createhsinit prims EI 0 wI).
Definition init_msg : msgwginit := w_mwi wI1.

(** R consumes it and creates the response. *)
Definition wR : world := world_of R_ifn init_msg mwr0.
Definition wR1 : world :=
  Eval vm_compute in snd (upgradehsinit prims ER None true wR).
Definition wR2 : world :=
  Eval vm_compute in snd (createhsresp prims ER 0 wR1).
Definition resp_msg : msgwgresp := w_mwr wR2.

(** I consumes the response. *)
Definition wI1r : world := set_w_mwr (fun _ => resp_msg) wI1.
Definition wI2 : world :=
  Eval vm_compute in snd (upgradehsresp prims 0 false wI1r).

(** An outsider who knows R's public key forges an init in the name of the
    peer with the all-zero public key: the static-static secret of that
    peer is all zero on both sides. *)
Definition A_ifn : ifn :=
  {| ifn_id := 0; ifn_port := 4; ifn_ifname := "tun9";
     ifn_privkey := bytes_of_Z 32 7777; ifn_pubkey := zeros 32;
     ifn_pubkeyhash := pubkeyhash_of (zeros 32);
     ifn_mac1key := mac1key_of (zeros 32);
     ifn_cookiekey := zeros 32;
     ifn_peers :=
       [ {| p_id := 0; p_pubkey := R_pub;
            p_pubkeyhash := pubkeyhash_of R_pub;
            p_mac1key := mac1key_of R_pub;
            p_dhsecret := zeros 32; p_psk := zeros 32;
            p_hs := fresh_hs 0 0; p_recvts := zeros 12 |} ] |}.
Definition EA : env := env_of 3735928559 8888 1600000002 (fun _ => true).
Definition forged_msg : msgwginit :=
  Eval vm_compute in
    w_mwi (snd (createhsinit prims EA 0 (world_of A_ifn mwi0 mwr0))).
Definition wRz : world := world_of R_ifn forged_msg mwr0.

(** The handshake states of the two sides once the response is through. *)
Definition hsI2 : hs :=
  match ifn_peers (w_ifn wI2) !! 0%nat with
  | Some p => p_hs p
  | None => fresh_hs 0 0
  end.
Definition hsR2 : hs :=
  match ifn_peers (w_ifn wR2) !! 0%nat with
  | Some p => p_hs p
  | None => fresh_hs 0 0
  end.

(** Sends to the sibling fail. *)
Definition ER_down : env :=
  env_of 1432778632 5555 1600000001 (fun _ => false).

Definition blank_enclave (table : list ifn) : enclave :=
  {| ifnv := table; msg_mwi := mwi0; msg_mwr := mwr0; sent := [] |}.

End Scenario.

(** ** Runs of the handlers and of the loop on the deployment *)
Module Run.
Import Toy Scenario.

(** I is asked for a handshake with its peer 0, R answers the init, I
    consumes the response. *)
Definition req : peeridmsg :=
  {| pim_peerid := 0; pim_mtcode := MSGREQWGINIT; pim_mwi := mwi0;
     pim_mwr := mwr0 |}.
Definition wI_req : world :=
  Eval vm_compute in snd (handleifnmsg prims EI (Some req) wI).
Definition wR_in : world := world_of R_ifn (w_mwi wI_req) mwr0.
Definition wR_out : world :=
  Eval vm_compute in snd (handlewginit prims ER None None wR_in).
Definition wI_in : world := set_w_mwr (fun _ => w_mwr wR_out) wI_req.
Definition wI_out : world :=
  Eval vm_compute in snd (handlewgresp prims EI None None wI_in).

(** The init as it arrives on the socket of R's peer 0. *)
Definition init_pim : peeridmsg :=
  {| pim_peerid := 0; pim_mtcode := MSGWGINIT; pim_mwi := w_mwi wI_req;
     pim_mwr := mwr0 |}.

Definition R_table : list ifn := Eval vm_compute in table_of R_frames.

Definition blank_peer : peer :=
  {| p_id := 0; p_pubkey := []; p_pubkeyhash := []; p_mac1key := [];
     p_dhsecret := []; p_psk := []; p_hs := fresh_hs 0 0; p_recvts := [] |}.
Definition I_peer0 : peer :=
  Eval vm_compute in nth 0 (ifn_peers I_ifn) blank_peer.
Definition R_peer2 : peer :=
  Eval vm_compute in nth 2 (ifn_peers R_ifn) blank_peer.

(** The master's table for R: peer I without a psk of its own, peer J
    with one. *)
Definition R_master : master :=
  {| m_ifnv :=
       [ {| mi_ifname := "tun0"; mi_enclwithifn := 4;
            mi_psk := bytes_of_Z 32 9999;
            mi_privkey := R_priv; mi_pubkey := R_pub;
            mi_pubkeyhash := pubkeyhash_of R_pub;
            mi_mac1key := mac1key_of R_pub;
            mi_cookiekey := hash (x63 :: R_pub);
            mi_peers :=
              [ {| mp_psk := zeros 32; mp_pubkey := I_pub;
                   mp_mac1key := mac1key_of I_pub |};
                {| mp_psk := bytes_of_Z 32 4242; mp_pubkey := J_pub;
                   mp_mac1key := mac1key_of J_pub |} ] |} ];
     m_out := [] |}.

(** No clock: [externaltai64n] fails. *)
Definition E_noclock : env :=
  {| e_arc4random := 7; e_keypair := bytes_of_Z 32 6666; e_now := None;
     e_beyond := zeros 16; e_send := fun _ => true |}.

Definition serv0 : serv :=
  {| sv_flags := {| logstats := false; doterm := false |};
     sv_enclave := blank_enclave [R_ifn] |}.

Definition last_turn : iteration :=
  {| it_signals := [SIGUSR1; SIGTERM];
     it_kevent := KEVENTS [(ER, EvIfn 0 false (Some init_pim))] |}.

End Run.

(** * Properties *)

(** ** Bytes and comparison *)

Lemma byte_val_nonneg b : 0 <= byte_val b.
Proof. unfold byte_val. lia. Qed.

Lemma byte_val_inj a b : byte_val a = byte_val b -> a = b.
Proof.
  unfold byte_val. intros H.
  assert (Hn : Byte.to_N a = Byte.to_N b) by lia.
  pose proof (Byte.of_to_N a) as Ha. pose proof (Byte.of_to_N b) as Hb.
  rewrite Hn in Ha. congruence.
Qed.

Lemma memcmp_zeros_le k y m :
  (m <= length y)%nat -> memcmp (zeros k) y m <= 0.
Proof.
  unfold zeros.
  revert k y. induction m as [|m IH]; intros k y Hm; simpl; [lia|].
  destruct k as [|k], y as [|b y]; simpl in *; try lia.
  case_decide as Hb.
  - apply IH. lia.
  - pose proof (byte_val_nonneg b). change (byte_val x00) with 0. lia.
Qed.

(** [memcmp] over two buffers that carry equally long values in front: with
    zero bytes behind the first value, the outcome is that of comparing the
    values alone, whatever lies behind the second. *)
Lemma memcmp_padded a b k y m :
  length a = length b -> (m <= length y)%nat ->
  memcmp (a ++ zeros k) (b ++ y) (length a + m) <= 0 <-> ~ lex_lt b a.
Proof.
  revert b. induction a as [|x a IH]; intros [|x' b] Hlen Hm;
    simpl in Hlen; try discriminate.
  - simpl. pose proof (memcmp_zeros_le k y m Hm). tauto.
  - simpl. case_decide as Hx.
    + subst x'. rewrite IH by lia. split.
      * intros Hn [Hlt | [_ Hl]]; [lia | tauto].
      * intros Hn Hl. apply Hn. right. done.
    + split.
      * intros Hle [Hlt | [He _]]; [lia | congruence].
      * intros Hn. destruct (Z_lt_le_dec (byte_val x') (byte_val x)); [|lia].
        exfalso. apply Hn. left. done.
Qed.

Lemma memcmp_eq_0 a b n : memcmp a b n = 0 -> take n a = take n b.
Proof.
  revert a b. induction n as [|n IH]; intros a b; simpl; [done|].
  destruct a as [|x a], b as [|y b]; simpl; try done.
  case_decide as Hxy.
  - intros H. subst. f_equal. by apply IH.
  - intros H. exfalso. apply Hxy. apply byte_val_inj. lia.
Qed.

Lemma memcmp_refl a n : memcmp a a n = 0.
Proof.
  revert a. induction n as [|n IH]; intros [|x a]; simpl; try done.
  case_decide; [apply IH | done].
Qed.

Lemma tmpts_buffer_12 t :
  length t = 12%nat -> tmpts_buffer t = t ++ zeros 16.
Proof.
  intros H. unfold tmpts_buffer.
  rewrite take_app_ge by (rewrite H; simpl; lia).
  rewrite H. done.
Qed.

Lemma tmpts_buffer_take t : length t = 12%nat -> take 12 (tmpts_buffer t) = t.
Proof.
  intros H. rewrite tmpts_buffer_12 by done.
  rewrite take_app_le by lia. apply take_ge. lia.
Qed.

(** The replay test of [upgradehsinit], a [memcmp] over the 28 bytes of
    [tmpts], rejects exactly the timestamps that are not greater than
    [recvts] in the order on 12 bytes. *)
Lemma replay_test t recvts beyond :
  length t = 12%nat -> length recvts = 12%nat -> (16 <= length beyond)%nat ->
  memcmp (tmpts_buffer t) (recvts ++ beyond) (12 + TAGLEN) <= 0
  <-> ~ lex_lt recvts t.
Proof.
  intros Ht Hr Hb. rewrite tmpts_buffer_12 by done.
  replace (12 + TAGLEN)%nat with (length t + 16)%nat by (rewrite Ht; done).
  apply memcmp_padded; [congruence | done].
Qed.

Lemma lex_lt_dec a b : lex_lt a b \/ ~ lex_lt a b.
Proof.
  revert b. induction a as [|x a IH]; intros [|y b]; simpl; try tauto.
  destruct (Z_lt_le_dec (byte_val x) (byte_val y)); [tauto|].
  destruct (decide (x = y)) as [->|Hne].
  - destruct (IH b); [tauto|]. right. intros [?|[_ ?]]; [lia|tauto].
  - right. intros [?|[? _]]; [lia|tauto].
Qed.


(** ** The responder side of [upgradehsinit] *)

Arguments kdf1 : simpl never.
Arguments kdfn2 : simpl never.
Arguments kdfn3 : simpl never.
Arguments dh : simpl never.
Arguments aead : simpl never.
Arguments appendhash : simpl never.
Arguments inithash2 : simpl never.
Arguments tmpts_buffer : simpl never.
Arguments memcmp : simpl never.
Arguments findifnpeerbypubkey : simpl never.
Arguments findifnpeerbysessid : simpl never.
Arguments makemsgsesskeys : simpl never.
Arguments mwi_prefix : simpl never.
Arguments mwr_prefix : simpl never.

Lemma findifnpeerbypubkey_Some i k n :
  findifnpeerbypubkey i k = Some n ->
  exists p, ifn_peers i !! n = Some p /\ memcmp (p_pubkey p) k 32 = 0 /\
            forall m q, ifn_peers i !! m = Some q -> (m < n)%nat ->
                        memcmp (p_pubkey q) k 32 <> 0.
Proof.
  unfold findifnpeerbypubkey. intros H.
  destruct (list_find _ _) as [[m p]|] eqn:Hf; simplify_eq/=.
  apply list_find_Some in Hf as (Hl & Hp & Hmin). eauto.
Qed.

(** The responder run of [upgradehsinit] in terms of what it opens: it
    fails with nothing written unless the replay test passes, and then
    commits to the resolved peer. *)
Lemma upgradehsinit_responder P E peer w :
  upgradehsinit P E peer true w =
  match hsinit_opened P (w_ifn w) (w_mwi w) peer with
  | None => (Fail, w)
  | Some (n, tmpc, tmph, plain) =>
    match ifn_peers (w_ifn w) !! n with
    | None => (Fail, w)
    | Some p =>
      if bool_decide (memcmp (tmpts_buffer plain)
                             (p_recvts p ++ e_beyond E) (12 + TAGLEN) <= 0)
      then (Fail, w)
      else (Ok n, set_w_ifn (hsinit_commit n (mwi_ephemeral (w_mwi w))
                                           tmpc tmph plain) w)
    end
  end.
Proof.
  unfold upgradehsinit, hsinit_opened, hsinit_static.
  unfold bind, gets, try, ret, fail, modify, peer_at, modify_peer. cbn.
  destruct (kdf1 _ _ _) as [tmpc|]; cbn; [|done].
  destruct (dh _ _ _) as [k|]; cbn; [|done].
  destruct (kdfn2 _ _ _) as [[tmpc' k']|]; cbn; [|done].
  destruct (aead _ _ _ _ _) as [tmpstat|]; cbn; [|done].
  destruct (findifnpeerbypubkey _ _) as [n|] eqn:Hf; cbn; [|done].
  apply findifnpeerbypubkey_Some in Hf as (p & Hp & _).
  destruct peer as [q|]; cbn.
  - destruct (decide (n <> q)) as [Hne|Heq]; cbn.
    + rewrite decide_False; [done|]. intros [?|?]; congruence.
    + assert (q = n) as -> by (destruct (decide (n = q)); [done|tauto]).
      rewrite decide_True by auto. rewrite Hp. cbn.
      destruct (kdfn2 _ _ _) as [[tmpc0 k0]|]; cbn; [|done].
      destruct (aead _ _ _ _ _) as [plain|]; cbn; [|done].
      rewrite Hp. case_bool_decide; done.
  - rewrite decide_True by auto. rewrite Hp. cbn.
    destruct (kdfn2 _ _ _) as [[tmpc0 k0]|]; cbn; [|done].
    destruct (aead _ _ _ _ _) as [plain|]; cbn; [|done].
    rewrite Hp. case_bool_decide; done.
Qed.

Lemma hsinit_commit_lookup n eph tmpc tmph plain i p :
  ifn_peers i !! n = Some p ->
  ifn_peers (hsinit_commit n eph tmpc tmph plain i) !! n =
  Some (set_p_hs (set_hs_h (take HASHLEN tmph))
         (set_p_hs (set_hs_c (take KEYLEN tmpc))
           (set_p_hs (set_hs_epubi (take KEYLEN eph))
             (set_p_recvts (take 12 (tmpts_buffer plain)) p)))).
Proof.
  intros Hp. unfold hsinit_commit. cbn.
  rewrite !list_lookup_alter_eq, Hp. done.
Qed.

(** C1. On the responder side, once the static key and the timestamp of a
    MsgInit have been opened, [upgradehsinit] accepts exactly when the
    12-byte timestamp is strictly greater, byte by byte, than the [recvts]
    of the resolved peer; on accept [recvts] becomes that timestamp (so it
    strictly grows), on reject nothing at all is written.  This holds
    whatever the 16 bytes behind [recvts] are that the 28-byte [memcmp] of
    the source also looks at. *)
Theorem upgradehsinit_replay_check P E peer w n tmpc tmph t p :
  hsinit_opened P (w_ifn w) (w_mwi w) peer = Some (n, tmpc, tmph, t) ->
  ifn_peers (w_ifn w) !! n = Some p ->
  length t = 12%nat -> length (p_recvts p) = 12%nat ->
  (16 <= length (e_beyond E))%nat ->
  let r := upgradehsinit P E peer true w in
  (fst r = Ok n <-> lex_lt (p_recvts p) t) /\
  (lex_lt (p_recvts p) t ->
     exists p', ifn_peers (w_ifn (snd r)) !! n = Some p' /\
                p_recvts p' = t /\ lex_lt (p_recvts p) (p_recvts p')) /\
  (~ lex_lt (p_recvts p) t -> r = (Fail, w)).
Proof.
  intros Ho Hp Ht Hr Hb r. subst r.
  rewrite upgradehsinit_responder, Ho, Hp.
  pose proof (replay_test t (p_recvts p) (e_beyond E) Ht Hr Hb) as Htest.
  case_bool_decide as Hc; cbn [fst snd].
  - apply Htest in Hc. repeat split; done.
  - assert (Hlt : lex_lt (p_recvts p) t).
    { destruct (lex_lt_dec (p_recvts p) t) as [?|Hn]; [done|].
      apply Htest in Hn. tauto. }
    split; [done|]. split; [|done].
    intros _. eexists. split; [by apply hsinit_commit_lookup|].
    cbn. rewrite tmpts_buffer_take by done. done.
Qed.

(** ** The small instance satisfies the laws *)

Lemma toy_byte_val_of_Z z : 0 <= z < 256 -> byte_val (Toy.byte_of_Z z) = z.
Proof.
  intros Hz. unfold Toy.byte_of_Z, byte_val.
  pose proof (Byte.to_of_N_option_map (Z.to_N z)) as H.
  replace (N.leb (Z.to_N z) 255) with true in H
    by (symmetry; apply N.leb_le; lia).
  destruct (Byte.of_N (Z.to_N z)) as [b|]; simpl in H; [|done].
  injection H as ->. lia.
Qed.

Lemma toy_Z_of_bytes_of_Z n z :
  0 <= z < 256 ^ Z.of_nat n -> Toy.Z_of_bytes (Toy.bytes_of_Z n z) = z.
Proof.
  revert z. induction n as [|n IH]; intros z Hz.
  - simpl in *. lia.
  - cbn [Toy.bytes_of_Z Toy.Z_of_bytes].
    rewrite toy_byte_val_of_Z by (apply Z.mod_pos_bound; lia).
    rewrite IH.
    + pose proof (Z.div_mod z 256). lia.
    + rewrite Nat2Z.inj_succ, Z.pow_succ_r in Hz by lia.
      split; [apply Z.div_pos; lia|].
      apply Z.div_lt_upper_bound; lia.
Qed.

Lemma toy_scalarmult_comm a b :
  Toy.scalarmult a (Toy.public b) = Toy.scalarmult b (Toy.public a).
Proof.
  unfold Toy.scalarmult, Toy.public.
  assert (Hq : forall x, 0 <= x mod Toy.q < 256 ^ Z.of_nat 32).
  { intros x. pose proof (Z.mod_pos_bound x Toy.q eq_refl) as Hx.
    change (256 ^ Z.of_nat 32)
      with (Toy.q + (2 ^ 255 + 19)) .
    lia. }
  rewrite !toy_Z_of_bytes_of_Z by apply Hq.
  rewrite !Z.mul_mod_idemp_r by done.
  f_equal. f_equal. lia.
Qed.

Lemma toy_hash_length d : length (Toy.hash d) = 32%nat.
Proof.
  unfold Toy.hash. generalize (fold_left
    (fun acc b => Z.land (acc * 257 + byte_val b + 1) Toy.mask256) d 7).
  intros z. generalize 32%nat as n. intros n. revert z.
  induction n as [|n IH]; intros z; simpl; [done|]. by rewrite IH.
Qed.

Lemma toy_open_seal k ad pt ct :
  Toy.seal k ad pt = Some ct -> Toy.open k ad ct = Some pt.
Proof.
  unfold Toy.seal, Toy.open. intros [= <-].
  assert (Ht : length (Toy.tag k ad pt) = 16%nat).
  { unfold Toy.tag. rewrite length_take, toy_hash_length. done. }
  rewrite length_app, Ht.
  rewrite bool_decide_false by lia.
  replace (length pt + 16 - 16)%nat with (length pt) by lia.
  rewrite take_app_length, drop_app_length.
  by rewrite decide_True.
Qed.

Lemma toy_prims_ok : primitives_ok Toy.prims.
Proof.
  split.
  - apply toy_scalarmult_comm.
  - apply toy_open_seal.
Qed.

(** C1 on the deployment: R's peer 0 has never accepted a timestamp, the
    init of I carries a later one. *)
Lemma upgradehsinit_replay_check_witness :
  exists p t,
    ifn_peers (w_ifn Scenario.wR) !! 0%nat = Some p /\
    p_recvts p = zeros 12 /\ t = rev (Toy.bytes_of_Z 12 1600000000) /\
    let r := upgradehsinit Toy.prims Scenario.ER None true Scenario.wR in
    (fst r = Ok 0%nat <-> lex_lt (p_recvts p) t) /\
    (lex_lt (p_recvts p) t ->
       exists p', ifn_peers (w_ifn (snd r)) !! 0%nat = Some p' /\
                  p_recvts p' = t /\ lex_lt (p_recvts p) (p_recvts p')) /\
    (~ lex_lt (p_recvts p) t -> r = (Fail, Scenario.wR)).
Proof.
  eexists _, _. split; [vm_compute; reflexivity|].
  split; [reflexivity|]. split; [reflexivity|].
  eapply (upgradehsinit_replay_check Toy.prims Scenario.ER None Scenario.wR 0).
  - vm_compute. reflexivity.
  - vm_compute. reflexivity.
  - reflexivity.
  - reflexivity.
  - vm_compute. lia.
Defined.

(** ** Session keys *)

Lemma kdfn2_KDF_2 P input key :
  kdfn2 P input key =
  Some (KDF_2 P (match input with Some i => take KEYLEN i | None => [] end)
              key).
Proof.
  unfold kdfn2, kdfn, KDF_2, hmac.
  destruct input; cbn; by rewrite ?app_nil_r.
Qed.

(** C5. [makemsgsesskeys] puts the two outputs of [KDF_2(empty, hs.c)] into
    the message as (send, recv) for the initiator and as (recv, send) for
    the responder; with the same chaining key on both sides the
    responder's pair is the initiator's pair swapped. *)
Theorem makemsgsesskeys_roles P si sr :
  makemsgsesskeys P si false =
    Some {| msk_sessid := hs_sessid si; msk_peersessid := hs_peersessid si;
            msk_sendkey := fst (KDF_2 P [] (hs_c si));
            msk_recvkey := snd (KDF_2 P [] (hs_c si)) |} /\
  makemsgsesskeys P sr true =
    Some {| msk_sessid := hs_sessid sr; msk_peersessid := hs_peersessid sr;
            msk_sendkey := snd (KDF_2 P [] (hs_c sr));
            msk_recvkey := fst (KDF_2 P [] (hs_c sr)) |} /\
  (hs_c si = hs_c sr ->
   forall mi mr,
     makemsgsesskeys P si false = Some mi ->
     makemsgsesskeys P sr true = Some mr ->
     msk_sendkey mr = msk_recvkey mi /\ msk_recvkey mr = msk_sendkey mi).
Proof.
  unfold makemsgsesskeys. rewrite !kdfn2_KDF_2.
  destruct (KDF_2 P [] (hs_c si)) as [a b] eqn:Hi.
  destruct (KDF_2 P [] (hs_c sr)) as [a' b'] eqn:Hr.
  split; [done|]. split; [done|].
  intros Hc mi mr Hmi Hmr. rewrite Hc in Hi. simplify_eq/=.
  rewrite Hi in Hr. by simplify_eq.
Qed.

(** C5 on the deployment: the handshake states of I and R after the
    response. *)
Lemma makemsgsesskeys_roles_witness :
  hs_c Scenario.hsI2 = hs_c Scenario.hsR2 /\
  exists mi mr,
    makemsgsesskeys Toy.prims Scenario.hsI2 false = Some mi /\
    makemsgsesskeys Toy.prims Scenario.hsR2 true = Some mr /\
    msk_sendkey mr = msk_recvkey mi /\ msk_recvkey mr = msk_sendkey mi.
Proof.
  pose proof (makemsgsesskeys_roles Toy.prims Scenario.hsI2 Scenario.hsR2)
    as (Hi & Hr & Hswap).
  assert (Hc : hs_c Scenario.hsI2 = hs_c Scenario.hsR2)
    by (vm_compute; reflexivity).
  split; [exact Hc|]. eexists _, _.
  split; [exact Hi|]. split; [exact Hr|].
  exact (Hswap Hc _ _ Hi Hr).
Defined.

(** ** MAC1 *)

Lemma ws_validmac_false P mac data key :
  validmac_ok P ->
  ws_mac P data key <> Some mac -> ws_validmac P mac data key = false.
Proof.
  intros OK H. destruct (ws_validmac P mac data key) eqn:Hv; [|done].
  by apply OK in Hv.
Qed.

Lemma handlewginit_invalid_mac P E peer addrs w :
  ws_validmac P (mwi_mac1 (w_mwi w)) (mwi_prefix (w_mwi w))
              (ifn_mac1key (w_ifn w)) = false ->
  handlewginit P E peer addrs w = (Fail, w).
Proof. intros H. unfold handlewginit, bind, gets. cbn. by rewrite H. Qed.

Lemma handlewgresp_invalid_mac P E peer addrs w :
  ws_validmac P (mwr_mac1 (w_mwr w)) (mwr_prefix (w_mwr w))
              (ifn_mac1key (w_ifn w)) = false ->
  handlewgresp P E peer addrs w = (Fail, w).
Proof. intros H. unfold handlewgresp, bind, gets. cbn. by rewrite H. Qed.

Lemma byte_xor_bit_mask b j : (j < 8)%nat -> byte_xor b (bit_mask j) <> b.
Proof.
  intros Hj.
  do 8 (destruct j as [|j]; [destruct b; discriminate|]). lia.
Qed.

Lemma flip_bit_neq n j l :
  (n < length l)%nat -> (j < 8)%nat -> flip_bit n j l <> l.
Proof.
  intros Hn Hj Heq. unfold flip_bit in Heq.
  destruct (lookup_lt_is_Some_2 l n Hn) as [b Hb].
  assert (Hl : alter (fun b => byte_xor b (bit_mask j)) n l !! n = Some b)
    by (rewrite Heq; done).
  rewrite list_lookup_alter_eq, Hb in Hl. cbn in Hl.
  injection Hl. by apply byte_xor_bit_mask.
Qed.

(** C6. A MsgInit (MsgResp) whose [mac1] is not the MAC of its prefix under
    the [mac1key] of the receiving interface makes [handlewginit]
    ([handlewgresp]) return -1 with the memory untouched: no peer, no
    scratch message and no send.  One inverted bit in a valid [mac1] is
    such a case. *)
Theorem invalid_mac1_rejected P E peer addrs w :
  validmac_ok P ->
  (ws_mac P (mwi_prefix (w_mwi w)) (ifn_mac1key (w_ifn w))
     <> Some (mwi_mac1 (w_mwi w)) ->
   handlewginit P E peer addrs w = (Fail, w)) /\
  (ws_mac P (mwr_prefix (w_mwr w)) (ifn_mac1key (w_ifn w))
     <> Some (mwr_mac1 (w_mwr w)) ->
   handlewgresp P E peer addrs w = (Fail, w)) /\
  (forall n j,
     ws_mac P (mwi_prefix (w_mwi w)) (ifn_mac1key (w_ifn w))
       = Some (mwi_mac1 (w_mwi w)) ->
     (n < length (mwi_mac1 (w_mwi w)))%nat -> (j < 8)%nat ->
     let w' := set_w_mwi (set_mwi_mac1 (flip_bit n j (mwi_mac1 (w_mwi w)))) w in
     handlewginit P E peer addrs w' = (Fail, w')).
Proof.
  intros OK. split; [|split].
  - intros H. apply handlewginit_invalid_mac. by apply ws_validmac_false.
  - intros H. apply handlewgresp_invalid_mac. by apply ws_validmac_false.
  - intros n j Hmac Hn Hj w'. apply handlewginit_invalid_mac.
    apply ws_validmac_false; [done|]. subst w'. cbn.
    change (mwi_prefix (set_mwi_mac1 _ (w_mwi w))) with (mwi_prefix (w_mwi w)).
    rewrite Hmac. intros [= Heq]. symmetry in Heq.
    by apply flip_bit_neq in Heq.
Qed.

Lemma toy_validmac_ok : validmac_ok Toy.prims.
Proof. intros mac data key. cbn. unfold Toy.validmac. apply bool_decide_eq_true. Qed.

(** C6 on the deployment: the init of I at R, its [mac1] zeroed, its
    eleventh bit inverted, and a response with a zero [mac1]. *)
Lemma invalid_mac1_rejected_witness :
  let w := Scenario.wR in
  let w0 := set_w_mwi (set_mwi_mac1 (zeros 16)) w in
  let w' := set_w_mwi (set_mwi_mac1 (flip_bit 1 2 (mwi_mac1 (w_mwi w)))) w in
  handlewginit Toy.prims Scenario.ER None None w0 = (Fail, w0) /\
  handlewgresp Toy.prims Scenario.ER None None w = (Fail, w) /\
  handlewginit Toy.prims Scenario.ER None None w' = (Fail, w').
Proof.
  intros w w0 w'.
  split; [|split].
  - apply (proj1 (invalid_mac1_rejected Toy.prims Scenario.ER None None w0
                    toy_validmac_ok)).
    vm_compute. discriminate.
  - apply (proj1 (proj2
      (invalid_mac1_rejected Toy.prims Scenario.ER None None w
         toy_validmac_ok))).
    vm_compute. discriminate.
  - apply (proj2 (proj2
      (invalid_mac1_rejected Toy.prims Scenario.ER None None w
         toy_validmac_ok)) 1%nat 2%nat).
    + vm_compute. reflexivity.
    + vm_compute. lia.
    + lia.
Defined.

(** ** The asserted peer *)

Arguments upgradehsinit : simpl never.
Arguments upgradehsresp : simpl never.
Arguments createhsinit : simpl never.
Arguments createhsresp : simpl never.

Lemma findifnpeerbysessid_Some i sessid n :
  findifnpeerbysessid i sessid = Some n ->
  exists p, ifn_peers i !! n = Some p /\ hs_sessid (p_hs p) = sessid.
Proof.
  unfold findifnpeerbysessid. intros H.
  destruct (list_find _ _) as [[m p]|] eqn:Hf; simplify_eq/=.
  apply list_find_Some in Hf as (Hl & Hp & _). eauto.
Qed.

Lemma hsinit_opened_other_peer P i mwi p1 tmpc tmph stat :
  hsinit_static P i mwi = Some (tmpc, tmph, stat) ->
  (forall q1, ifn_peers i !! p1 = Some q1 -> memcmp (p_pubkey q1) stat 32 <> 0) ->
  hsinit_opened P i mwi (Some p1) = None.
Proof.
  intros Hs Hq1. unfold hsinit_opened. rewrite Hs. cbn.
  destruct (findifnpeerbypubkey i stat) as [n|] eqn:Hf; cbn; [|done].
  apply findifnpeerbypubkey_Some in Hf as (p & Hp & Hm & _).
  case_decide as Hd; [|done].
  destruct Hd as [?|[= ->]]; [done|]. by apply Hq1 in Hp.
Qed.

(** C7. With peer [p1] asserted by the interface process, an init whose
    static key is the key of another peer and not that of [p1], and a
    response whose receiver id is the session of another peer, make the
    handler return -1, whether the rest of the message is authentic or
    not; nothing is written. *)
Theorem cross_peer_rejected P E addrs w p1 :
  (forall tmpc tmph stat p2 q2,
     hsinit_static P (w_ifn w) (w_mwi w) = Some (tmpc, tmph, stat) ->
     ifn_peers (w_ifn w) !! p2 = Some q2 ->
     memcmp (p_pubkey q2) stat 32 = 0 ->
     (forall q1, ifn_peers (w_ifn w) !! p1 = Some q1 ->
                 memcmp (p_pubkey q1) stat 32 <> 0) ->
     handlewginit P E (Some p1) addrs w = (Fail, w)) /\
  (forall p2 q1,
     ids_dense (w_ifn w) ->
     ifn_peers (w_ifn w) !! p1 = Some q1 ->
     findifnpeerbysessid (w_ifn w) (mwr_receiver (w_mwr w)) = Some p2 ->
     p2 <> p1 ->
     handlewgresp P E (Some p1) addrs w = (Fail, w)).
Proof.
  split.
  - intros tmpc tmph stat p2 q2 Hs _ _ Hq1.
    unfold handlewginit, bind, gets. cbn.
    destruct (ws_validmac _ _ _ _); cbn; [|done].
    rewrite upgradehsinit_responder.
    by rewrite (hsinit_opened_other_peer _ _ _ _ _ _ _ Hs Hq1).
  - intros p2 q1 Hdense Hq1 Hf Hne.
    unfold handlewgresp, bind, gets, peer_at. cbn.
    destruct (ws_validmac _ _ _ _); cbn; [|done].
    rewrite Hf.
    apply findifnpeerbysessid_Some in Hf as (q2 & Hq2 & _).
    rewrite Hq2, Hq1.
    rewrite (Hdense _ _ Hq1), (Hdense _ _ Hq2).
    rewrite decide_True by lia. done.
Qed.

(** C7 on the deployment: the init of I, whose static key is that of R's
    peer 0, handed in for peer 1; and a response addressed to the session
    of peer 1 handed in for peer 0. *)
Lemma cross_peer_rejected_witness :
  let w := Scenario.wR in
  let w' := set_w_mwr (set_mwr_receiver 101) Scenario.wR in
  handlewginit Toy.prims Scenario.ER (Some 1%nat) None w = (Fail, w) /\
  handlewgresp Toy.prims Scenario.ER (Some 0%nat) None w' = (Fail, w').
Proof.
  intros w w'. split.
  - eapply (proj1 (cross_peer_rejected Toy.prims Scenario.ER None w 1)
              _ _ _ 0%nat).
    + vm_compute. reflexivity.
    + vm_compute. reflexivity.
    + vm_compute. reflexivity.
    + intros q1 Hq1. vm_compute in Hq1. injection Hq1 as <-.
      vm_compute. discriminate.
  - eapply (proj2 (cross_peer_rejected Toy.prims Scenario.ER None w' 0)
              1%nat).
    + intros m p Hp.
      do 3 (destruct m as [|m];
            [vm_compute in Hp; injection Hp as <-; reflexivity|]).
      vm_compute in Hp. discriminate.
    + vm_compute. reflexivity.
    + vm_compute. reflexivity.
    + lia.
Defined.

(** ** Interface and peer ids *)

Lemma handleproxymsg_beyond P E st m :
  pm_ifnid m > ifnvsize st ->
  exists st', handleproxymsg P E (Some m) st = (Fail, st') /\
              ifnv st' = ifnv st /\ sent st' = sent st.
Proof.
  intros H. unfold handleproxymsg, bind, modify, gets, fail, ifnvsize in *. cbn.
  rewrite bool_decide_true by done. eauto.
Qed.

Lemma handleproxymsg_at_size P E st m :
  pm_ifnid m = ifnvsize st ->
  fst (handleproxymsg P E (Some m) st) = Undefined.
Proof.
  intros H. unfold handleproxymsg, bind, modify, gets, ifnvsize in *. cbn.
  rewrite bool_decide_false by lia.
  rewrite lookup_ge_None_2 by lia. done.
Qed.

(** C8, the code at the input that shows the defect.  With one interface
    configured, a proxy message for interface id 1 passes the test
    [ifnid > ifnvsize] and [ifnv[1]] is read behind the one-entry table;
    the message is not rejected with -1. *)
Theorem handleproxymsg_ifnid_equal_ifnvsize P E i mt lsn fsn mwi mwr b_mwi b_mwr l :
  fst (handleproxymsg P E
         (Some {| pm_ifnid := 1; pm_lsn := lsn; pm_fsn := fsn;
                  pm_mtcode := mt; pm_mwi := mwi; pm_mwr := mwr |})
         {| ifnv := [i]; msg_mwi := b_mwi; msg_mwr := b_mwr; sent := l |})
  = Undefined.
Proof. by apply handleproxymsg_at_size. Qed.

Lemma recvconfig_peers_ids P fresh_hs privkey n count :
  forall m s peers s',
    Forall speer_uint32 s ->
    recvconfig_peers P fresh_hs privkey n m count s = (Ok peers, s') ->
    Forall speer_uint32 s' /\
    forall k p, peers !! k = Some p -> p_id p = Z.of_nat (m + k).
Proof.
  induction count as [|count IH]; intros m s peers s' Hs Hrun.
  - cbn in Hrun. unfold ret in Hrun. simplify_eq. split; [done|].
    intros k p Hk. by rewrite lookup_nil in Hk.
  - cbn [recvconfig_peers] in Hrun. unfold bind, wire_recvmsg in Hrun.
    destruct s as [|[msg|] rest]; try done.
    apply Forall_cons in Hs as [Hmsg Hrest].
    destruct msg as [| |sp|]; try done.
    case_decide; [done|]. case_decide as Hid; [done|].
    destruct (recvconfig_peers P fresh_hs privkey n (S m) count rest)
      as [[tl| | |] s1] eqn:Htl; try done.
    unfold ret in Hrun. simplify_eq.
    destruct (IH _ _ _ _ Hrest Htl) as [Hs' Hids]. split; [done|].
    intros [|k] p Hk; simplify_eq/=.
    + cbn in Hmsg.
      assert (sp_peerid sp = Z.of_nat m) as Hm
        by (destruct (decide (sp_peerid sp = Z.of_nat m)); [done|tauto]).
      rewrite Z.mod_small by lia. f_equal. lia.
    + rewrite (Hids _ _ Hk). f_equal. lia.
Qed.

Lemma recvconfig_ifns_ids P fresh_hs count :
  forall n s table s',
    Forall speer_uint32 s ->
    recvconfig_ifns P fresh_hs n count s = (Ok table, s') ->
    forall k i, table !! k = Some i -> ids_dense i.
Proof.
  induction count as [|count IH]; intros n s table s' Hs Hrun.
  - cbn in Hrun. unfold ret in Hrun. simplify_eq.
    intros k i Hk. by rewrite lookup_nil in Hk.
  - cbn [recvconfig_ifns] in Hrun. unfold bind, wire_recvmsg in Hrun.
    destruct s as [|[msg|] rest]; try done.
    apply Forall_cons in Hs as [_ Hrest].
    destruct msg as [|sf| |]; try done.
    case_decide; [done|].
    destruct (recvconfig_peers _ _ _ _ _ _ rest)
      as [[peers| | |] s1] eqn:Hpeers; try done.
    destruct (recvconfig_peers_ids _ _ _ _ _ _ _ _ _ Hrest Hpeers)
      as [Hs1 Hids].
    destruct (recvconfig_ifns P fresh_hs (S n) count s1)
      as [[tl| | |] s2] eqn:Htl; try done.
    unfold ret in Hrun. simplify_eq.
    intros [|k] i Hk; simplify_eq/=.
    + intros m p Hp. cbn in Hp. by rewrite (Hids _ _ Hp).
    + by eapply IH.
Qed.

(** C10. [handleifnmsg] rejects a peer id that is not below the peer count
    of the interface before anything else is done with the message; a
    smaller id selects the peer stored at that index; and in every table
    [recvconfig] builds, the [id] of a peer is its index. *)
Theorem peer_id_is_index P E fresh_hs :
  (forall w m,
     pim_peerid m >= ifn_peerssize (w_ifn w) ->
     exists w', handleifnmsg P E (Some m) w = (Fail, w') /\
                w_ifn w' = w_ifn w /\ w_sent w' = w_sent w) /\
  (forall i peerid,
     0 <= peerid < ifn_peerssize i ->
     findifnpeerbyid i peerid = Some (Z.to_nat peerid) /\
     is_Some (ifn_peers i !! Z.to_nat peerid)) /\
  (forall frames table rest n i m p,
     Forall speer_uint32 frames ->
     recvconfig P fresh_hs frames = (Ok table, rest) ->
     table !! n = Some i -> ifn_peers i !! m = Some p ->
     p_id p = Z.of_nat m).
Proof.
  split; [|split].
  - intros w m H.
    unfold handleifnmsg, bind, modify, gets, fail, findifnpeerbyid. cbn.
    rewrite bool_decide_true by done. eauto.
  - intros i peerid H. unfold findifnpeerbyid, ifn_peerssize in *.
    rewrite bool_decide_false by lia. split; [done|].
    apply lookup_lt_is_Some_2. lia.
  - intros frames table rest n i m p Hf Hrun Hi Hp.
    unfold recvconfig, bind, wire_recvmsg in Hrun.
    destruct frames as [|[msg|] fr]; try done.
    apply Forall_cons in Hf as [_ Hfr].
    destruct msg as [si| | |]; try done.
    destruct (recvconfig_ifns P fresh_hs 0 _ fr)
      as [[tbl| | |] s1] eqn:Htbl; try done.
    destruct s1 as [|[msg|] s2]; try done.
    destruct msg; try done. unfold ret in Hrun. simplify_eq.
    by eapply (recvconfig_ifns_ids _ _ _ _ _ _ _ Hfr Htbl).
Qed.

(** C10 on the deployment: R's table as configured, peer ids 3 and 2. *)
Lemma peer_id_is_index_witness :
  (exists w', handleifnmsg Toy.prims Scenario.ER
                (Some {| pim_peerid := 3; pim_mtcode := MSGWGINIT;
                         pim_mwi := Scenario.init_msg;
                         pim_mwr := Scenario.mwr0 |}) Scenario.wR
              = (Fail, w') /\
              w_ifn w' = w_ifn Scenario.wR /\
              w_sent w' = w_sent Scenario.wR) /\
  findifnpeerbyid Scenario.R_ifn 2 = Some 2%nat /\
  (exists p, ifn_peers Scenario.R_ifn !! 2%nat = Some p /\ p_id p = 2).
Proof.
  pose proof (peer_id_is_index Toy.prims Scenario.ER Scenario.fresh_hs)
    as (Hrej & Hfind & Hids).
  split; [|split].
  - apply Hrej. vm_compute. discriminate.
  - apply (Hfind Scenario.R_ifn 2). vm_compute. split; [discriminate|reflexivity].
  - destruct (proj2 (Hfind Scenario.R_ifn 2
      ltac:(vm_compute; split; [discriminate|reflexivity]))) as [p Hp].
    exists p. split; [exact Hp|].
    eapply (Hids Scenario.R_frames _ _ 0%nat Scenario.R_ifn 2%nat p).
    + repeat (apply Forall_cons; split;
              [first [exact I | cbv; split; [discriminate|reflexivity]]|]).
      constructor.
    + vm_compute. reflexivity.
    + vm_compute. reflexivity.
    + exact Hp.
Defined.

(** ** Failing calls *)

(** Case analysis along the branches of a routine. *)
Ltac run_step :=
  match goal with
  | |- context [match ?x with _ => _ end] =>
    is_var x; destruct x; cbn in *
  | |- context [match ?x with _ => _ end] =>
    lazymatch x with
    | context [match _ with _ => _ end] => fail
    | _ => destruct x eqn:?; cbn in *
    end
  end.

Lemma upgradehsinit_initiator_fail P E peer w :
  fst (upgradehsinit P E peer false w) = Fail ->
  w_ifn (snd (upgradehsinit P E peer false w)) = w_ifn w.
Proof.
  unfold upgradehsinit.
  unfold bind, gets, try, ret, fail, undefined, deref, modify, peer_at, modify_peer.
  cbn.
  repeat (run_step; try done).
Qed.

Lemma upgradehsinit_responder_fail P E peer w :
  fst (upgradehsinit P E peer true w) = Fail ->
  snd (upgradehsinit P E peer true w) = w.
Proof.
  rewrite upgradehsinit_responder. repeat (run_step; try done).
Qed.

Lemma upgradehsresp_fail P n responder w :
  fst (upgradehsresp P n responder w) = Fail ->
  w_ifn (snd (upgradehsresp P n responder w)) = w_ifn w.
Proof.
  unfold upgradehsresp.
  unfold bind, gets, try, ret, fail, modify, peer_at, modify_peer.
  cbn.
  repeat (run_step; try done).
Qed.

Lemma upgradehsresp_initiator_fail P n w :
  fst (upgradehsresp P n false w) = Fail ->
  snd (upgradehsresp P n false w) = w.
Proof.
  unfold upgradehsresp.
  unfold bind, gets, try, ret, fail, modify, peer_at, modify_peer.
  cbn.
  repeat (run_step; try done).
Qed.

Lemma handlewginit_fail_early P E peer addrs w :
  ws_validmac P (mwi_mac1 (w_mwi w)) (mwi_prefix (w_mwi w))
              (ifn_mac1key (w_ifn w)) = false \/
  fst (upgradehsinit P E peer true w) = Fail ->
  handlewginit P E peer addrs w = (Fail, w).
Proof.
  intros [Hmac|Hup]; [by apply handlewginit_invalid_mac|].
  unfold handlewginit, bind, gets. cbn.
  destruct (ws_validmac _ _ _ _); cbn; [|done].
  pose proof (upgradehsinit_responder_fail P E peer w Hup) as Hw.
  destruct (upgradehsinit P E peer true w) as [r w']. cbn in *. by subst.
Qed.


Lemma handlewgresp_fail P E peer addrs w :
  (forall mt, e_send E mt = true) ->
  fst (handlewgresp P E peer addrs w) = Fail ->
  snd (handlewgresp P E peer addrs w) = w.
Proof.
  intros Hsend.
  unfold handlewgresp, wire_sendpeeridmsg.
  unfold bind, gets, try, ret, fail, exit, modify, peer_at, modify_peer.
  cbn. rewrite !Hsend.
  destruct (ws_validmac _ _ _ _); cbn; [|done].
  destruct (findifnpeerbysessid _ _) as [n|]; cbn; [|done].
  destruct (ifn_peers (w_ifn w) !! n) as [p|] eqn:Hp; cbn; [|done].
  pose proof (upgradehsresp_initiator_fail P n w) as Hup.
  destruct peer as [q|]; cbn.
  - destruct (ifn_peers (w_ifn w) !! q) as [q1|]; cbn; [|done].
    case_decide; cbn; [done|].
    destruct (upgradehsresp P n false w) as [[[]| | |] w1]; cbn in *;
      try done.
    repeat (run_step; try done).
  - destruct (upgradehsresp P n false w) as [[[]| | |] w1]; cbn in *;
      try done.
    repeat (run_step; try done).
Qed.

Lemma upgradehsinit_sent P E peer responder w :
  w_sent (snd (upgradehsinit P E peer responder w)) = w_sent w.
Proof.
  unfold upgradehsinit.
  unfold bind, gets, try, ret, fail, undefined, deref, modify, peer_at, modify_peer.
  destruct responder; cbn; repeat (run_step; try done).
Qed.

Lemma upgradehsresp_sent P n responder w :
  w_sent (snd (upgradehsresp P n responder w)) = w_sent w.
Proof.
  unfold upgradehsresp.
  unfold bind, gets, try, ret, fail, modify, peer_at, modify_peer.
  destruct responder; cbn; repeat (run_step; try done).
Qed.

Lemma createhsresp_sent P E n w :
  w_sent (snd (createhsresp P E n w)) = w_sent w.
Proof.
  unfold createhsresp.
  unfold bind at 1 2 3 4 5 6 7 8 9.
  unfold gets, modify, peer_at, modify_peer. cbn.
  destruct (ifn_peers (w_ifn w) !! n) as [p|]; cbn; [|done].
  unfold bind at 1.
  match goal with |- context [upgradehsresp P n true ?w0] =>
    pose proof (upgradehsresp_sent P n true w0) as Hs;
    destruct (upgradehsresp P n true w0) as [[[]| | |] w1] end;
    cbn in *; try done.
  unfold bind, gets, try, ret, fail, modify, peer_at.
  repeat (run_step; try done).
Qed.

Lemma createhsinit_sent P E n w :
  w_sent (snd (createhsinit P E n w)) = w_sent w.
Proof.
  unfold createhsinit.
  unfold bind at 1 2 3 4 5 6 7.
  unfold gets, modify, peer_at, modify_peer, try. cbn.
  destruct (ifn_peers (w_ifn w) !! n) as [p|]; cbn; [|done].
  destruct (e_now E) as [now|]; cbn; [|done].
  unfold bind at 1. cbn.
  unfold bind at 1.
  match goal with |- context [upgradehsinit P E ?pp false ?w0] =>
    pose proof (upgradehsinit_sent P E pp false w0) as Hs;
    destruct (upgradehsinit P E pp false w0) as [[?| | |] w1] end;
    cbn in *; try done.
  unfold bind, gets, try, ret, fail, modify, peer_at.
  repeat (run_step; try done).
Qed.

(** C2, as the code has it.  A failing [upgradehsinit] or [upgradehsresp]
    leaves the chaining key, the hash and [recvts] of every peer as they
    were, and so does a [handlewginit] that fails at the MAC1 test or in
    [upgradehsinit], and a [handlewgresp] that fails while its sends go
    through (MAC1, unknown session, other peer, [upgradehsresp]). *)
Theorem failed_authentication_commits_nothing P E w :
  (forall peer responder,
     let r := upgradehsinit P E peer responder w in
     fst r = Fail -> persistent (w_ifn (snd r)) = persistent (w_ifn w)) /\
  (forall n responder,
     let r := upgradehsresp P n responder w in
     fst r = Fail -> persistent (w_ifn (snd r)) = persistent (w_ifn w)) /\
  (forall peer addrs,
     let r := handlewginit P E peer addrs w in
     ws_validmac P (mwi_mac1 (w_mwi w)) (mwi_prefix (w_mwi w))
                 (ifn_mac1key (w_ifn w)) = false \/
     fst (upgradehsinit P E peer true w) = Fail ->
     fst r = Fail /\ persistent (w_ifn (snd r)) = persistent (w_ifn w)) /\
  (forall peer addrs,
     let r := handlewgresp P E peer addrs w in
     (forall mt, e_send E mt = true) ->
     fst r = Fail -> persistent (w_ifn (snd r)) = persistent (w_ifn w)).
Proof.
  split; [|split; [|split]].
  - intros peer [|] r Hr; subst r.
    + by rewrite upgradehsinit_responder_fail.
    + by rewrite upgradehsinit_initiator_fail.
  - intros n responder r Hr. subst r. by rewrite upgradehsresp_fail.
  - intros peer addrs r Hr. subst r. by rewrite handlewginit_fail_early.
  - intros peer addrs r Hsend Hr. subst r. by rewrite handlewgresp_fail.
Qed.

(** C2 on the deployment: the init of I replayed at R, and a response of
    zero bytes at I. *)
Lemma failed_authentication_commits_nothing_witness :
  (let r := upgradehsinit Toy.prims Scenario.ER None true Scenario.wR1 in
   fst r = Fail /\
   persistent (w_ifn (snd r)) = persistent (w_ifn Scenario.wR1)) /\
  (let r := upgradehsresp Toy.prims 0 false Scenario.wI1 in
   fst r = Fail /\
   persistent (w_ifn (snd r)) = persistent (w_ifn Scenario.wI1)) /\
  (let r := handlewginit Toy.prims Scenario.ER None None Scenario.wR1 in
   fst r = Fail /\
   persistent (w_ifn (snd r)) = persistent (w_ifn Scenario.wR1)) /\
  (let r := handlewgresp Toy.prims Scenario.EI None None Scenario.wI1 in
   fst r = Fail /\
   persistent (w_ifn (snd r)) = persistent (w_ifn Scenario.wI1)).
Proof.
  assert (Hreplay : fst (upgradehsinit Toy.prims Scenario.ER None true
                           Scenario.wR1) = Fail)
    by (vm_compute; reflexivity).
  assert (Hzero : fst (upgradehsresp Toy.prims 0 false Scenario.wI1) = Fail)
    by (vm_compute; reflexivity).
  assert (Hmac : fst (handlewgresp Toy.prims Scenario.EI None None
                        Scenario.wI1) = Fail)
    by (vm_compute; reflexivity).
  pose proof (failed_authentication_commits_nothing Toy.prims Scenario.ER
                Scenario.wR1) as (Hinit & _ & Hhandle & _).
  pose proof (failed_authentication_commits_nothing Toy.prims Scenario.EI
                Scenario.wI1) as (_ & Hresp & _ & Hhresp).
  split; [|split; [|split]].
  - split; [exact Hreplay|]. exact (Hinit None true Hreplay).
  - split; [exact Hzero|]. exact (Hresp 0%nat false Hzero).
  - exact (Hhandle None None (or_intror Hreplay)).
  - split; [exact Hmac|]. exact (Hhresp None None (fun _ => eq_refl) Hmac).
Defined.

(** C2 as stated fails for [handlewginit].  R has a peer configured with
    the all-zero public key; the forged init for that peer authenticates,
    [upgradehsinit] commits, and then the Diffie-Hellman with the peer's
    static key in [createhsresp] yields all zero: [handlewginit] returns -1
    with [recvts], chaining key and hash of the peer changed. *)
Lemma handlewginit_fails_after_commit :
  let r := handlewginit Toy.prims Scenario.ER None None Scenario.wRz in
  let u := upgradehsinit Toy.prims Scenario.ER None true Scenario.wRz in
  fst u = Ok 2%nat /\
  p_pubkey <$> ifn_peers (w_ifn Scenario.wRz) !! 2%nat = Some (zeros 32) /\
  dh Toy.prims (e_keypair Scenario.ER) (zeros 32) = None /\
  fst (createhsresp Toy.prims Scenario.ER 2 (snd u)) = Fail /\
  fst r = Fail /\
  persistent (w_ifn (snd r)) <> persistent (w_ifn Scenario.wRz).
Proof.
  cbv zeta. split; [vm_compute; reflexivity|].
  split; [vm_compute; reflexivity|].
  split; [vm_compute; reflexivity|].
  split; [vm_compute; reflexivity|].
  split; [vm_compute; reflexivity|].
  vm_compute. discriminate.
Defined.

(** ** Sends that fail *)

(** Case analysis along the branches of a run recorded in [H]. *)
Ltac run_step_in H :=
  match type of H with
  | context [match ?x with _ => _ end] =>
    lazymatch x with
    | context [match _ with _ => _ end] => fail
    | _ => destruct x eqn:?; cbn in H
    end
  end.

Ltac close_sends Hok :=
  unfold fail, ret, exit, undefined in *; simplify_eq; try done;
  try (let Hn := fresh in
       intros Hn; exfalso; apply Hn; unfold sends_ok in *; cbn;
       rewrite ?Forall_app; repeat split; try exact Hok;
       repeat constructor; done).

Lemma handlewginit_send_failure P E peer addrs w :
  sends_ok (w_sent w) ->
  ~ sends_ok (w_sent (snd (handlewginit P E peer addrs w))) ->
  fst (handlewginit P E peer addrs w) = Fail.
Proof.
  intros Hok.
  destruct (handlewginit P E peer addrs w) as [r w'] eqn:H. cbn [fst snd].
  unfold handlewginit in H.
  unfold bind at 1 2 in H. unfold gets in H. cbn in H.
  destruct (ws_validmac _ _ _ _); cbn in H; [|close_sends Hok].
  unfold bind at 1 in H.
  pose proof (upgradehsinit_sent P E peer true w) as Hs1.
  destruct (upgradehsinit P E peer true w) as [[n| | |] w1]; cbn in *;
    rewrite <- Hs1 in Hok; try close_sends Hok.
  unfold bind at 1 in H.
  pose proof (createhsresp_sent P E n w1) as Hs2.
  destruct (createhsresp P E n w1) as [[[]| | |] w2]; cbn in *;
    rewrite <- Hs2 in Hok; try close_sends Hok.
  unfold wire_sendpeeridmsg in H.
  unfold bind, gets, ret, fail, exit, modify, peer_at in H. cbn in H.
  repeat (run_step_in H; try close_sends Hok).
Qed.

Lemma handlewgresp_send_failure P E peer addrs w :
  sends_ok (w_sent w) ->
  ~ sends_ok (w_sent (snd (handlewgresp P E peer addrs w))) ->
  fst (handlewgresp P E peer addrs w) = Fail.
Proof.
  intros Hok.
  destruct (handlewgresp P E peer addrs w) as [r w'] eqn:H. cbn [fst snd].
  unfold handlewgresp in H.
  unfold bind at 1 2 in H. unfold gets in H. cbn in H.
  destruct (ws_validmac _ _ _ _); cbn in H; [|close_sends Hok].
  destruct (findifnpeerbysessid _ _) as [n|]; [|close_sends Hok].
  unfold bind at 1 in H. unfold peer_at at 1 in H.
  destruct (ifn_peers (w_ifn w) !! n) as [p|]; [|close_sends Hok].
  unfold bind at 1 in H.
  match type of H with
  | context [match ?chk w with _ => _ end] =>
    destruct (chk w) as [rc wc] eqn:Hc
  end.
  assert (wc = w) as ->.
  { destruct peer as [q|]; [|by injection Hc].
    unfold bind, peer_at, fail, ret in Hc.
    repeat (run_step_in Hc; simplify_eq; try done). }
  destruct rc as [[]| | |]; try close_sends Hok.
  unfold bind at 1 in H.
  pose proof (upgradehsresp_sent P n false w) as Hs1.
  destruct (upgradehsresp P n false w) as [[[]| | |] w1]; cbn in *;
    rewrite <- Hs1 in Hok; try close_sends Hok.
  unfold wire_sendpeeridmsg in H.
  unfold bind, gets, ret, fail, exit, modify, modify_peer, peer_at in H.
  cbn in H.
  repeat (run_step_in H; try close_sends Hok).
Qed.

Lemma handleifnmsg_send_failure P E rcv w :
  sends_ok (w_sent w) ->
  ~ sends_ok (w_sent (snd (handleifnmsg P E rcv w))) ->
  fst (handleifnmsg P E rcv w) = Fail.
Proof.
  intros Hok.
  destruct rcv as [m|]; [|done].
  unfold handleifnmsg.
  unfold bind at 1 2 3. unfold modify, gets. cbn.
  destruct (findifnpeerbyid _ _) as [n|]; [|done].
  destruct (pim_mtcode m); try done.
  - by apply handlewginit_send_failure.
  - by apply handlewgresp_send_failure.
  - match goal with |- context [bind (createhsinit P E n) ?k ?w0] =>
      set (w1 := w0); destruct (bind (createhsinit P E n) k w1) as [r w'] eqn:H
    end.
    cbn [fst snd].
    unfold bind at 1 in H.
    pose proof (createhsinit_sent P E n w1) as Hs1.
    destruct (createhsinit P E n w1) as [[[]| | |] w2]; cbn in *;
      rewrite <- Hs1 in Hok; try close_sends Hok.
    unfold wire_sendpeeridmsg in H.
    unfold bind, gets, ret, fail, modify in H. cbn in H.
    repeat (run_step_in H; try close_sends Hok).
Qed.

Lemma ignore_send_failure {S} (m : M S unit) (snt : S -> list sentmsg) s :
  (~ sends_ok (snt (snd (m s))) -> fst (m s) = Fail) ->
  ~ sends_ok (snt (snd (ignore m s))) -> fst (ignore m s) = Ok tt.
Proof.
  unfold ignore. destruct (m s) as [[[]| | |] s']; cbn; intros H Hn;
    try done; by apply H in Hn.
Qed.

Arguments handlewginit : simpl never.
Arguments handlewgresp : simpl never.
Arguments handleifnmsg : simpl never.

Lemma enclave_serv_event_send_failure P E ev st :
  sends_ok (sent st) ->
  ~ sends_ok (sent (snd (enclave_serv_event P E ev st))) ->
  fst (enclave_serv_event P E ev st) = Ok tt.
Proof.
  intros Hok. destruct ev as [[|] rcv|n [|] rcv]; cbn; try done.
  - apply ignore_send_failure.
    destruct rcv as [m|]; [|done].
    unfold handleproxymsg, bind, modify, gets, fail, undefined. cbn.
    case_bool_decide; [done|].
    destruct (ifnv st !! _) as [i|]; [|done].
    destruct (pm_mtcode m); try done.
    + unfold on_ifn. cbn.
      match goal with |- context [handlewginit P E ?a ?b ?w0] =>
        pose proof (handlewginit_send_failure P E a b w0 Hok) as Hh;
        destruct (handlewginit P E a b w0) as [r w'] end.
      done.
    + unfold on_ifn. cbn.
      match goal with |- context [handlewgresp P E ?a ?b ?w0] =>
        pose proof (handlewgresp_send_failure P E a b w0 Hok) as Hh;
        destruct (handlewgresp P E a b w0) as [r w'] end.
      done.
  - unfold bind, gets. cbn.
    destruct (ifnv st !! n) as [i|]; [|done].
    apply ignore_send_failure.
    unfold on_ifn.
    match goal with |- context [handleifnmsg P E ?a ?w0] =>
      pose proof (handleifnmsg_send_failure P E a w0 Hok) as Hh;
      destruct (handleifnmsg P E a w0) as [r w'] end.
    done.
Qed.

(** C9, as the code has it.  A send to the sibling that fails makes the
    handler return -1, and [enclave_serv] goes on with the next event: a
    send error does not end the process. *)
Theorem send_failure_returns P E :
  (forall w,
     sends_ok (w_sent w) ->
     (forall peer addrs,
        let r := handlewginit P E peer addrs w in
        ~ sends_ok (w_sent (snd r)) -> fst r = Fail) /\
     (forall peer addrs,
        let r := handlewgresp P E peer addrs w in
        ~ sends_ok (w_sent (snd r)) -> fst r = Fail) /\
     (forall rcv,
        let r := handleifnmsg P E rcv w in
        ~ sends_ok (w_sent (snd r)) -> fst r = Fail)) /\
  (forall st ev,
     sends_ok (sent st) ->
     let r := enclave_serv_event P E ev st in
     ~ sends_ok (sent (snd r)) -> fst r = Ok tt).
Proof.
  split.
  - intros w Hok. split; [|split]; intros.
    + by apply handlewginit_send_failure.
    + by apply handlewgresp_send_failure.
    + by apply handleifnmsg_send_failure.
  - intros st ev Hok r. by apply enclave_serv_event_send_failure.
Qed.

(** C9 as stated fails.  The init of I reaches R through the proxy while
    the descriptor of the interface process is broken: the first reply,
    MSGCONNREQ, cannot be sent, [handlewginit] returns -1 and the event
    loop carries on. *)
Lemma send_failure_does_not_exit :
  let r := handlewginit Toy.prims Scenario.ER_down None (Some ([], []))
             Scenario.wR in
  let ev := EvProxy false
              (Some {| pm_ifnid := 0; pm_lsn := []; pm_fsn := [];
                       pm_mtcode := MSGWGINIT;
                       pm_mwi := Scenario.init_msg;
                       pm_mwr := Scenario.mwr0 |}) in
  let s := enclave_serv_event Toy.prims Scenario.ER_down ev
             (Scenario.blank_enclave [Scenario.R_ifn]) in
  map (fun m => (sent_mtcode m, sent_result m)) (w_sent (snd r))
    = [(MSGCONNREQ, -1)] /\
  fst r = Fail /\ fst r <> Exit /\
  map (fun m => (sent_mtcode m, sent_result m)) (sent (snd s))
    = [(MSGCONNREQ, -1)] /\
  fst s = Ok tt.
Proof.
  cbv zeta. split; [vm_compute; reflexivity|].
  split; [vm_compute; reflexivity|].
  split; [vm_compute; discriminate|].
  split; vm_compute; reflexivity.
Defined.

(** C9 on the deployment, with the same broken descriptor. *)
Lemma send_failure_returns_witness :
  fst (handlewginit Toy.prims Scenario.ER_down None (Some ([], []))
         Scenario.wR) = Fail /\
  fst (enclave_serv_event Toy.prims Scenario.ER_down
         (EvProxy false
            (Some {| pm_ifnid := 0; pm_lsn := []; pm_fsn := [];
                     pm_mtcode := MSGWGINIT;
                     pm_mwi := Scenario.init_msg;
                     pm_mwr := Scenario.mwr0 |}))
         (Scenario.blank_enclave [Scenario.R_ifn])) = Ok tt.
Proof.
  pose proof (send_failure_returns Toy.prims Scenario.ER_down)
    as [Hhandlers Hloop].
  assert (Hfailed : forall l : list sentmsg,
            map (fun m => sent_result m) l = [-1] -> ~ sends_ok l).
  { intros [|m [|? ?]] Hl Hok; try discriminate.
    apply Forall_cons in Hok as [Hm _]. injection Hl as Hl. congruence. }
  split.
  - apply (proj1 (Hhandlers Scenario.wR ltac:(constructor))).
    apply Hfailed. vm_compute. reflexivity.
  - apply (Hloop (Scenario.blank_enclave [Scenario.R_ifn]) _
             ltac:(constructor)).
    apply Hfailed. vm_compute. reflexivity.
Defined.

(** ** The two sides of a handshake *)

Lemma dh_Some P a b k : dh P a b = Some k -> k = X25519 P a b.
Proof. unfold dh. case_decide; congruence. Qed.

Lemma dh_comm P (OK : primitives_ok P) a b :
  dh P a (X25519_public P b) = dh P b (X25519_public P a).
Proof. unfold dh. by rewrite (X25519_comm P OK a b). Qed.

(** Rewrite with the equations a case analysis has left behind. *)
Ltac use_eqs :=
  repeat match goal with
         | Heq : ?x = Some _ |- context [?x] => rewrite Heq; cbn
         end.

Lemma upgradehsresp_Ok P n responder w w' :
  upgradehsresp P n responder w = (Ok tt, w') ->
  exists p tmpc tau k,
    ifn_peers (w_ifn w) !! n = Some p /\
    hsresp_chain P (hs_c (p_hs p)) (mwr_ephemeral (w_mwr w))
      (if responder then dh P (hs_epriv (p_hs p)) (hs_epubi (p_hs p))
       else dh P (hs_epriv (p_hs p)) (mwr_ephemeral (w_mwr w)))
      (if responder then dh P (hs_epriv (p_hs p)) (p_pubkey p)
       else dh P (ifn_privkey (w_ifn w)) (mwr_ephemeral (w_mwr w)))
      (p_psk p) = Some (tmpc, tau, k) /\
    ifn_peers (w_ifn w') !! n
      = Some (set_p_hs (set_hs_c (take KEYLEN tmpc)) p) /\
    mwr_ephemeral (w_mwr w') = mwr_ephemeral (w_mwr w).
Proof.
  intros H. unfold upgradehsresp in H.
  unfold modify_peer in H.
  unfold bind, gets, try, ret, fail, modify, peer_at in H.
  cbn in H.
  destruct responder; repeat (run_step_in H; try done); simplify_eq;
    eexists _, _, _, _; (split; [done|]); unfold hsresp_chain; use_eqs;
    (split; [done|]); cbn;
    match goal with Hp : _ !! n = Some _ |- _ =>
      rewrite list_lookup_alter_eq, Hp end; done.
Qed.

Lemma createhsresp_Ok P E n w w' :
  createhsresp P E n w = (Ok tt, w') ->
  exists p p' tmpc tau k,
    ifn_peers (w_ifn w) !! n = Some p /\
    hsresp_chain P (hs_c (p_hs p)) (X25519_public P (e_keypair E))
      (dh P (e_keypair E) (hs_epubi (p_hs p)))
      (dh P (e_keypair E) (p_pubkey p))
      (p_psk p) = Some (tmpc, tau, k) /\
    mwr_ephemeral (w_mwr w') = X25519_public P (e_keypair E) /\
    ifn_peers (w_ifn w') !! n = Some p' /\
    hs_c (p_hs p') = take KEYLEN tmpc /\
    hs_h (p_hs p') = hs_h (p_hs p).
Proof.
  intros H. unfold createhsresp in H.
  unfold bind at 1 2 3 4 5 6 7 8 9 in H.
  unfold modify_peer in H. unfold gets, modify, peer_at in H. cbn in H.
  destruct (ifn_peers (w_ifn w) !! n) as [p|] eqn:Hp; cbn in H; [|done].
  unfold bind at 1 in H.
  match type of H with context [upgradehsresp P n true ?w0] =>
    destruct (upgradehsresp P n true w0) as [[[]| | |] w1] eqn:Hup end;
    try done.
  apply upgradehsresp_Ok in Hup
    as (p1 & tmpc & tau & k & Hp1 & Hchain & Hp1' & Heph).
  cbn in Hp1, Hchain, Heph.
  rewrite !list_lookup_alter_eq, Hp in Hp1. cbn in Hp1. simplify_eq.
  cbn in Hchain.
  unfold bind, gets, try, ret, fail, modify, peer_at in H. cbn in H.
  rewrite Hp1' in H. cbn in H.
  repeat (run_step_in H; try done). simplify_eq. cbn.
  eexists _, _, _, _, _. split; [done|]. split; [exact Hchain|].
  split; [done|]. split; [exact Hp1'|]. done.
Qed.


(** C4. When the handshake states of responder and initiator agree after
    the init exchange (same chaining key and hash, the responder holding
    the initiator's ephemeral public key) and the two are configured for
    each other, [createhsresp] on the responder followed by a successful
    [upgradehsresp] of the produced MsgResp on the initiator leaves both
    with the same chaining key and the same hash. *)
Theorem response_roundtrip P ER wR wI nR nI pR pI wR' wI' :
  primitives_ok P ->
  ifn_peers (w_ifn wR) !! nR = Some pR ->
  ifn_peers (w_ifn wI) !! nI = Some pI ->
  hs_c (p_hs pR) = hs_c (p_hs pI) ->
  hs_h (p_hs pR) = hs_h (p_hs pI) ->
  hs_epubi (p_hs pR) = X25519_public P (hs_epriv (p_hs pI)) ->
  p_pubkey pR = X25519_public P (ifn_privkey (w_ifn wI)) ->
  p_psk pR = p_psk pI ->
  createhsresp P ER nR wR = (Ok tt, wR') ->
  upgradehsresp P nI false (set_w_mwr (fun _ => w_mwr wR') wI) = (Ok tt, wI') ->
  exists pR' pI',
    ifn_peers (w_ifn wR') !! nR = Some pR' /\
    ifn_peers (w_ifn wI') !! nI = Some pI' /\
    hs_c (p_hs pR') = hs_c (p_hs pI') /\
    hs_h (p_hs pR') = hs_h (p_hs pI').
Proof.
  intros OK HpR HpI Hc Hh Hepubi Hpub Hpsk Hcreate Hconsume.
  apply createhsresp_Ok in Hcreate
    as (p & pR' & tmpcR & tauR & kR & Hp & HchainR & Heph & HpR' & HcR & HhR).
  apply upgradehsresp_Ok in Hconsume
    as (p0 & tmpcI & tauI & kI & Hp0 & HchainI & HpI' & _).
  cbn in Hp0, HchainI. simplify_eq.
  rewrite Heph in HchainI.
  rewrite !(dh_comm P OK _ (e_keypair ER)) in HchainI.
  rewrite <- Hepubi, <- Hpub, <- Hc, <- Hpsk in HchainI.
  rewrite HchainR in HchainI. simplify_eq.
  eexists _, _. split; [done|]. split; [done|]. cbn.
  split; [done|]. congruence.
Qed.

(** C4 on the deployment: R answers the init of I. *)
Lemma response_roundtrip_witness :
  exists pR' pI',
    ifn_peers (w_ifn Scenario.wR2) !! 0%nat = Some pR' /\
    ifn_peers (w_ifn Scenario.wI2) !! 0%nat = Some pI' /\
    hs_c (p_hs pR') = hs_c (p_hs pI') /\
    hs_h (p_hs pR') = hs_h (p_hs pI').
Proof.
  eapply (response_roundtrip Toy.prims Scenario.ER Scenario.wR1 Scenario.wI1
            0 0 _ _ Scenario.wR2 Scenario.wI2 toy_prims_ok).
  - vm_compute. reflexivity.
  - vm_compute. reflexivity.
  - vm_compute. reflexivity.
  - vm_compute. reflexivity.
  - vm_compute. reflexivity.
  - vm_compute. reflexivity.
  - vm_compute. reflexivity.
  - vm_compute. reflexivity.
  - vm_compute. reflexivity.
Defined.

Lemma upgradehsinit_initiator_Ok P E n w m w' :
  upgradehsinit P E (Some n) false w = (Ok m, w') ->
  exists p stat ts tmpc tmph,
    m = n /\
    ifn_peers (w_ifn w) !! n = Some p /\
    hsinit_sealed P (ifn_pubkey (w_ifn w)) p (w_mwi w)
      = Some (stat, ts, tmpc, tmph) /\
    w_mwi w' = set_mwi_timestamp ts (set_mwi_stat stat (w_mwi w)) /\
    ifn_peers (w_ifn w') !! n
      = Some (set_p_hs (set_hs_h (take HASHLEN tmph))
               (set_p_hs (set_hs_c (take KEYLEN tmpc)) p)).
Proof.
  intros H. unfold upgradehsinit in H.
  unfold modify_peer, deref in H.
  unfold bind, gets, try, ret, fail, modify, peer_at in H.
  cbn in H.
  repeat (run_step_in H; try done); simplify_eq.
  eexists _, _, _, _, _. split; [done|]. split; [done|].
  unfold hsinit_sealed. use_eqs. split; [done|]. split; [done|]. cbn.
  match goal with Hp : _ !! _ = Some _ |- _ =>
    rewrite !list_lookup_alter_eq, Hp end. done.
Qed.

Lemma createhsinit_Ok P E n w w' :
  createhsinit P E n w = (Ok tt, w') ->
  exists p now stat ts tmpc tmph p',
    ifn_peers (w_ifn w) !! n = Some p /\
    e_now E = Some now /\
    hsinit_sealed P (ifn_pubkey (w_ifn w))
      (set_p_hs (set_hs_epriv (e_keypair E))
         (set_p_hs (set_hs_sessid (e_arc4random E)) p))
      (set_mwi_timestamp (take 12 now ++ drop 12 (mwi_timestamp (w_mwi w)))
         (set_mwi_ephemeral (X25519_public P (e_keypair E))
            (set_mwi_sender (e_arc4random E) (set_mwi_type 1 (w_mwi w)))))
      = Some (stat, ts, tmpc, tmph) /\
    mwi_ephemeral (w_mwi w') = X25519_public P (e_keypair E) /\
    mwi_stat (w_mwi w') = stat /\
    mwi_timestamp (w_mwi w') = ts /\
    ifn_peers (w_ifn w') !! n = Some p' /\
    hs_c (p_hs p') = take KEYLEN tmpc /\
    hs_h (p_hs p') = take HASHLEN tmph.
Proof.
  intros H. unfold createhsinit in H.
  unfold bind at 1 2 3 4 5 6 7 in H.
  unfold modify_peer in H. unfold gets, modify, peer_at, try in H. cbn in H.
  destruct (ifn_peers (w_ifn w) !! n) as [p|] eqn:Hp; cbn in H; [|done].
  destruct (e_now E) as [now|] eqn:Hnow; cbn in H; [|done].
  unfold bind at 1 in H. cbn in H. unfold bind at 1 in H.
  match type of H with context [upgradehsinit P E ?pp false ?w0] =>
    destruct (upgradehsinit P E pp false w0) as [[m| | |] w1] eqn:Hup end;
    try done.
  apply upgradehsinit_initiator_Ok in Hup
    as (p1 & stat & ts & tmpc & tmph & -> & Hp1 & Hsealed & Hmwi & Hp1').
  cbn in Hp1, Hsealed, Hmwi.
  rewrite !list_lookup_alter_eq, Hp in Hp1. cbn in Hp1. simplify_eq.
  unfold bind, gets, try, ret, fail, modify, peer_at in H. cbn in H.
  rewrite Hp1' in H. cbn in H.
  repeat (run_step_in H; try done). simplify_eq. cbn.
  eexists _, _, _, _, _, _, _. split; [done|]. split; [done|].
  split; [exact Hsealed|]. rewrite Hmwi. cbn.
  split; [done|]. split; [done|]. split; [done|]. split; [exact Hp1'|]. done.
Qed.

Lemma take_32_eq (a b : list byte) :
  length a = 32%nat -> length b = 32%nat -> take 32 a = take 32 b -> a = b.
Proof. intros Ha Hb. rewrite !take_ge by lia. done. Qed.

(** What the initiator sealed, the responder opens, and both arrive at the
    same chaining key and hash. *)
Lemma sealed_opened P (OK : primitives_ok P) iR pI sprivI mwi mwi'
    stat ts tmpcI tmphI peer n tmpcR tmphR plain :
  hsinit_sealed P (X25519_public P sprivI) pI mwi
    = Some (stat, ts, tmpcI, tmphI) ->
  mwi_ephemeral mwi = X25519_public P (hs_epriv (p_hs pI)) ->
  mwi_ephemeral mwi' = mwi_ephemeral mwi ->
  mwi_stat mwi' = stat -> mwi_timestamp mwi' = ts ->
  p_pubkey pI = X25519_public P (ifn_privkey iR) ->
  p_pubkeyhash pI = ifn_pubkeyhash iR ->
  length (X25519_public P sprivI) = 32%nat ->
  p_dhsecret pI = X25519 P sprivI (p_pubkey pI) ->
  (forall m q, ifn_peers iR !! m = Some q ->
     p_dhsecret q = X25519 P (ifn_privkey iR) (p_pubkey q) /\
     length (p_pubkey q) = 32%nat) ->
  hsinit_opened P iR mwi' peer = Some (n, tmpcR, tmphR, plain) ->
  tmpcR = tmpcI /\ tmphR = tmphI.
Proof.
  intros Hsealed Heph Heph' Hstat Hts Hpub Hhash Hlen Hdh Hcfg Hopened.
  unfold hsinit_sealed in Hsealed.
  unfold hsinit_opened, hsinit_static in Hopened.
  assert (Hee : dh P (ifn_privkey iR) (mwi_ephemeral mwi)
                = dh P (hs_epriv (p_hs pI)) (p_pubkey pI)).
  { rewrite Heph, Hpub. apply (dh_comm P OK). }
  rewrite Heph', <- Hhash, Hee in Hopened. clear Hee.
  unfold aead in Hsealed, Hopened.
  destruct (kdf1 P _ _) as [c1|]; cbn in *; [|done].
  destruct (dh P _ _) as [k1|]; cbn in *; [|done].
  destruct (kdfn2 P (Some k1) c1) as [[c2 k2]|]; cbn in *; [|done].
  destruct (aead_seal P k2 _ _) as [stat0|] eqn:Hseal; cbn in *; [|done].
  apply (aead_open_seal P OK) in Hseal.
  destruct (kdfn2 P (Some (p_dhsecret pI)) c2) as [[c3 k3]|] eqn:Hk;
    cbn in *; [|done].
  destruct (aead_seal P k3 _ _) as [ts0|]; cbn in *; [|done].
  simplify_eq. rewrite Hseal in Hopened. cbn in Hopened.
  destruct (findifnpeerbypubkey iR _) as [n0|] eqn:Hf; cbn in *; [|done].
  apply findifnpeerbypubkey_Some in Hf as (q & Hq & Hm & _).
  case_decide; [|done]. rewrite Hq in Hopened. cbn in Hopened.
  destruct (Hcfg _ _ Hq) as [Hqdh Hqlen].
  apply memcmp_eq_0 in Hm. rewrite take_idemp in Hm.
  apply take_32_eq in Hm; [|done..].
  assert (Hsame : p_dhsecret q = p_dhsecret pI).
  { rewrite Hqdh, Hdh, Hm, Hpub. apply (X25519_comm P OK). }
  rewrite Hsame, Hk in Hopened. cbn in Hopened.
  destruct (aead_open P k3 _ _); cbn in *; [|done].
  by simplify_eq.
Qed.

(** C3. For an initiator and a responder configured for each other,
    [createhsinit] on the initiator followed by a successful responder-side
    [upgradehsinit] of the produced MsgInit leaves the two handshake states
    with the same chaining key and the same hash. *)
Theorem init_roundtrip P EI ER wI wR nI pI peer n wI' wR' :
  primitives_ok P ->
  ifn_peers (w_ifn wI) !! nI = Some pI ->
  ifn_pubkey (w_ifn wI) = X25519_public P (ifn_privkey (w_ifn wI)) ->
  length (ifn_pubkey (w_ifn wI)) = 32%nat ->
  p_pubkey pI = X25519_public P (ifn_privkey (w_ifn wR)) ->
  p_pubkeyhash pI = ifn_pubkeyhash (w_ifn wR) ->
  p_dhsecret pI = X25519 P (ifn_privkey (w_ifn wI)) (p_pubkey pI) ->
  (forall m q, ifn_peers (w_ifn wR) !! m = Some q ->
     p_dhsecret q = X25519 P (ifn_privkey (w_ifn wR)) (p_pubkey q) /\
     length (p_pubkey q) = 32%nat) ->
  createhsinit P EI nI wI = (Ok tt, wI') ->
  upgradehsinit P ER peer true (set_w_mwi (fun _ => w_mwi wI') wR)
    = (Ok n, wR') ->
  exists pI' pR',
    ifn_peers (w_ifn wI') !! nI = Some pI' /\
    ifn_peers (w_ifn wR') !! n = Some pR' /\
    hs_c (p_hs pI') = hs_c (p_hs pR') /\
    hs_h (p_hs pI') = hs_h (p_hs pR').
Proof.
  intros OK HpI Hspub Hlen Hpub Hhash Hdh Hcfg Hcreate Hconsume.
  apply createhsinit_Ok in Hcreate
    as (p & now & stat & ts & tmpcI & tmphI & pI' & Hp & _ & Hsealed
        & Heph & Hstat & Hts & HpI' & HcI & HhI).
  simplify_eq.
  rewrite upgradehsinit_responder in Hconsume. cbn in Hconsume.
  destruct (hsinit_opened P _ _ _) as [[[[n0 tmpcR] tmphR] plain]|] eqn:Hopened;
    [|done].
  destruct (ifn_peers (w_ifn wR) !! n0) as [q|] eqn:Hq; [|done].
  case_bool_decide; [done|]. simplify_eq.
  rewrite Hspub in Hsealed, Hlen.
  destruct (sealed_opened P OK _ _ _ _ _ _ _ _ _ _ _ _ _ _
              Hsealed eq_refl Heph eq_refl eq_refl Hpub Hhash Hlen Hdh
              Hcfg Hopened) as [-> ->].
  eexists _, _. split; [done|].
  split; [by apply hsinit_commit_lookup|]. cbn. by rewrite HcI, HhI.
Qed.

(** C3 on the deployment: I opens a handshake with R. *)
Lemma init_roundtrip_witness :
  exists pI' pR',
    ifn_peers (w_ifn Scenario.wI1) !! 0%nat = Some pI' /\
    ifn_peers (w_ifn Scenario.wR1) !! 0%nat = Some pR' /\
    hs_c (p_hs pI') = hs_c (p_hs pR') /\
    hs_h (p_hs pI') = hs_h (p_hs pR').
Proof.
  eapply (init_roundtrip Toy.prims Scenario.EI Scenario.ER Scenario.wI
            Scenario.wR 0 _ None 0 Scenario.wI1 Scenario.wR1 toy_prims_ok).
  - vm_compute. reflexivity.
  - vm_compute. reflexivity.
  - vm_compute. reflexivity.
  - vm_compute. reflexivity.
  - vm_compute. reflexivity.
  - vm_compute. reflexivity.
  - intros m q Hq.
    do 3 (destruct m as [|m];
          [vm_compute in Hq; injection Hq as <-; split; vm_compute; reflexivity|]).
    vm_compute in Hq. discriminate.
  - vm_compute. reflexivity.
  - vm_compute. reflexivity.
Defined.

(** * Further properties of the code *)

(** ** Key derivation *)





Lemma memcmp_take_eq a b n : take n a = take n b -> memcmp a b n = 0.
Proof.
  revert a b. induction n as [|n IH]; intros a b; [done|].
  destruct a as [|x a], b as [|y b]; try done.
  intros H. simplify_eq/=. change (memcmp (y :: a) (y :: b) (S n))
    with (if decide (y = y) then memcmp a b n else byte_val y - byte_val y).
  rewrite decide_True by done. by apply IH.
Qed.

(** X2. [findifnpeerbypubkey] returns the first peer of the interface
    whose public key agrees with the given key on 32 bytes, and fails
    exactly when no peer does. *)
Theorem findifnpeerbypubkey_first i pubkey :
  match findifnpeerbypubkey i pubkey with
  | Some n =>
    exists p, ifn_peers i !! n = Some p /\
      take 32 (p_pubkey p) = take 32 pubkey /\
      forall m q, (m < n)%nat -> ifn_peers i !! m = Some q ->
                  take 32 (p_pubkey q) <> take 32 pubkey
  | None =>
    forall m q, ifn_peers i !! m = Some q ->
                take 32 (p_pubkey q) <> take 32 pubkey
  end.
Proof.
  unfold findifnpeerbypubkey.
  destruct (list_find _ _) as [[n p]|] eqn:Hf; cbn.
  - apply list_find_Some in Hf as (Hl & Hp & Hmin).
    exists p. split; [done|]. split; [by apply memcmp_eq_0|].
    intros m q Hm Hq Heq. apply (Hmin m q Hq Hm). by apply memcmp_take_eq.
  - intros m q Hq Heq.
    apply list_find_None in Hf. rewrite Forall_forall in Hf.
    apply (Hf q); [by eapply list_elem_of_lookup_2|by apply memcmp_take_eq].
Qed.

Lemma findifnpeerbysessid_Some_first i sessid n :
  findifnpeerbysessid i sessid = Some n ->
  exists p, ifn_peers i !! n = Some p /\ hs_sessid (p_hs p) = sessid /\
    forall m q, (m < n)%nat -> ifn_peers i !! m = Some q ->
                hs_sessid (p_hs q) <> sessid.
Proof.
  unfold findifnpeerbysessid. intros H.
  destruct (list_find _ _) as [[m p]|] eqn:Hf; simplify_eq/=.
  apply list_find_Some in Hf as (Hl & Hp & Hmin).
  exists p. split; [done|]. split; [done|].
  intros m q Hm Hq. by apply (Hmin m q Hq Hm).
Qed.

(** X3. [findifnpeerbysessid] returns the first peer of the interface
    whose handshake state carries the session id, and fails exactly when
    none does: of two peers with the same session id the one with the lower
    index is found. *)
Theorem findifnpeerbysessid_first i sessid :
  match findifnpeerbysessid i sessid with
  | Some n =>
    exists p, ifn_peers i !! n = Some p /\ hs_sessid (p_hs p) = sessid /\
      forall m q, (m < n)%nat -> ifn_peers i !! m = Some q ->
                  hs_sessid (p_hs q) <> sessid
  | None =>
    forall m q, ifn_peers i !! m = Some q -> hs_sessid (p_hs q) <> sessid
  end.
Proof.
  destruct (findifnpeerbysessid i sessid) as [n|] eqn:Hf.
  - by apply findifnpeerbysessid_Some_first.
  - unfold findifnpeerbysessid in Hf.
    destruct (list_find _ _) as [[n p]|] eqn:Hl; [done|].
    intros m q Hq Heq.
    apply list_find_None in Hl. rewrite Forall_forall in Hl.
    apply (Hl q); [by eapply list_elem_of_lookup_2|done].
Qed.

(** ** What a handler run may change *)

Lemma lex_lt_trans a b c : lex_lt a b -> lex_lt b c -> lex_lt a c.
Proof.
  revert b c. induction a as [|x a IH]; intros [|y b] [|z c]; simpl; try tauto.
  intros [Hxy|[-> Hab]] [Hyz|[-> Hbc]].
  - left. lia.
  - by left.
  - by left.
  - right. split; [done|]. by eapply IH.
Qed.

Lemma lex_le_refl a : lex_le a a.
Proof. by left. Qed.

Lemma lex_le_trans a b c : lex_le a b -> lex_le b c -> lex_le a c.
Proof.
  intros [->|Hab] [->|Hbc]; [by left|by right|by right|].
  right. by eapply lex_lt_trans.
Qed.

Lemma peer_step_refl p : peer_step p p.
Proof. split; [done|]. intros H. split; [done|apply lex_le_refl]. Qed.

Lemma peer_step_trans p q r : peer_step p q -> peer_step q r -> peer_step p r.
Proof.
  intros [Hs1 Ht1] [Hs2 Ht2]. split; [congruence|].
  intros H. destruct (Ht1 H) as [Hl1 Hle1]. destruct (Ht2 Hl1) as [Hl2 Hle2].
  split; [done|]. by eapply lex_le_trans.
Qed.

Lemma peer_step_set_p_hs f p : peer_step p (set_p_hs f p).
Proof. split; [done|]. intros H. split; [done|apply lex_le_refl]. Qed.

Lemma hs_only_refl p : hs_only p p.
Proof. done. Qed.

Lemma hs_only_trans p q r : hs_only p q -> hs_only q r -> hs_only p r.
Proof. intros [? ?] [? ?]. split; congruence. Qed.

Lemma hs_only_set_p_hs f p : hs_only p (set_p_hs f p).
Proof. done. Qed.

Lemma hs_only_peer_step p q : hs_only p q -> peer_step p q.
Proof.
  intros [Hs Ht]. split; [done|]. rewrite Ht. intros H.
  split; [done|apply lex_le_refl].
Qed.



Lemma map_alter_static (f : peer -> peer) n l :
  (forall p, l !! n = Some p -> peer_static (f p) = peer_static p) ->
  map peer_static (alter f n l) = map peer_static l.
Proof.
  intros Hf. apply list_eq. intros m.
  rewrite !list_lookup_fmap.
  destruct (decide (n = m)) as [->|Hne].
  - rewrite list_lookup_alter_eq.
    destruct (l !! m) as [p|] eqn:Hp; cbn; [|done]. by rewrite Hf.
  - by rewrite list_lookup_alter_ne.
Qed.

Lemma ifn_touch_refl R n i : (forall p, R p p) -> ifn_touch R n i i.
Proof. intros HR. split; [done|]. intros m p Hp. exists p. auto. Qed.

Lemma ifn_touch_trans R n i j k :
  (forall p q r, R p q -> R q r -> R p r) ->
  ifn_touch R n i j -> ifn_touch R n j k -> ifn_touch R n i k.
Proof.
  intros HR [Hs1 H1] [Hs2 H2]. split; [congruence|].
  intros m p Hp. destruct (H1 m p Hp) as (q & Hq & Hpq & Hpq').
  destruct (H2 m q Hq) as (r & Hr & Hqr & Hqr').
  exists r. split; [done|]. split.
  - intros Hm. eapply HR; eauto.
  - intros Hm. rewrite Hqr', Hpq' by done. done.
Qed.

(** A write to peer [n]. *)
Lemma ifn_touch_alter R n f i :
  (forall p q, R p q -> peer_static q = peer_static p) ->
  (forall p, ifn_peers i !! n = Some p -> R p (f p)) ->
  ifn_touch R n i (set_ifn_peers (alter f n) i).
Proof.
  intros HR Hf. split.
  - unfold ifn_static. cbn. f_equal. apply map_alter_static.
    intros p Hp. by apply HR, Hf.
  - intros m p Hp. cbn.
    destruct (decide (n = m)) as [->|Hne].
    + rewrite list_lookup_alter_eq, Hp. cbn. eexists. split; [done|].
      split; [auto|done].
    + rewrite list_lookup_alter_ne by done. exists p. split; [done|].
      split; [congruence|done].
Qed.

Lemma ifn_touch_mono (R R' : peer -> peer -> Prop) n i i' :
  (forall p q, R p q -> R' p q) -> ifn_touch R n i i' -> ifn_touch R' n i i'.
Proof.
  intros HR [Hs H]. split; [done|]. intros m p Hp.
  destruct (H m p Hp) as (q & Hq & Hpq & Hpq'). eauto 6.
Qed.


Lemma ifn_static_peers i i' :
  ifn_static i' = ifn_static i ->
  map peer_static (ifn_peers i') = map peer_static (ifn_peers i).
Proof. unfold ifn_static. intros H. by injection H. Qed.

Lemma ifn_touch_other R n i i' m :
  ifn_touch R n i i' -> m <> n -> ifn_peers i' !! m = ifn_peers i !! m.
Proof.
  intros [Hs H] Hm.
  destruct (ifn_peers i !! m) as [p|] eqn:Hp.
  - destruct (H m p Hp) as (q & Hq & _ & Hpq'). by rewrite Hq, Hpq'.
  - apply lookup_ge_None in Hp. apply lookup_ge_None.
    apply ifn_static_peers in Hs.
    apply (f_equal length) in Hs. rewrite !length_map in Hs. lia.
Qed.

Lemma peer_step_static p q : peer_step p q -> peer_static q = peer_static p.
Proof. by intros [? _]. Qed.

Lemma hs_only_static p q : hs_only p q -> peer_static q = peer_static p.
Proof. by intros [? _]. Qed.

Lemma touch_hs_refl n i : ifn_touch hs_only n i i.
Proof. apply ifn_touch_refl, hs_only_refl. Qed.

Lemma touch_hs_trans n i j k :
  ifn_touch hs_only n i j -> ifn_touch hs_only n j k -> ifn_touch hs_only n i k.
Proof. apply ifn_touch_trans, hs_only_trans. Qed.

Lemma touch_hs_then_hs n g i j :
  ifn_touch hs_only n i j ->
  ifn_touch hs_only n i (set_ifn_peers (alter (set_p_hs g) n) j).
Proof.
  intros H. eapply touch_hs_trans; [exact H|].
  apply ifn_touch_alter; [apply hs_only_static|].
  intros. apply hs_only_set_p_hs.
Qed.

Lemma touch_step_refl n i : ifn_touch peer_step n i i.
Proof. apply ifn_touch_refl, peer_step_refl. Qed.

Lemma touch_step_trans n i j k :
  ifn_touch peer_step n i j -> ifn_touch peer_step n j k ->
  ifn_touch peer_step n i k.
Proof. apply ifn_touch_trans, peer_step_trans. Qed.

Lemma touch_step_then_hs n g i j :
  ifn_touch peer_step n i j ->
  ifn_touch peer_step n i (set_ifn_peers (alter (set_p_hs g) n) j).
Proof.
  intros H. eapply touch_step_trans; [exact H|].
  apply ifn_touch_alter; [apply peer_step_static|].
  intros. apply peer_step_set_p_hs.
Qed.

Lemma touch_hs_step n i i' : ifn_touch hs_only n i i' -> ifn_touch peer_step n i i'.
Proof. apply ifn_touch_mono, hs_only_peer_step. Qed.

Lemma memcmp_cons x a y b n :
  memcmp (x :: a) (y :: b) (S n)
  = if decide (x = y) then memcmp a b n else byte_val x - byte_val y.
Proof. done. Qed.

(** A [memcmp] that finds the first buffer greater: its front is not
    smaller than the front of the second. *)
Lemma memcmp_pos_lex b : forall a y n,
  (length b <= length a)%nat -> (length b <= n)%nat ->
  memcmp a (b ++ y) n > 0 -> lex_le b (take (length b) a).
Proof.
  induction b as [|x' b IH]; intros a y n Ha Hn Hm; [by left|].
  destruct a as [|x a]; [simpl in Ha; lia|].
  destruct n as [|n]; [simpl in Hn; lia|].
  simpl in Ha, Hn. cbn [app] in Hm. rewrite memcmp_cons in Hm.
  cbn [length take].
  case_decide as Hx.
  - subst x'. destruct (IH a y n) as [Heq|Hlt]; [lia|lia|done| |].
    + left. by f_equal.
    + right. simpl. right. done.
  - right. simpl. left. lia.
Qed.

Lemma tmpts_buffer_length t : length (tmpts_buffer t) = 28%nat.
Proof.
  unfold tmpts_buffer. rewrite length_take, length_app.
  unfold zeros. rewrite length_replicate. unfold TAGLEN. lia.
Qed.

(** The writes of an accepted init, given that the replay test passed. *)
Lemma hsinit_commit_step n eph tmpc tmph plain beyond i p :
  ifn_peers i !! n = Some p ->
  ~ memcmp (tmpts_buffer plain) (p_recvts p ++ beyond) (12 + TAGLEN) <= 0 ->
  ifn_touch peer_step n i (hsinit_commit n eph tmpc tmph plain i).
Proof.
  intros Hp Hm. unfold hsinit_commit.
  change (ifn_touch peer_step n i
    (set_ifn_peers (alter (set_p_hs (set_hs_h (take HASHLEN tmph))) n)
      (set_ifn_peers (alter (set_p_hs (set_hs_c (take KEYLEN tmpc))) n)
        (set_ifn_peers (alter (set_p_hs (set_hs_epubi (take KEYLEN eph))) n)
          (set_ifn_peers (alter (set_p_recvts (take 12 (tmpts_buffer plain))) n)
             i))))).
  do 3 apply touch_step_then_hs.
  apply ifn_touch_alter; [apply peer_step_static|].
  intros p0 Hp0. simplify_eq. split; [done|]. cbn. intros Hlen.
  split.
  - rewrite length_take, tmpts_buffer_length. lia.
  - rewrite <- Hlen. eapply (memcmp_pos_lex _ _ beyond (12 + TAGLEN)).
    + rewrite tmpts_buffer_length. lia.
    + unfold TAGLEN. lia.
    + lia.
Qed.

Lemma hsinit_opened_peer P i mwi peer n tmpc tmph plain :
  hsinit_opened P i mwi peer = Some (n, tmpc, tmph, plain) ->
  peer = None \/ peer = Some n.
Proof.
  unfold hsinit_opened. intros H.
  destruct (hsinit_static P i mwi) as [[[c h] st]|]; cbn in H; [|done].
  destruct (findifnpeerbypubkey i st) as [n0|]; cbn in H; [|done].
  case_decide as Hd; [|done].
  destruct (ifn_peers i !! n0); cbn in H; [|done].
  destruct (kdfn2 _ _ _) as [[c1 k1]|]; cbn in H; [|done].
  destruct (aead _ _ _ _ _); cbn in H; [|done]. by simplify_eq.
Qed.

Ltac touch_solve :=
  cbn; repeat apply touch_hs_then_hs; first [apply touch_hs_refl | done].

(** The initiator side of [upgradehsinit] writes to the handshake state of
    its peer, and nothing unless it returns 0. *)
Lemma upgradehsinit_initiator_touch P E peer w :
  match fst (upgradehsinit P E peer false w) with
  | Ok m =>
    ifn_touch hs_only m (w_ifn w)
      (w_ifn (snd (upgradehsinit P E peer false w))) /\
    peer = Some m
  | _ => w_ifn (snd (upgradehsinit P E peer false w)) = w_ifn w
  end.
Proof.
  destruct (upgradehsinit P E peer false w) as [r w'] eqn:H. cbn [fst snd].
  unfold upgradehsinit in H.
  unfold modify_peer, deref in H.
  unfold bind, gets, try, ret, fail, undefined, modify, peer_at in H.
  cbn in H.
  repeat (run_step_in H; simplify_eq; try done).
  split; [touch_solve|done].
Qed.

(** The responder side writes to the peer it resolves, and nothing unless
    it returns 0. *)
Lemma upgradehsinit_responder_touch P E peer w :
  match fst (upgradehsinit P E peer true w) with
  | Ok m =>
    ifn_touch peer_step m (w_ifn w)
      (w_ifn (snd (upgradehsinit P E peer true w))) /\
    (peer = None \/ peer = Some m)
  | _ => snd (upgradehsinit P E peer true w) = w
  end.
Proof.
  rewrite upgradehsinit_responder.
  destruct (hsinit_opened _ _ _ _) as [[[[n tmpc] tmph] plain]|] eqn:Ho;
    [|done].
  destruct (ifn_peers (w_ifn w) !! n) as [p|] eqn:Hp; [|done].
  case_bool_decide as Hm; [done|]. cbn.
  split; [by eapply hsinit_commit_step|by eapply hsinit_opened_peer].
Qed.

Lemma upgradehsresp_touch P n responder w :
  ifn_touch hs_only n (w_ifn w) (w_ifn (snd (upgradehsresp P n responder w))).
Proof.
  destruct (upgradehsresp P n responder w) as [r w'] eqn:H. cbn [fst snd].
  unfold upgradehsresp in H.
  unfold modify_peer in H.
  unfold bind, gets, try, ret, fail, modify, peer_at in H.
  cbn in H.
  destruct responder; repeat (run_step_in H; simplify_eq; try touch_solve).
Qed.

Lemma createhsinit_touch P E n w :
  ifn_touch hs_only n (w_ifn w) (w_ifn (snd (createhsinit P E n w))).
Proof.
  unfold createhsinit.
  unfold bind at 1 2 3 4 5 6 7.
  unfold gets, modify, peer_at, modify_peer, try. cbn.
  destruct (ifn_peers (w_ifn w) !! n) as [p|]; cbn; [|touch_solve].
  destruct (e_now E) as [now|]; cbn; [|unfold fail; touch_solve].
  unfold bind at 1. cbn.
  unfold bind at 1.
  match goal with |- context [upgradehsinit P E ?pp false ?w0] =>
    pose proof (upgradehsinit_initiator_touch P E pp w0) as Hs;
    destruct (upgradehsinit P E pp false w0) as [[m| | |] w1] end;
    cbn in Hs |- *; try (rewrite Hs; touch_solve).
  destruct Hs as [Hs Hq]. injection Hq as <-.
  assert (Hn : ifn_touch hs_only n (w_ifn w) (w_ifn w1)).
  { eapply touch_hs_trans; [|exact Hs]. touch_solve. }
  unfold bind, gets, try, ret, fail, modify, peer_at.
  repeat (run_step; try done).
Qed.

Lemma createhsresp_touch P E n w :
  ifn_touch hs_only n (w_ifn w) (w_ifn (snd (createhsresp P E n w))).
Proof.
  unfold createhsresp.
  unfold bind at 1 2 3 4 5 6 7 8 9.
  unfold gets, modify, peer_at, modify_peer. cbn.
  destruct (ifn_peers (w_ifn w) !! n) as [p|]; cbn; [|touch_solve].
  unfold bind at 1.
  match goal with |- context [upgradehsresp P n true ?w0] =>
    pose proof (upgradehsresp_touch P n true w0) as Hs;
    destruct (upgradehsresp P n true w0) as [r w1] end.
  assert (Hn : ifn_touch hs_only n (w_ifn w) (w_ifn w1)).
  { eapply touch_hs_trans; [|exact Hs]. touch_solve. }
  destruct r as [[]| | |]; cbn; try done.
  unfold bind, gets, try, ret, fail, modify, peer_at.
  repeat (run_step; try done).
Qed.

Lemma ifn_touch_default R (peer : option nat) i :
  (forall p, R p p) ->
  exists n, ifn_touch R n i i /\ (peer = None \/ peer = Some n).
Proof.
  intros HR. destruct peer as [q|].
  - exists q. split; [by apply ifn_touch_refl|by right].
  - exists 0%nat. split; [by apply ifn_touch_refl|by left].
Qed.

(** A run of [handlewginit] writes to one peer at most: the asserted one
    when the message came in on a peer socket. *)
Lemma handlewginit_touch P E peer addrs w :
  exists n,
    ifn_touch peer_step n (w_ifn w)
      (w_ifn (snd (handlewginit P E peer addrs w))) /\
    (peer = None \/ peer = Some n).
Proof.
  pose proof (ifn_touch_default peer_step peer (w_ifn w) peer_step_refl)
    as Hdef.
  destruct (handlewginit P E peer addrs w) as [r w'] eqn:H. cbn [fst snd].
  unfold handlewginit in H.
  unfold bind at 1 2 in H. unfold gets in H. cbn in H.
  destruct (ws_validmac _ _ _ _); cbn in H;
    [|unfold fail in H; by simplify_eq].
  unfold bind at 1 in H.
  pose proof (upgradehsinit_responder_touch P E peer w) as Hs1.
  destruct (upgradehsinit P E peer true w) as [[n| | |] w1]; cbn in Hs1, H;
    try by simplify_eq.
  destruct Hs1 as [Hs1 Hpeer].
  exists n. split; [|done].
  unfold bind at 1 in H.
  pose proof (createhsresp_touch P E n w1) as Hs2.
  apply touch_hs_step in Hs2.
  assert (Hn : forall w2, w_ifn w2 = w_ifn (snd (createhsresp P E n w1)) ->
                          ifn_touch peer_step n (w_ifn w) (w_ifn w2)).
  { intros w2 ->. by eapply touch_step_trans. }
  destruct (createhsresp P E n w1) as [[[]| | |] w2]; cbn in *;
    try (simplify_eq; by apply Hn).
  unfold wire_sendpeeridmsg in H.
  unfold bind, gets, ret, fail, exit, modify, peer_at in H. cbn in H.
  repeat (run_step_in H; unfold fail, ret, exit, undefined in *; simplify_eq;
          try by apply Hn).
Qed.

(** A run of [handlewgresp] writes to the handshake state of one peer at
    most; where peer ids are the indices, to the asserted one when the
    message came in on a peer socket. *)
Lemma handlewgresp_touch P E peer addrs w :
  exists n,
    ifn_touch hs_only n (w_ifn w)
      (w_ifn (snd (handlewgresp P E peer addrs w))) /\
    (ids_dense (w_ifn w) -> peer = None \/ peer = Some n).
Proof.
  assert (Hdef : exists n, ifn_touch hs_only n (w_ifn w) (w_ifn w) /\
                   (ids_dense (w_ifn w) -> peer = None \/ peer = Some n)).
  { destruct (ifn_touch_default hs_only peer (w_ifn w) hs_only_refl)
      as (n & ? & ?). eauto. }
  destruct (handlewgresp P E peer addrs w) as [r w'] eqn:H. cbn [fst snd].
  unfold handlewgresp in H.
  unfold bind at 1 2 in H. unfold gets in H. cbn in H.
  destruct (ws_validmac _ _ _ _); cbn in H;
    [|unfold fail in H; by simplify_eq].
  destruct (findifnpeerbysessid _ _) as [n|];
    [|unfold fail in H; by simplify_eq].
  unfold bind at 1 in H. unfold peer_at at 1 in H.
  destruct (ifn_peers (w_ifn w) !! n) as [p|] eqn:Hp; [|by simplify_eq].
  unfold bind at 1 in H.
  match type of H with
  | context [match ?chk w with _ => _ end] =>
    destruct (chk w) as [rc wc] eqn:Hc
  end.
  assert (wc = w /\ (rc = Ok tt -> ids_dense (w_ifn w) ->
                     peer = None \/ peer = Some n)) as [-> Hpeer].
  { destruct peer as [q|]; [|injection Hc as <- <-; auto].
    unfold bind, peer_at, fail, ret in Hc.
    destruct (ifn_peers (w_ifn w) !! q) as [qa|] eqn:Hq; [|by simplify_eq].
    case_decide as Hid; simplify_eq; [done|].
    split; [done|]. intros _ Hdense. right. f_equal.
    apply Hdense in Hp, Hq.
    assert (p_id qa = p_id p) by (destruct (decide (p_id qa = p_id p)); [done|tauto]).
    lia. }
  destruct rc as [[]| | |]; try by simplify_eq.
  exists n. split; [|by apply Hpeer].
  unfold bind at 1 in H.
  pose proof (upgradehsresp_touch P n false w) as Hs1.
  destruct (upgradehsresp P n false w) as [[[]| | |] w1]; cbn in Hs1, H;
    try by simplify_eq.
  unfold wire_sendpeeridmsg in H.
  unfold bind, gets, ret, fail, exit, modify, modify_peer, peer_at in H.
  cbn in H.
  repeat (run_step_in H; unfold fail, ret, exit, undefined in *; simplify_eq;
          try (cbn; by apply touch_hs_then_hs)).
Qed.

Lemma handleifnmsg_touch P E rcv w :
  exists n,
    ifn_touch peer_step n (w_ifn w) (w_ifn (snd (handleifnmsg P E rcv w))) /\
    (forall m, rcv = Some m -> ids_dense (w_ifn w) ->
               n = Z.to_nat (pim_peerid m)).
Proof.
  destruct rcv as [m|];
    [|exists 0%nat; split; [apply touch_step_refl|done]].
  unfold handleifnmsg.
  unfold bind at 1 2 3. unfold modify, gets. cbn.
  unfold findifnpeerbyid.
  case_bool_decide as Hb;
    [exists (Z.to_nat (pim_peerid m)); split;
       [apply touch_step_refl|by intros ? [= <-]]|].
  destruct (pim_mtcode m);
    try (exists (Z.to_nat (pim_peerid m)); split;
           [apply touch_step_refl|by intros ? [= <-]]).
  - match goal with |- context [handlewginit P E ?a ?b ?w0] =>
      destruct (handlewginit_touch P E a b w0) as (n & Hs & [?|Hn]) end;
      [done|]. injection Hn as <-.
    eexists. split; [exact Hs|by intros ? [= <-]].
  - match goal with |- context [handlewgresp P E ?a ?b ?w0] =>
      destruct (handlewgresp_touch P E a b w0) as (n & Hs & Hn) end.
    cbn in Hs, Hn. exists n. split; [by apply touch_hs_step|].
    intros ? [= <-] Hd. destruct (Hn Hd) as [?|[= <-]]; done.
  - exists (Z.to_nat (pim_peerid m)). split; [|by intros ? [= <-]].
    match goal with |- context [bind (createhsinit P E ?n) ?k ?w0] =>
      set (w1 := w0); destruct (bind (createhsinit P E n) k w1) as [r w'] eqn:H
    end.
    cbn [fst snd].
    unfold bind at 1 in H.
    pose proof (createhsinit_touch P E (Z.to_nat (pim_peerid m)) w1) as Hs1.
    apply touch_hs_step in Hs1.
    destruct (createhsinit P E _ w1) as [[[]| | |] w2]; cbn in Hs1, H;
      try by simplify_eq.
    unfold wire_sendpeeridmsg in H.
    unfold bind, gets, ret, fail, modify in H. cbn in H.
    repeat (run_step_in H; unfold fail, ret, exit, undefined in *; simplify_eq;
            try done).
Qed.














(** ** What a successful run leaves behind *)

Lemma upgradehsresp_Ok_world P n responder w w' :
  upgradehsresp P n responder w = (Ok tt, w') ->
  exists p tmpc tau k empty,
    ifn_peers (w_ifn w) !! n = Some p /\
    hsresp_chain P (hs_c (p_hs p)) (mwr_ephemeral (w_mwr w))
      (if responder then dh P (hs_epriv (p_hs p)) (hs_epubi (p_hs p))
       else dh P (hs_epriv (p_hs p)) (mwr_ephemeral (w_mwr w)))
      (if responder then dh P (hs_epriv (p_hs p)) (p_pubkey p)
       else dh P (ifn_privkey (w_ifn w)) (mwr_ephemeral (w_mwr w)))
      (p_psk p) = Some (tmpc, tau, k) /\
    w' = {| w_ifn := set_ifn_peers
                       (alter (set_p_hs (set_hs_c (take KEYLEN tmpc))) n)
                       (w_ifn w);
            w_mwi := w_mwi w;
            w_mwr := if responder then set_mwr_empty empty (w_mwr w)
                     else w_mwr w;
            w_sent := w_sent w |}.
Proof.
  intros H. unfold upgradehsresp in H.
  unfold modify_peer in H.
  unfold bind, gets, try, ret, fail, modify, peer_at in H.
  cbn in H.
  destruct responder; repeat (run_step_in H; try done); simplify_eq;
    eexists _, _, _, _, _; (split; [done|]); unfold hsresp_chain; use_eqs;
    (split; [done|]); by destruct w.
  Unshelve. exact [].
Qed.

Lemma createhsresp_Ok_world P E n w w' :
  createhsresp P E n w = (Ok tt, w') ->
  exists p tmpc tau k empty mac1,
    ifn_peers (w_ifn w) !! n = Some p /\
    hsresp_chain P (hs_c (p_hs p)) (X25519_public P (e_keypair E))
      (dh P (e_keypair E) (hs_epubi (p_hs p)))
      (dh P (e_keypair E) (p_pubkey p))
      (p_psk p) = Some (tmpc, tau, k) /\
    let mwr := {| mwr_type := 2; mwr_sender := e_arc4random E;
                  mwr_receiver := mwi_sender (w_mwi w);
                  mwr_ephemeral := X25519_public P (e_keypair E);
                  mwr_empty := empty; mwr_mac1 := mac1;
                  mwr_mac2 := zeros 16 |} in
    ws_mac P (mwr_prefix mwr) (p_mac1key p) = Some mac1 /\
    w_mwr w' = mwr /\ w_mwi w' = w_mwi w /\ w_sent w' = w_sent w /\
    ifn_static (w_ifn w') = ifn_static (w_ifn w) /\
    ifn_peers (w_ifn w') !! n =
      Some (set_p_hs (fun s =>
              {| hs_sessid := e_arc4random E;
                 hs_peersessid := mwi_sender (w_mwi w);
                 hs_epriv := e_keypair E; hs_epubi := hs_epubi s;
                 hs_c := take KEYLEN tmpc; hs_h := hs_h s |}) p).
Proof.
  intros H.
  unfold createhsresp in H.
  unfold bind at 1 2 3 4 5 6 7 8 9 in H.
  unfold modify_peer in H. unfold gets, modify, peer_at in H. cbn in H.
  destruct (ifn_peers (w_ifn w) !! n) as [p|] eqn:Hp; cbn in H; [|done].
  unfold bind at 1 in H.
  match type of H with context [upgradehsresp P n true ?w0] =>
    destruct (upgradehsresp P n true w0) as [[[]| | |] w1] eqn:Hup end;
    try done.
  apply upgradehsresp_Ok_world in Hup
    as (p1 & tmpc & tau & k & empty & Hp1 & Hchain & ->).
  cbn in Hp1, Hchain.
  rewrite !list_lookup_alter_eq, Hp in Hp1. cbn in Hp1. simplify_eq.
  cbn in Hchain.
  unfold bind, gets, try, ret, fail, modify, peer_at in H. cbn in H.
  rewrite !list_lookup_alter_eq, Hp in H. cbn in H.
  repeat (run_step_in H; try done). simplify_eq. cbn.
  eexists _, _, _, _, empty, _. split; [done|]. split; [exact Hchain|].
  split; [eassumption|]. split; [done|]. split; [done|]. split; [done|].
  split.
  - match goal with |- ifn_static ?X = _ =>
      assert (Ht : ifn_touch hs_only n (w_ifn w) X) by touch_solve;
      exact (proj1 Ht) end.
  - rewrite !list_lookup_alter_eq, Hp. done.
Qed.

Lemma handlewginit_Ok P E peer addrs w w' :
  handlewginit P E peer addrs w = (Ok tt, w') ->
  exists n w1 w2 p msk,
    ws_validmac P (mwi_mac1 (w_mwi w)) (mwi_prefix (w_mwi w))
                (ifn_mac1key (w_ifn w)) = true /\
    upgradehsinit P E peer true w = (Ok n, w1) /\
    createhsresp P E n w1 = (Ok tt, w2) /\
    ifn_peers (w_ifn w2) !! n = Some p /\
    makemsgsesskeys P (p_hs p) true = Some msk /\
    w_ifn w' = w_ifn w2 /\ w_mwi w' = w_mwi w2 /\ w_mwr w' = w_mwr w2 /\
    w_sent w' = w_sent w2 ++
      map (sent_ok (ifn_port (w_ifn w)) (p_id p))
          (connreq_msgs P addrs ++
           [(MSGSESSKEYS, PSesskeys msk); (MSGWGRESP, PWgresp (w_mwr w2))]).
Proof.
  intros H. unfold handlewginit in H.
  unfold bind at 1 2 in H. unfold gets in H. cbn in H.
  destruct (ws_validmac _ _ _ _) eqn:Hmac; cbn in H; [|done].
  unfold bind at 1 in H.
  destruct (upgradehsinit P E peer true w) as [[n| | |] w1] eqn:Hup;
    cbn in H; try done.
  unfold bind at 1 in H.
  destruct (createhsresp P E n w1) as [[[]| | |] w2] eqn:Hcr; cbn in H;
    try done.
  unfold wire_sendpeeridmsg in H.
  unfold bind, gets, ret, fail, exit, modify, peer_at in H. cbn in H.
  destruct (ifn_peers (w_ifn w2) !! n) as [p|] eqn:Hp; cbn in H; [|done].
  exists n, w1, w2, p.
  unfold connreq_msgs.
  destruct addrs as [[fsn lsn]|]; cbn in H.
  - destruct (makemsgconnreq P fsn lsn) as [mcr|]; cbn in H; [|done].
    repeat (run_step_in H; try done). simplify_eq. cbn.
    eexists. repeat (split; [done|]). by rewrite <- !app_assoc.
  - repeat (run_step_in H; try done). simplify_eq. cbn.
    eexists. repeat (split; [done|]). by rewrite <- !app_assoc.
Qed.

Lemma handlewgresp_Ok P E peer addrs w w' :
  handlewgresp P E peer addrs w = (Ok tt, w') ->
  exists n w1 p msk,
    ws_validmac P (mwr_mac1 (w_mwr w)) (mwr_prefix (w_mwr w))
                (ifn_mac1key (w_ifn w)) = true /\
    findifnpeerbysessid (w_ifn w) (mwr_receiver (w_mwr w)) = Some n /\
    upgradehsresp P n false w = (Ok tt, w1) /\
    ifn_peers (w_ifn w') !! n = Some p /\
    makemsgsesskeys P (p_hs p) false = Some msk /\
    w_ifn w' = set_ifn_peers
                 (alter (set_p_hs (set_hs_peersessid (mwr_sender (w_mwr w)))) n)
                 (w_ifn w1) /\
    w_mwi w' = w_mwi w /\ w_mwr w' = w_mwr w /\
    w_sent w' = w_sent w ++
      map (sent_ok (ifn_port (w_ifn w)) (p_id p))
          (connreq_msgs P addrs ++ [(MSGSESSKEYS, PSesskeys msk)]).
Proof.
  intros H. unfold handlewgresp in H.
  unfold bind at 1 2 in H. unfold gets in H. cbn in H.
  destruct (ws_validmac _ _ _ _) eqn:Hmac; cbn in H; [|done].
  destruct (findifnpeerbysessid _ _) as [n|] eqn:Hfind; [|done].
  unfold bind at 1 in H. unfold peer_at at 1 in H.
  destruct (ifn_peers (w_ifn w) !! n) as [p0|] eqn:Hp0; [|done].
  unfold bind at 1 in H.
  match type of H with
  | context [match ?chk w with _ => _ end] =>
    destruct (chk w) as [rc wc] eqn:Hc
  end.
  assert (wc = w) as ->.
  { destruct peer as [q|]; [|by injection Hc].
    unfold bind, peer_at, fail, ret in Hc.
    repeat (run_step_in Hc; simplify_eq; try done). }
  destruct rc as [[]| | |]; try done.
  unfold bind at 1 in H.
  destruct (upgradehsresp P n false w) as [[[]| | |] w1] eqn:Hup; cbn in H;
    try done.
  pose proof Hup as Hw1.
  apply upgradehsresp_Ok_world in Hw1
    as (p1 & tmpc & tau & k & empty & Hp1 & _ & Hw1).
  unfold wire_sendpeeridmsg in H.
  unfold bind, gets, ret, fail, exit, modify, modify_peer, peer_at in H.
  cbn in H.
  destruct (alter _ n (ifn_peers (w_ifn w1)) !! n) as [p|] eqn:Hp; cbn in H;
    [|done].
  exists n, w1, p.
  unfold connreq_msgs.
  destruct addrs as [[fsn lsn]|]; cbn in H.
  - destruct (makemsgconnreq P fsn lsn) as [mcr|]; cbn in H; [|done].
    repeat (run_step_in H; try done). simplify_eq. cbn.
    eexists. repeat (split; [done|]). by rewrite <- !app_assoc.
  - repeat (run_step_in H; try done). simplify_eq. cbn.
    eexists. repeat (split; [done|]). done.
Qed.

Lemma upgradehsinit_initiator_Ok_world P E n w m w' :
  upgradehsinit P E (Some n) false w = (Ok m, w') ->
  exists p stat ts tmpc tmph,
    m = n /\
    ifn_peers (w_ifn w) !! n = Some p /\
    hsinit_sealed P (ifn_pubkey (w_ifn w)) p (w_mwi w)
      = Some (stat, ts, tmpc, tmph) /\
    w' = {| w_ifn := set_ifn_peers
                       (alter (set_p_hs (set_hs_h (take HASHLEN tmph))) n)
                       (set_ifn_peers
                          (alter (set_p_hs (set_hs_c (take KEYLEN tmpc))) n)
                          (w_ifn w));
            w_mwi := set_mwi_timestamp ts (set_mwi_stat stat (w_mwi w));
            w_mwr := w_mwr w; w_sent := w_sent w |}.
Proof.
  intros H. unfold upgradehsinit in H.
  unfold modify_peer, deref in H.
  unfold bind, gets, try, ret, fail, modify, peer_at in H.
  cbn in H.
  repeat (run_step_in H; try done); simplify_eq.
  eexists _, _, _, _, _. split; [done|]. split; [done|].
  unfold hsinit_sealed. use_eqs. split; done.
Qed.

Lemma createhsinit_Ok_world P E n w w' :
  createhsinit P E n w = (Ok tt, w') ->
  exists p now stat ts tmpc tmph mac1,
    ifn_peers (w_ifn w) !! n = Some p /\
    e_now E = Some now /\
    hsinit_sealed P (ifn_pubkey (w_ifn w))
      (set_p_hs (set_hs_epriv (e_keypair E))
         (set_p_hs (set_hs_sessid (e_arc4random E)) p))
      (set_mwi_timestamp (take 12 now ++ drop 12 (mwi_timestamp (w_mwi w)))
         (set_mwi_ephemeral (X25519_public P (e_keypair E))
            (set_mwi_sender (e_arc4random E) (set_mwi_type 1 (w_mwi w)))))
      = Some (stat, ts, tmpc, tmph) /\
    let mwi := {| mwi_type := 1; mwi_sender := e_arc4random E;
                  mwi_ephemeral := X25519_public P (e_keypair E);
                  mwi_stat := stat; mwi_timestamp := ts; mwi_mac1 := mac1;
                  mwi_mac2 := zeros 16 |} in
    ws_mac P (mwi_prefix mwi) (p_mac1key p) = Some mac1 /\
    w_mwi w' = mwi /\ w_mwr w' = w_mwr w /\ w_sent w' = w_sent w /\
    ifn_static (w_ifn w') = ifn_static (w_ifn w) /\
    ifn_peers (w_ifn w') !! n =
      Some (set_p_hs (fun s =>
              {| hs_sessid := e_arc4random E;
                 hs_peersessid := hs_peersessid s;
                 hs_epriv := e_keypair E; hs_epubi := hs_epubi s;
                 hs_c := take KEYLEN tmpc; hs_h := take HASHLEN tmph |}) p).
Proof.
  intros H. unfold createhsinit in H.
  unfold bind at 1 2 3 4 5 6 7 in H.
  unfold modify_peer in H. unfold gets, modify, peer_at, try in H. cbn in H.
  destruct (ifn_peers (w_ifn w) !! n) as [p|] eqn:Hp; cbn in H; [|done].
  destruct (e_now E) as [now|] eqn:Hnow; cbn in H; [|done].
  unfold bind at 1 in H. cbn in H. unfold bind at 1 in H.
  match type of H with context [upgradehsinit P E ?pp false ?w0] =>
    destruct (upgradehsinit P E pp false w0) as [[m| | |] w1] eqn:Hup end;
    try done.
  apply upgradehsinit_initiator_Ok_world in Hup
    as (p1 & stat & ts & tmpc & tmph & -> & Hp1 & Hsealed & ->).
  cbn in Hp1, Hsealed.
  rewrite !list_lookup_alter_eq, Hp in Hp1. cbn in Hp1. simplify_eq.
  unfold bind, gets, try, ret, fail, modify, peer_at in H. cbn in H.
  rewrite !list_lookup_alter_eq, Hp in H. cbn in H.
  repeat (run_step_in H; try done). simplify_eq. cbn.
  eexists _, _, _, _, _, _, _. split; [done|]. split; [done|].
  split; [exact Hsealed|]. split; [eassumption|].
  split; [done|]. split; [done|]. split; [done|]. split.
  - match goal with |- ifn_static ?X = _ =>
      assert (Ht : ifn_touch hs_only n (w_ifn w) X) by touch_solve;
      exact (proj1 Ht) end.
  - rewrite !list_lookup_alter_eq, Hp. done.
Qed.

Lemma upgradehsinit_responder_scratch P E peer w :
  let w1 := snd (upgradehsinit P E peer true w) in
  w_mwi w1 = w_mwi w /\ w_mwr w1 = w_mwr w /\ w_sent w1 = w_sent w.
Proof.
  rewrite upgradehsinit_responder.
  repeat (run_step; try done).
Qed.

Lemma makemsgsesskeys_ids P s responder msk :
  makemsgsesskeys P s responder = Some msk ->
  msk_sessid msk = hs_sessid s /\ msk_peersessid msk = hs_peersessid s.
Proof.
  unfold makemsgsesskeys. destruct (kdfn2 _ _ _) as [[a b]|]; [|done].
  intros [= <-]. done.
Qed.

(** X6. When [handlewginit] returns 0 it has sent, to the port of the
    interface and under the id of the resolved peer, the connection request
    if it was given the addresses, then the session keys, then the
    response, in this order and with nothing else.  The session keys are
    derived from the handshake state the peer is left with; the response
    has type 2, a zero MAC2, a MAC1 that is the MAC of its first bytes under
    the MAC1 key of the peer, the session id of the peer as sender and the
    sender of the init as receiver, which the peer keeps as the session id
    of the other side. *)
Theorem handlewginit_replies P E peer addrs w w' :
  handlewginit P E peer addrs w = (Ok tt, w') ->
  exists n p msk,
    ifn_peers (w_ifn w') !! n = Some p /\
    makemsgsesskeys P (p_hs p) true = Some msk /\
    w_sent w' = w_sent w ++
      map (sent_ok (ifn_port (w_ifn w)) (p_id p))
          (connreq_msgs P addrs ++
           [(MSGSESSKEYS, PSesskeys msk); (MSGWGRESP, PWgresp (w_mwr w'))]) /\
    mwr_type (w_mwr w') = 2 /\
    mwr_sender (w_mwr w') = hs_sessid (p_hs p) /\
    mwr_receiver (w_mwr w') = mwi_sender (w_mwi w) /\
    hs_peersessid (p_hs p) = mwi_sender (w_mwi w) /\
    msk_sessid msk = mwr_sender (w_mwr w') /\
    msk_peersessid msk = mwi_sender (w_mwi w) /\
    mwr_mac2 (w_mwr w') = zeros 16 /\
    ws_mac P (mwr_prefix (w_mwr w')) (p_mac1key p)
      = Some (mwr_mac1 (w_mwr w')).
Proof.
  intros H.
  apply handlewginit_Ok in H
    as (n & w1 & w2 & p & msk & _ & Hup & Hcr & Hp & Hmsk & Hifn & _ & Hmwr
        & Hsent).
  pose proof (upgradehsinit_responder_scratch P E peer w) as Hscr.
  rewrite Hup in Hscr. cbn in Hscr. destruct Hscr as (Hmwi1 & _ & Hsent1).
  apply createhsresp_Ok_world in Hcr
    as (p1 & tmpc & tau & k & empty & mac1 & Hp1 & _ & Hmac & Hmwr2 & _
        & Hsent2 & _ & Hp2).
  rewrite Hp in Hp2. injection Hp2 as ->.
  destruct (makemsgsesskeys_ids _ _ _ _ Hmsk) as [Hsid Hpsid].
  eexists n, _, msk. rewrite Hifn, Hmwr, Hsent, Hsent2, Hsent1, Hmwr2.
  rewrite Hmwi1 in *.
  split; [done|]. split; [done|]. split; [done|]. cbn in *.
  repeat (split; [done|]). done.
Qed.

(** X7. When [handlewgresp] returns 0, the peer is the first one whose
    session id is the receiver of the response; it keeps that session id,
    takes the sender of the response as the session id of the other side,
    and the handler has sent the connection request if it was given the
    addresses and then the session keys derived from the resulting
    handshake state, and nothing else. *)
Theorem handlewgresp_replies P E peer addrs w w' :
  handlewgresp P E peer addrs w = (Ok tt, w') ->
  exists n p msk,
    findifnpeerbysessid (w_ifn w) (mwr_receiver (w_mwr w)) = Some n /\
    ifn_peers (w_ifn w') !! n = Some p /\
    hs_sessid (p_hs p) = mwr_receiver (w_mwr w) /\
    hs_peersessid (p_hs p) = mwr_sender (w_mwr w) /\
    makemsgsesskeys P (p_hs p) false = Some msk /\
    msk_sessid msk = mwr_receiver (w_mwr w) /\
    msk_peersessid msk = mwr_sender (w_mwr w) /\
    w_sent w' = w_sent w ++
      map (sent_ok (ifn_port (w_ifn w)) (p_id p))
          (connreq_msgs P addrs ++ [(MSGSESSKEYS, PSesskeys msk)]).
Proof.
  intros H.
  apply handlewgresp_Ok in H
    as (n & w1 & p & msk & _ & Hfind & Hup & Hp & Hmsk & Hifn & _ & _ & Hsent).
  apply upgradehsresp_Ok_world in Hup
    as (p0 & tmpc & tau & k & empty & Hp0 & _ & ->).
  destruct (findifnpeerbysessid_Some _ _ _ Hfind) as (q & Hq & Hsid).
  pose proof Hp as Hp'.
  rewrite Hifn in Hp. cbn in Hp.
  rewrite !list_lookup_alter_eq, Hp0 in Hp. cbn in Hp.
  rewrite Hq in Hp0. injection Hp0 as <-. injection Hp as <-.
  destruct (makemsgsesskeys_ids _ _ _ _ Hmsk) as [Hs1 Hs2]. cbn in Hs1, Hs2.
  eexists n, _, msk. split; [done|]. split; [exact Hp'|]. cbn.
  split; [done|]. split; [done|]. split; [done|].
  split; [congruence|]. split; [done|]. done.
Qed.

Lemma handleifnmsg_reqwginit_Ok P E m w w' :
  pim_mtcode m = MSGREQWGINIT ->
  handleifnmsg P E (Some m) w = (Ok tt, w') ->
  exists w1,
    createhsinit P E (Z.to_nat (pim_peerid m))
      {| w_ifn := w_ifn w; w_mwi := pim_mwi m; w_mwr := pim_mwr m;
         w_sent := w_sent w |} = (Ok tt, w1) /\
    w_ifn w' = w_ifn w1 /\ w_mwi w' = w_mwi w1 /\ w_mwr w' = w_mwr w1 /\
    w_sent w' = w_sent w1 ++
      [sent_ok (ifn_port (w_ifn w)) (pim_peerid m)
               (MSGWGINIT, PWginit (w_mwi w1))].
Proof.
  intros Hmt H. unfold handleifnmsg in H.
  unfold bind at 1 2 3 in H. unfold modify, gets in H. cbn in H.
  unfold findifnpeerbyid in H.
  case_bool_decide as Hb; [done|]. rewrite Hmt in H.
  unfold bind at 1 in H.
  match type of H with context [createhsinit P E ?n ?w0] =>
    destruct (createhsinit P E n w0) as [[[]| | |] w1] eqn:Hcr end;
    cbn in H; try done.
  unfold wire_sendpeeridmsg in H.
  unfold bind, gets, ret, fail, modify in H. cbn in H.
  repeat (run_step_in H; try done). simplify_eq.
  exists w1. done.
Qed.

(** X8. A request for a handshake that [handleifnmsg] serves with return
    0 sends exactly one message, the init, back under the peer id of the
    request.  The init has type 1, the fresh session id as sender, the
    public half of the fresh ephemeral key, a zero MAC2 and a MAC1 that is
    the MAC of its first bytes under the MAC1 key of the peer; the peer
    keeps the session id and the private half of the ephemeral key. *)
Theorem handleifnmsg_reqwginit P E m w w' :
  pim_mtcode m = MSGREQWGINIT ->
  handleifnmsg P E (Some m) w = (Ok tt, w') ->
  exists p,
    ifn_peers (w_ifn w') !! Z.to_nat (pim_peerid m) = Some p /\
    w_sent w' = w_sent w ++
      [sent_ok (ifn_port (w_ifn w)) (pim_peerid m)
               (MSGWGINIT, PWginit (w_mwi w'))] /\
    mwi_type (w_mwi w') = 1 /\
    mwi_sender (w_mwi w') = e_arc4random E /\
    hs_sessid (p_hs p) = e_arc4random E /\
    mwi_ephemeral (w_mwi w') = X25519_public P (e_keypair E) /\
    hs_epriv (p_hs p) = e_keypair E /\
    mwi_mac2 (w_mwi w') = zeros 16 /\
    ws_mac P (mwi_prefix (w_mwi w')) (p_mac1key p)
      = Some (mwi_mac1 (w_mwi w')).
Proof.
  intros Hmt H.
  destruct (handleifnmsg_reqwginit_Ok _ _ _ _ _ Hmt H)
    as (w1 & Hcr & Hifn & Hmwi & _ & Hsent).
  apply createhsinit_Ok_world in Hcr
    as (p & now & stat & ts & tmpc & tmph & mac1 & Hp & _ & _ & Hmac & Hmwi1
        & _ & Hsent1 & _ & Hp1).
  cbn in Hp, Hmac, Hsent1.
  eexists. rewrite Hifn, Hmwi, Hsent, Hsent1, Hmwi1.
  split; [exact Hp1|]. cbn. repeat (split; [done|]). done.
Qed.

(** ** A replayed init *)







(** ** A whole handshake *)

(** What the initiator sealed, the responder opens: both arrive at the same
    chaining key and hash, and the responder resolves a peer that carries
    the initiator's static public key. *)
Lemma sealed_opened_peer P (OK : primitives_ok P) iR pI sprivI mwi mwi'
    stat ts tmpcI tmphI peer n tmpcR tmphR plain :
  hsinit_sealed P (X25519_public P sprivI) pI mwi
    = Some (stat, ts, tmpcI, tmphI) ->
  mwi_ephemeral mwi = X25519_public P (hs_epriv (p_hs pI)) ->
  mwi_ephemeral mwi' = mwi_ephemeral mwi ->
  mwi_stat mwi' = stat -> mwi_timestamp mwi' = ts ->
  p_pubkey pI = X25519_public P (ifn_privkey iR) ->
  p_pubkeyhash pI = ifn_pubkeyhash iR ->
  length (X25519_public P sprivI) = 32%nat ->
  p_dhsecret pI = X25519 P sprivI (p_pubkey pI) ->
  (forall m q, ifn_peers iR !! m = Some q ->
     p_dhsecret q = X25519 P (ifn_privkey iR) (p_pubkey q) /\
     length (p_pubkey q) = 32%nat) ->
  hsinit_opened P iR mwi' peer = Some (n, tmpcR, tmphR, plain) ->
  tmpcR = tmpcI /\ tmphR = tmphI /\
  exists q, ifn_peers iR !! n = Some q /\ p_pubkey q = X25519_public P sprivI.
Proof.
  intros Hsealed Heph Heph' Hstat Hts Hpub Hhash Hlen Hdh Hcfg Hopened.
  unfold hsinit_sealed in Hsealed.
  unfold hsinit_opened, hsinit_static in Hopened.
  assert (Hee : dh P (ifn_privkey iR) (mwi_ephemeral mwi)
                = dh P (hs_epriv (p_hs pI)) (p_pubkey pI)).
  { rewrite Heph, Hpub. apply (dh_comm P OK). }
  rewrite Heph', <- Hhash, Hee in Hopened. clear Hee.
  unfold aead in Hsealed, Hopened.
  destruct (kdf1 P _ _) as [c1|]; cbn in *; [|done].
  destruct (dh P _ _) as [k1|]; cbn in *; [|done].
  destruct (kdfn2 P (Some k1) c1) as [[c2 k2]|]; cbn in *; [|done].
  destruct (aead_seal P k2 _ _) as [stat0|] eqn:Hseal; cbn in *; [|done].
  apply (aead_open_seal P OK) in Hseal.
  destruct (kdfn2 P (Some (p_dhsecret pI)) c2) as [[c3 k3]|] eqn:Hk;
    cbn in *; [|done].
  destruct (aead_seal P k3 _ _) as [ts0|]; cbn in *; [|done].
  simplify_eq. rewrite Hseal in Hopened. cbn in Hopened.
  destruct (findifnpeerbypubkey iR _) as [n0|] eqn:Hf; cbn in *; [|done].
  apply findifnpeerbypubkey_Some in Hf as (q & Hq & Hm & _).
  case_decide; [|done]. rewrite Hq in Hopened. cbn in Hopened.
  destruct (Hcfg _ _ Hq) as [Hqdh Hqlen].
  apply memcmp_eq_0 in Hm. rewrite take_idemp in Hm.
  apply take_32_eq in Hm; [|done..].
  assert (Hsame : p_dhsecret q = p_dhsecret pI).
  { rewrite Hqdh, Hdh, Hm, Hpub. apply (X25519_comm P OK). }
  rewrite Hsame, Hk in Hopened. cbn in Hopened.
  destruct (aead_open P k3 _ _); cbn in *; [|done].
  simplify_eq. eauto.
Qed.

Lemma makemsgsesskeys_mirror P sR sI mskR mskI :
  makemsgsesskeys P sR true = Some mskR ->
  makemsgsesskeys P sI false = Some mskI ->
  hs_c sR = hs_c sI ->
  msk_sendkey mskI = msk_recvkey mskR /\ msk_recvkey mskI = msk_sendkey mskR.
Proof.
  unfold makemsgsesskeys. intros HR HI Hc. rewrite Hc in HR.
  destruct (kdfn2 _ _ _) as [[a b]|]; [|done].
  by simplify_eq.
Qed.

Lemma sesskeys_sent port peerid pre post msk (l : list sentmsg) :
  PSesskeys msk ∈
    map sent_payload
      (l ++ map (sent_ok port peerid)
              (pre ++ (MSGSESSKEYS, PSesskeys msk) :: post)).
Proof.
  rewrite !map_app. apply elem_of_app. right. apply elem_of_app. right.
  cbn. apply elem_of_cons. by left.
Qed.

(** X10. A whole handshake through the handlers.  The initiator serves a
    request for a handshake with its peer, the responder handles the init
    it produced, and the initiator handles the response, all three with
    return 0, the two sides being configured for each other (static keys,
    static-static secret, the same pre-shared key) and the fresh session
    id of the initiator not being in use with a peer of lower index.  Then
    the session keys the two sides send to their siblings mirror each
    other: the send key of one is the receive key of the other, and each
    names the session id of the other as that of its peer. *)
Theorem handshake_session_keys P EI ER EI' wI wR wI' mreq peerR addrsR
    peerI addrsI wI1 wR1 wI2 pI :
  primitives_ok P ->
  (forall k, length (X25519_public P k) = 32%nat) ->
  ifn_peers (w_ifn wI) !! Z.to_nat (pim_peerid mreq) = Some pI ->
  ifn_pubkey (w_ifn wI) = X25519_public P (ifn_privkey (w_ifn wI)) ->
  p_pubkey pI = X25519_public P (ifn_privkey (w_ifn wR)) ->
  p_pubkeyhash pI = ifn_pubkeyhash (w_ifn wR) ->
  p_dhsecret pI = X25519 P (ifn_privkey (w_ifn wI)) (p_pubkey pI) ->
  (forall m q, ifn_peers (w_ifn wR) !! m = Some q ->
     p_dhsecret q = X25519 P (ifn_privkey (w_ifn wR)) (p_pubkey q) /\
     length (p_pubkey q) = 32%nat /\
     (p_pubkey q = ifn_pubkey (w_ifn wI) -> p_psk q = p_psk pI)) ->
  (forall m q, ifn_peers (w_ifn wI) !! m = Some q ->
     (m < Z.to_nat (pim_peerid mreq))%nat ->
     hs_sessid (p_hs q) <> e_arc4random EI) ->
  pim_mtcode mreq = MSGREQWGINIT ->
  handleifnmsg P EI (Some mreq) wI = (Ok tt, wI1) ->
  w_mwi wR = w_mwi wI1 ->
  handlewginit P ER peerR addrsR wR = (Ok tt, wR1) ->
  w_ifn wI' = w_ifn wI1 -> w_mwr wI' = w_mwr wR1 ->
  handlewgresp P EI' peerI addrsI wI' = (Ok tt, wI2) ->
  exists mskR mskI,
    PSesskeys mskR ∈ map sent_payload (w_sent wR1) /\
    PSesskeys mskI ∈ map sent_payload (w_sent wI2) /\
    msk_sendkey mskI = msk_recvkey mskR /\
    msk_recvkey mskI = msk_sendkey mskR /\
    msk_sessid mskI = msk_peersessid mskR /\
    msk_peersessid mskI = msk_sessid mskR.
Proof.
  intros OK Hpublen HpI Hspub Hpub Hhash Hdh Hcfg Huniq Hmt Hreq HmsgR HrunR
    HifnI' HmwrI' HrunI.
  set (nI := Z.to_nat (pim_peerid mreq)) in *.
  (* the request on I *)
  destruct (handleifnmsg_reqwginit_Ok _ _ _ _ _ Hmt Hreq)
    as (wIc & HcrI & HifnI1 & HmwiI1 & _ & _).
  pose proof (createhsinit_touch P EI nI
                {| w_ifn := w_ifn wI; w_mwi := pim_mwi mreq;
                   w_mwr := pim_mwr mreq; w_sent := w_sent wI |}) as HtI.
  fold nI in HcrI. rewrite HcrI in HtI. cbn in HtI.
  apply createhsinit_Ok_world in HcrI
    as (p & now & stat & ts & tmpcI & tmphI & mac1 & Hp & _ & Hsealed & _
        & HmwiIc & _ & _ & HstI & HpI1).
  cbn in Hp, Hsealed, HstI. rewrite HpI in Hp. injection Hp as <-.
  (* the init on R *)
  apply handlewginit_Ok in HrunR
    as (nR & wRa & wRb & pR & mskR & _ & HupR & HcrR & HpR & HmskR & HifnR
        & _ & HmwrR & HsentR).
  rewrite upgradehsinit_responder in HupR.
  destruct (hsinit_opened P (w_ifn wR) (w_mwi wR) peerR)
    as [[[[n0 tmpcR] tmphR] t]|] eqn:Ho; [|done].
  destruct (ifn_peers (w_ifn wR) !! n0) as [q|] eqn:Hq; [|done].
  case_bool_decide as Hm; [done|]. injection HupR as -> <-.
  assert (HmwiR : w_mwi wR =
            {| mwi_type := 1; mwi_sender := e_arc4random EI;
               mwi_ephemeral := X25519_public P (e_keypair EI);
               mwi_stat := stat; mwi_timestamp := ts; mwi_mac1 := mac1;
               mwi_mac2 := zeros 16 |}) by congruence.
  rewrite Hspub in Hsealed.
  destruct (sealed_opened_peer P OK (w_ifn wR) _ _ _ (w_mwi wR) _ _ _ _
              peerR nR tmpcR tmphR t Hsealed eq_refl)
    as (-> & -> & q' & Hq' & Hqpub);
    [by rewrite HmwiR|by rewrite HmwiR|by rewrite HmwiR|done|done
    |apply Hpublen|done| |exact Ho|].
  { intros m q0 Hq0. destruct (Hcfg m q0 Hq0) as (? & ? & _). done. }
  rewrite Hq in Hq'. injection Hq' as <-.
  destruct (Hcfg _ _ Hq) as (_ & _ & Hpsk).
  rewrite Hspub in Hpsk. specialize (Hpsk Hqpub).
  (* the response on R *)
  apply createhsresp_Ok_world in HcrR
    as (p1 & tmpc2 & tau2 & k2 & empty & mac1R & Hp1 & HchainR & _ & HmwrRb
        & _ & _ & _ & HpRb).
  pose proof (hsinit_commit_lookup nR (mwi_ephemeral (w_mwi wR)) tmpcI tmphI
                t _ _ Hq) as Hl.
  cbn in Hl, Hp1, HchainR, HmwrRb, HpRb.
  rewrite Hl in Hp1. clear Hl.
  injection Hp1 as <-. cbn in HchainR, HpRb.
  rewrite HpR in HpRb. injection HpRb as ->.
  rewrite HmwiR in HchainR, HmwrRb, HmskR. cbn in HchainR, HmwrRb, HmskR.
  rewrite (take_ge (X25519_public P (e_keypair EI))) in HchainR
    by (rewrite Hpublen; unfold KEYLEN; lia).
  (* the response on I *)
  apply handlewgresp_Ok in HrunI
    as (n & wIa & pI2 & mskI & _ & Hfind & HupI & HpI2 & HmskI & HifnI2 & _
        & _ & HsentI).
  rewrite HmwrI', HmwrR, HmwrRb in Hfind, HifnI2. cbn in Hfind, HifnI2.
  rewrite HifnI', HifnI1 in Hfind.
  assert (n = nI) as ->.
  { apply findifnpeerbysessid_Some_first in Hfind as (pn & Hpn & Hsid & Hmin).
    destruct (lt_eq_lt_dec n nI) as [[Hlt|Heq]|Hgt]; [|done|].
    - exfalso. rewrite (ifn_touch_other _ _ _ _ n HtI) in Hpn by lia.
      by apply (Huniq n pn Hpn Hlt).
    - exfalso. by apply (Hmin nI _ Hgt HpI1). }
  apply upgradehsresp_Ok_world in HupI
    as (p0 & tmpc3 & tau3 & k3 & empty3 & Hp0 & HchainI & ->).
  rewrite HifnI', HifnI1, HpI1 in Hp0. injection Hp0 as <-.
  rewrite HmwrI', HmwrR, HmwrRb in HchainI. cbn in HchainI.
  assert (Hpriv : ifn_privkey (w_ifn wI') = ifn_privkey (w_ifn wI)).
  { rewrite HifnI', HifnI1. unfold ifn_static in HstI. by injection HstI. }
  rewrite Hpriv in HchainI.
  rewrite (dh_comm P OK (e_keypair EI)), (dh_comm P OK (ifn_privkey (w_ifn wI)))
    in HchainI.
  rewrite Hqpub, Hpsk, HchainI in HchainR. injection HchainR as <- <- <-.
  rewrite HifnI2 in HpI2. cbn in HpI2.
  rewrite !list_lookup_alter_eq in HpI2.
  rewrite HifnI', HifnI1, HpI1 in HpI2. cbn in HpI2. injection HpI2 as <-.
  cbn in HmskI.
  destruct (makemsgsesskeys_mirror P _ _ _ _ HmskR HmskI eq_refl)
    as [Hk1 Hk2].
  destruct (makemsgsesskeys_ids _ _ _ _ HmskR) as [HsR HpsR].
  destruct (makemsgsesskeys_ids _ _ _ _ HmskI) as [HsI HpsI].
  cbn in HsR, HpsR, HsI, HpsI.
  exists mskR, mskI.
  split; [rewrite HsentR; apply sesskeys_sent|].
  split; [rewrite HsentI; apply sesskeys_sent|].
  split; [done|]. split; [done|]. split; congruence.
Qed.

(** ** The table [recvconfig] builds *)

Lemma appendhash_take P h x :
  appendhash P (take HASHLEN h) x = appendhash P h x.
Proof. unfold appendhash. by rewrite take_idemp. Qed.

Lemma recvconfig_peers_table P fresh_hs privkey n count :
  forall m s peers s',
    recvconfig_peers P fresh_hs privkey n m count s = (Ok peers, s') ->
    length peers = count /\
    (exists used, s = used ++ s' /\ length used = count) /\
    forall k p, peers !! k = Some p ->
      p_dhsecret p = X25519 P privkey (p_pubkey p) /\
      p_pubkeyhash p = appendhash P (considhash P) (p_pubkey p) /\
      p_recvts p = zeros 12 /\ p_hs p = fresh_hs n (m + k)%nat.
Proof.
  induction count as [|count IH]; intros m s peers s' Hrun.
  - cbn in Hrun. unfold ret in Hrun. simplify_eq. split; [done|].
    split; [by exists []|]. intros k p Hk. by rewrite lookup_nil in Hk.
  - cbn [recvconfig_peers] in Hrun. unfold bind, wire_recvmsg in Hrun.
    destruct s as [|[msg|] rest]; try done.
    destruct msg as [| |sp|]; try done.
    case_decide; [done|]. case_decide as Hid; [done|].
    destruct (recvconfig_peers P fresh_hs privkey n (S m) count rest)
      as [[tl| | |] s1] eqn:Htl; try done.
    unfold ret in Hrun. simplify_eq.
    destruct (IH _ _ _ _ Htl) as (Hlen & (used & -> & Hused) & Hcfg).
    split; [cbn; lia|].
    split; [exists (Some (SPEER sp) :: used); split; [done|cbn; lia]|].
    intros [|k] p Hk; simplify_eq/=.
    + rewrite appendhash_take, Nat.add_0_r. done.
    + destruct (Hcfg _ _ Hk) as (? & ? & ? & ?).
      replace (m + S k)%nat with (S m + k)%nat by lia. done.
Qed.

Lemma recvconfig_ifns_table P fresh_hs count :
  forall n s table s',
    recvconfig_ifns P fresh_hs n count s = (Ok table, s') ->
    length table = count /\
    (exists used,
       s = used ++ s' /\
       length used =
         (length table
          + sum_list (map (fun i => length (ifn_peers i)) table))%nat) /\
    forall k i, table !! k = Some i ->
      ifn_id i = Z.of_nat (n + k) /\
      forall m p, ifn_peers i !! m = Some p ->
        p_dhsecret p = X25519 P (ifn_privkey i) (p_pubkey p) /\
        p_pubkeyhash p = appendhash P (considhash P) (p_pubkey p) /\
        p_recvts p = zeros 12 /\ p_hs p = fresh_hs (n + k)%nat m.
Proof.
  induction count as [|count IH]; intros n s table s' Hrun.
  - cbn in Hrun. unfold ret in Hrun. simplify_eq. split; [done|].
    split; [by exists []|]. intros k i Hk. by rewrite lookup_nil in Hk.
  - cbn [recvconfig_ifns] in Hrun. unfold bind, wire_recvmsg in Hrun.
    destruct s as [|[msg|] rest]; try done.
    destruct msg as [|sf| |]; try done.
    case_decide as Hid; [done|].
    destruct (recvconfig_peers _ _ _ _ _ _ rest)
      as [[peers| | |] s1] eqn:Hpeers; try done.
    destruct (recvconfig_peers_table _ _ _ _ _ _ _ _ _ Hpeers)
      as (Hplen & (used1 & -> & Hused1) & Hpcfg).
    destruct (recvconfig_ifns P fresh_hs (S n) count s1)
      as [[tl| | |] s2] eqn:Htl; try done.
    unfold ret in Hrun. simplify_eq.
    destruct (IH _ _ _ _ Htl) as (Hlen & (used2 & -> & Hused2) & Hcfg).
    split; [cbn; lia|].
    split.
    { exists (Some (SIFN sf) :: used1 ++ used2).
      split; [by rewrite <- app_comm_cons, <- app_assoc|].
      cbn. rewrite length_app. lia. }
    intros [|k] i Hk; simplify_eq/=.
    + rewrite Nat.add_0_r. split.
      * destruct (decide (Z.of_nat n = sf_ifnid sf)); [done|tauto].
      * intros m p Hp. by destruct (Hpcfg _ _ Hp) as (? & ? & ? & ?).
    + replace (n + S k)%nat with (S n + k)%nat by lia. by apply Hcfg.
Qed.

(** X11. In every table [recvconfig] builds, the id of an interface is
    its index, and every peer holds the X25519 result of the interface
    private key and its own public key as static-static secret (whether or
    not that result is all zero: the return value of [dh] is not looked
    at), the hash of the identifier constant and its public key, an all-zero
    [recvts], and a handshake state that was not written to. *)
Theorem recvconfig_table P fresh_hs frames table rest :
  recvconfig P fresh_hs frames = (Ok table, rest) ->
  forall n i, table !! n = Some i ->
    ifn_id i = Z.of_nat n /\
    forall m p, ifn_peers i !! m = Some p ->
      p_dhsecret p = X25519 P (ifn_privkey i) (p_pubkey p) /\
      p_pubkeyhash p = appendhash P (considhash P) (p_pubkey p) /\
      p_recvts p = zeros 12 /\ p_hs p = fresh_hs n m.
Proof.
  intros Hrun.
  unfold recvconfig, bind, wire_recvmsg in Hrun.
  destruct frames as [|[msg|] fr]; try done.
  destruct msg as [si| | |]; try done.
  destruct (recvconfig_ifns P fresh_hs 0 _ fr)
    as [[tbl| | |] s1] eqn:Htbl; try done.
  destruct s1 as [|[msg|] s2]; try done.
  destruct msg; try done. unfold ret in Hrun. simplify_eq.
  destruct (recvconfig_ifns_table _ _ _ _ _ _ _ Htbl) as (_ & _ & Hcfg).
  intros n i Hi. by apply (Hcfg n i Hi).
Qed.

(** X12. [recvconfig] returns only after it has read a SINIT frame first
    and a SEOS frame last, with exactly one frame per interface and one per
    peer in between; the table has as many interfaces as SINIT announced,
    and the frames behind SEOS are left unread. *)
Theorem recvconfig_frames P fresh_hs frames table rest :
  recvconfig P fresh_hs frames = (Ok table, rest) ->
  exists si used,
    frames = Some (SINIT si) :: used ++ Some SEOS :: rest /\
    length table = Z.to_nat (si_nifns si) /\
    length used =
      (length table
       + sum_list (map (fun i => length (ifn_peers i)) table))%nat.
Proof.
  intros Hrun.
  unfold recvconfig, bind, wire_recvmsg in Hrun.
  destruct frames as [|[msg|] fr]; try done.
  destruct msg as [si| | |]; try done.
  destruct (recvconfig_ifns P fresh_hs 0 _ fr)
    as [[tbl| | |] s1] eqn:Htbl; try done.
  destruct s1 as [|[msg|] s2]; try done.
  destruct msg; try done. unfold ret in Hrun. simplify_eq.
  destruct (recvconfig_ifns_table _ _ _ _ _ _ _ Htbl)
    as (Hlen & (used & -> & Hused) & _).
  exists si, used. done.
Qed.

(** ** From the master to the enclave *)

Lemma sendconfig_enclave_peers_run sendok n count :
  (forall x, sendok x = true) ->
  forall m st i,
    m_ifnv st !! n = Some i -> (m + count = length (mi_peers i))%nat ->
    exists st',
      sendconfig_enclave_peers sendok n m count st = (Ok tt, st') /\
      m_out st' = m_out st ++
        imap (fun k p => speer_frame n (m + k) (defaulted_peer i p))
             (drop m (mi_peers i)) /\
      length (m_ifnv st') = length (m_ifnv st) /\
      forall n', n' <> n -> m_ifnv st' !! n' = m_ifnv st !! n'.
Proof.
  intros Hok. induction count as [|count IH]; intros m st i Hi Hlen.
  - exists st. split; [done|]. rewrite drop_ge by lia. cbn.
    by rewrite app_nil_r.
  - destruct (lookup_lt_is_Some_2 (mi_peers i) m) as [p Hp]; [lia|].
    cbn [sendconfig_enclave_peers]. unfold bind, gets, modify, wire_sendmsg.
    cbn. rewrite Hi, Hp, Hok. cbn.
    match goal with |- context [sendconfig_enclave_peers _ _ _ _ ?s] =>
      set (st1 := s) end.
    set (i1 := set_mi_peers
                 (alter (set_mp_psk (default_psk (mi_psk i) (mp_psk p))) m) i).
    destruct (IH (S m) st1 i1) as (st' & Hrun & Hout & Hl & Hother).
    { subst st1. cbn. by rewrite list_lookup_alter_eq, Hi. }
    { subst i1. cbn. rewrite length_alter. lia. }
    exists st'. split; [done|]. split; [|split].
    + rewrite Hout. subst st1 i1. cbn. rewrite <- app_assoc. f_equal.
      rewrite (drop_S _ _ _ Hp), imap_cons. cbn. rewrite Nat.add_0_r.
      f_equal. rewrite drop_alter_lt by lia.
      apply imap_ext. intros k x _. cbn. f_equal. lia.
    + rewrite Hl. subst st1. cbn. by rewrite length_alter.
    + intros n' Hn'. rewrite Hother by done. subst st1. cbn.
      by rewrite list_lookup_alter_ne.
Qed.

Lemma drop_lookup_eq {A} (l l' : list A) n :
  length l' = length l ->
  (forall k, (n <= k)%nat -> l' !! k = l !! k) ->
  drop n l' = drop n l.
Proof.
  intros Hlen H. apply list_eq. intros k. rewrite !lookup_drop.
  apply H. lia.
Qed.

Lemma sendconfig_enclave_ifns_run ifnamesize sendok count :
  (forall x, sendok x = true) ->
  forall n st,
    (n + count = length (m_ifnv st))%nat ->
    exists st',
      sendconfig_enclave_ifns ifnamesize sendok n count st = (Ok tt, st') /\
      m_out st' = m_out st ++
        concat (imap (fun k i => frames_of_ifn ifnamesize (n + k) i)
                     (drop n (m_ifnv st))).
Proof.
  intros Hok. induction count as [|count IH]; intros n st Hlen.
  - exists st. split; [done|]. rewrite drop_ge by lia. cbn.
    by rewrite app_nil_r.
  - destruct (lookup_lt_is_Some_2 (m_ifnv st) n) as [i Hi]; [lia|].
    cbn [sendconfig_enclave_ifns]. unfold bind at 1 2. unfold gets at 1.
    cbn. rewrite Hi. unfold wire_sendmsg at 1. rewrite Hok.
    unfold modify at 1. cbn. unfold bind at 1.
    match goal with |- context [sendconfig_enclave_peers _ _ _ _ ?s] =>
      set (st0 := s) end.
    destruct (sendconfig_enclave_peers_run sendok n (length (mi_peers i)) Hok
                0%nat st0 i Hi eq_refl)
      as (st1 & Hrun1 & Hout1 & Hl1 & Hother1).
    rewrite Hrun1.
    destruct (IH (S n) st1) as (st' & Hrun & Hout).
    { rewrite Hl1. subst st0. cbn. lia. }
    exists st'. split; [done|].
    rewrite Hout, Hout1. subst st0. cbn. rewrite <- !app_assoc. f_equal.
    rewrite (drop_S _ _ _ Hi), imap_cons. cbn [concat]. rewrite Nat.add_0_r.
    change (frames_of_ifn ifnamesize n i)
      with (sifn_frame ifnamesize n i ::
            imap (fun m p => speer_frame n m (defaulted_peer i p))
                 (mi_peers i)).
    cbn. do 2 f_equal.
    rewrite (drop_lookup_eq (m_ifnv st) (m_ifnv st1) (S n)).
    + f_equal. apply imap_ext. intros k x _. cbn. f_equal. lia.
    + done.
    + intros k Hk. apply Hother1. lia.
Qed.

Lemma mod_2_32 (n : nat) : Z.of_nat n < 2 ^ 32 -> Z.of_nat n mod 2 ^ 32 = Z.of_nat n.
Proof. intros H. apply Z.mod_small. lia. Qed.

Lemma recvconfig_peers_frames P fresh_hs privkey n :
  Z.of_nat n < 2 ^ 32 ->
  forall (l : list mpeer) m rest,
    Z.of_nat (m + length l) <= 2 ^ 32 ->
    exists peers,
      recvconfig_peers P fresh_hs privkey n m (length l)
        (map Some (imap (fun k p => speer_frame n (m + k) p) l) ++ rest)
      = (Ok peers, rest) /\
      length peers = length l /\
      forall k mp, l !! k = Some mp ->
        exists p, peers !! k = Some p /\
                  peer_configured_as P privkey (m + k) mp p.
Proof.
  intros Hn. induction l as [|x l IH]; intros m rest Hm.
  - exists []. split; [done|]. split; [done|]. intros k mp Hk.
    by rewrite lookup_nil in Hk.
  - cbn [length] in Hm |- *.
    destruct (IH (S m) rest) as (peers & Hrun & Hlen & Hcfg); [lia|].
    eexists. split; [|split].
    + rewrite imap_cons.
      cbn [recvconfig_peers map app]. unfold bind, wire_recvmsg.
      unfold speer_frame at 1. cbn.
      rewrite !Z.mod_small by lia. rewrite Nat.add_0_r.
      rewrite !decide_False by (intros Hne; by apply Hne).
      rewrite (imap_ext _ (fun k p => speer_frame n (S m + k) p)).
      2:{ intros k y _. cbn. f_equal. lia. }
      rewrite Hrun. unfold ret. done.
    + cbn. lia.
    + intros [|k] mp Hk; simplify_eq/=.
      * eexists. split; [done|]. rewrite Nat.add_0_r.
        unfold peer_configured_as. cbn. rewrite !take_idemp. done.
      * destruct (Hcfg _ _ Hk) as (p & Hp & Hpc). exists p. split; [done|].
        replace (m + S k)%nat with (S m + k)%nat by lia. done.
Qed.

Lemma recvconfig_ifns_frames P fresh_hs ifnamesize :
  forall (l : list mifn) n rest,
    Z.of_nat (n + length l) <= 2 ^ 32 ->
    Forall (fun i => Z.of_nat (length (mi_peers i)) <= 2 ^ 32) l ->
    exists table,
      recvconfig_ifns P fresh_hs n (length l)
        (map Some
           (concat (imap (fun k i => frames_of_ifn ifnamesize (n + k) i) l))
         ++ rest)
      = (Ok table, rest) /\
      length table = length l /\
      forall k mi, l !! k = Some mi ->
        exists i, table !! k = Some i /\
                  ifn_configured_as P ifnamesize (n + k) mi i.
Proof.
  induction l as [|x l IH]; intros n rest Hn Hall.
  - exists []. split; [done|]. split; [done|]. intros k mi Hk.
    by rewrite lookup_nil in Hk.
  - apply Forall_cons in Hall as [Hx Hall].
    cbn [length] in Hn |- *.
    destruct (IH (S n) rest) as (table & Hrun2 & Hlen2 & Hcfg2);
      [lia|done|].
    destruct (recvconfig_peers_frames P fresh_hs (take KEYLEN (mi_privkey x)) n
                ltac:(lia) (defaulted_peer x <$> mi_peers x) 0%nat
                (map Some
                   (concat (imap (fun k i => frames_of_ifn ifnamesize
                                               (S n + k) i) l)) ++ rest))
      as (peers & Hrun & Hlen & Hcfg).
    { rewrite length_fmap. lia. }
    rewrite length_fmap in Hrun, Hlen.
    rewrite imap_fmap in Hrun.
    eexists. split; [|split].
    + rewrite imap_cons. cbn [concat]. rewrite Nat.add_0_r.
      change (frames_of_ifn ifnamesize n x)
        with (sifn_frame ifnamesize n x ::
              imap (fun m p => speer_frame n m (defaulted_peer x p))
                   (mi_peers x)).
      cbn [recvconfig_ifns app map]. rewrite map_app, <- !app_assoc.
      cbn [app].
      unfold bind at 1. unfold wire_recvmsg at 1.
      unfold sifn_frame at 1. cbn.
      rewrite !Z.mod_small by lia.
      rewrite decide_False by (intros Hne; by apply Hne).
      rewrite Nat2Z.id.
      rewrite (imap_ext _ (fun k i => frames_of_ifn ifnamesize (S n + k) i)).
      2:{ intros k y _. cbn. f_equal. lia. }
      unfold bind at 1. cbv beta delta [compose KEYLEN] in Hrun.
      rewrite (imap_ext _ (fun m p => speer_frame n m (defaulted_peer x p)))
        in Hrun by done.
      rewrite !take_idemp. rewrite Hrun.
      unfold bind. rewrite Hrun2. unfold ret. done.
    + cbn. lia.
    + intros [|k] mi Hk; simplify_eq/=.
      * eexists. split; [done|]. rewrite Nat.add_0_r.
        unfold ifn_configured_as. cbn.
        do 9 (split; [done|]).
        intros m mp Hmp.
        destruct (Hcfg m (defaulted_peer mi mp)) as (p & Hp & Hpc).
        { by rewrite list_lookup_fmap, Hmp. }
        exists p. split; [done|]. done.
      * destruct (Hcfg2 _ _ Hk) as (i & Hi & Hic). exists i. split; [done|].
        replace (n + S k)%nat with (S n + k)%nat by lia. done.
Qed.

(** X13. What the master sends, the enclave accepts.  If every write goes
    through and the tables fit 32-bit ids, the frames written by
    [sendconfig_enclave] followed by [signal_eos] are read by [recvconfig]
    to the last one without a failed check, and the table it builds has,
    index by index, the interfaces and peers of the master: port, name
    (cut to the size of the frame field) and the 32 bytes of each key, the
    pre-shared key of a peer being that of the interface where its own is
    all zero. *)
Theorem sendconfig_recvconfig P fresh_hs ifnamesize sendok enclwithprox st :
  (forall x, sendok x = true) ->
  m_out st = [] ->
  Z.of_nat (length (m_ifnv st)) <= 2 ^ 32 ->
  Forall (fun i => Z.of_nat (length (mi_peers i)) <= 2 ^ 32) (m_ifnv st) ->
  exists st1 st2 table,
    sendconfig_enclave ifnamesize sendok enclwithprox st = (Ok tt, st1) /\
    signal_eos sendok st1 = (Ok tt, st2) /\
    recvconfig P fresh_hs (map Some (m_out st2)) = (Ok table, []) /\
    length table = length (m_ifnv st) /\
    forall n mi, m_ifnv st !! n = Some mi ->
      exists i, table !! n = Some i /\
                ifn_configured_as P ifnamesize n mi i.
Proof.
  intros Hok Hout Hlen Hpeers.
  unfold sendconfig_enclave. unfold bind at 1 2. unfold gets at 1. cbn.
  unfold wire_sendmsg at 1. rewrite Hok. unfold modify at 1. cbn.
  match goal with |- context [sendconfig_enclave_ifns _ _ _ _ ?s] =>
    set (st0 := s) end.
  destruct (sendconfig_enclave_ifns_run ifnamesize sendok
              (length (m_ifnv st)) Hok 0%nat st0 eq_refl)
    as (st1 & Hrun1 & Hout1).
  rewrite Hrun1. subst st0. cbn in Hout1. rewrite Hout in Hout1.
  cbn in Hout1.
  exists st1. unfold signal_eos, wire_sendmsg. rewrite Hok. unfold modify.
  eexists. 
  destruct (recvconfig_ifns_frames P fresh_hs ifnamesize (m_ifnv st) 0%nat
              [Some SEOS]) as (table & Hrun2 & Hlen2 & Hcfg2); [lia|done|].
  exists table. split; [done|]. split; [done|]. cbn.
  rewrite Hout1. unfold recvconfig.
  cbn [app map drop]. rewrite map_app. cbn [map].
  unfold bind at 1. unfold wire_recvmsg at 1. cbn.
  rewrite Nat2Z.id. unfold bind at 1.
  cbn in Hrun2. rewrite drop_0. rewrite Hrun2. unfold bind, wire_recvmsg, ret.
  split; [done|]. split; [done|]. exact Hcfg2.
Qed.

(** ** One message, one peer *)

(** X14. Where peer ids are the indices, a message that arrives on the
    socket of one peer changes nothing of any other peer, whatever the
    message is and whether or not [handleifnmsg] succeeds. *)
Theorem handleifnmsg_other_peers P E m w k :
  ids_dense (w_ifn w) ->
  k <> Z.to_nat (pim_peerid m) ->
  ifn_peers (w_ifn (snd (handleifnmsg P E (Some m) w))) !! k
  = ifn_peers (w_ifn w) !! k.
Proof.
  intros Hdense Hk.
  destruct (handleifnmsg_touch P E (Some m) w) as (n & Ht & Hn).
  rewrite (Hn m eq_refl Hdense) in Ht.
  by eapply ifn_touch_other.
Qed.




(** ** The loop *)

(** X16. An event of the proxy port ends the walk over the events a
    [kevent] call returned: the events behind it are not handled in this
    turn of the loop. *)
Theorem enclave_serv_events_proxy_break P pre E eof rcv post st :
  enclave_serv_events P (pre ++ (E, EvProxy eof rcv) :: post) st
  = enclave_serv_events P (pre ++ [(E, EvProxy eof rcv)]) st.
Proof.
  revert st. induction pre as [|[E0 ev] pre IH]; intros st; [done|].
  destruct ev as [eof0 rcv0|n eof0 rcv0]; [done|].
  cbn [app enclave_serv_events]. unfold bind.
  destruct (enclave_serv_event P E0 _ st) as [[[]| | |] st']; [apply IH|done..].
Qed.

Lemma handlesig_doterm sigs f :
  doterm f = true \/ SIGINT ∈ sigs \/ SIGTERM ∈ sigs ->
  doterm (fold_left (fun f signo => handlesig signo f) sigs f) = true.
Proof.
  revert f. induction sigs as [|s sigs IH]; intros f H; cbn.
  - destruct H as [?|[H|H]]; [done|by apply elem_of_nil in H..].
  - apply IH. destruct H as [H|[H|H]].
    + left. destruct s; cbn; done.
    + apply elem_of_cons in H as [<-|H]; [by left|auto].
    + apply elem_of_cons in H as [<-|H]; [by left|auto].
Qed.

(** X17. Once SIGINT or SIGTERM has been delivered, the next turn of the
    loop exits before it handles any event, whatever [kevent] would
    return: the interfaces are left as they were. *)
Theorem enclave_serv_iteration_doterm P it s :
  doterm (sv_flags s) = true \/
  SIGINT ∈ it_signals it \/ SIGTERM ∈ it_signals it ->
  fst (enclave_serv_iteration P it s) = Exit /\
  sv_enclave (snd (enclave_serv_iteration P it s)) = sv_enclave s.
Proof.
  intros H. apply handlesig_doterm in H.
  unfold enclave_serv_iteration.
  destruct (logstats _); cbn; rewrite H; done.
Qed.

(** ** What a failed attempt leaves behind *)

(** X18. A [createhsinit] that returns -1 has nevertheless replaced the
    session id and the ephemeral private key of the peer: the state of a
    handshake that was under way with this peer is gone. *)
Theorem createhsinit_failure P E n w p :
  ifn_peers (w_ifn w) !! n = Some p ->
  fst (createhsinit P E n w) = Fail ->
  exists p',
    ifn_peers (w_ifn (snd (createhsinit P E n w))) !! n = Some p' /\
    hs_sessid (p_hs p') = e_arc4random E /\
    hs_epriv (p_hs p') = e_keypair E.
Proof.
  intros Hp Hf.
  destruct (createhsinit P E n w) as [r w'] eqn:H. cbn in Hf |- *. subst r.
  unfold createhsinit in H.
  unfold bind at 1 2 3 4 5 6 7 in H.
  unfold modify_peer in H. unfold gets, modify, peer_at, try in H. cbn in H.
  rewrite Hp in H. cbn in H.
  destruct (e_now E) as [now|] eqn:Hnow; cbn in H.
  - unfold bind at 1 in H. cbn in H. unfold bind at 1 in H.
    match type of H with context [upgradehsinit P E ?pp false ?w0] =>
      pose proof (upgradehsinit_initiator_touch P E pp w0) as Ht;
      destruct (upgradehsinit P E pp false w0) as [[m| | |] w1] eqn:Hup end;
      try done; cbn in Ht.
    + apply upgradehsinit_initiator_Ok_world in Hup
        as (p1 & stat & ts & tmpc & tmph & -> & Hp1 & _ & ->).
      unfold bind, gets, try, ret, fail, modify, peer_at in H. cbn in H.
      rewrite !list_lookup_alter_eq, Hp in H. cbn in H.
      repeat (run_step_in H; try done). simplify_eq. cbn.
      rewrite !list_lookup_alter_eq, Hp. cbn. eauto.
    + injection H as <-. rewrite Ht. cbn.
      rewrite !list_lookup_alter_eq, Hp. cbn. eauto.
  - unfold fail in H. injection H as <-. cbn.
    rewrite !list_lookup_alter_eq, Hp. cbn. eauto.
Qed.

(** X19. A [createhsresp] that returns -1 has nevertheless replaced the
    session id, the session id of the other side and the ephemeral private
    key of the peer; the hash is what it was. *)
Theorem createhsresp_failure P E n w p :
  ifn_peers (w_ifn w) !! n = Some p ->
  fst (createhsresp P E n w) = Fail ->
  exists p',
    ifn_peers (w_ifn (snd (createhsresp P E n w))) !! n = Some p' /\
    hs_sessid (p_hs p') = e_arc4random E /\
    hs_peersessid (p_hs p') = mwi_sender (w_mwi w) /\
    hs_epriv (p_hs p') = e_keypair E /\
    hs_h (p_hs p') = hs_h (p_hs p).
Proof.
  intros Hp Hf.
  destruct (createhsresp P E n w) as [r w'] eqn:H. cbn in Hf |- *. subst r.
  unfold createhsresp in H.
  unfold bind at 1 2 3 4 5 6 7 8 9 in H.
  unfold modify_peer in H. unfold gets, modify, peer_at in H. cbn in H.
  rewrite Hp in H. cbn in H.
  unfold bind at 1 in H.
  match type of H with context [upgradehsresp P n true ?w0] =>
    destruct (upgradehsresp P n true w0) as [[[]| | |] w1] eqn:Hup end;
    try done.
  - apply upgradehsresp_Ok_world in Hup
      as (p1 & tmpc & tau & k & empty & Hp1 & _ & ->).
    unfold bind, gets, try, ret, fail, modify, peer_at in H. cbn in H.
    rewrite !list_lookup_alter_eq, Hp in H. cbn in H.
    repeat (run_step_in H; try done). simplify_eq. cbn.
    rewrite !list_lookup_alter_eq, Hp. cbn. eauto 6.
  - injection H as <-.
    pose proof (upgradehsresp_fail P n true _ (f_equal fst Hup)) as Hw.
    rewrite Hup in Hw. cbn in Hw. rewrite Hw. cbn.
    rewrite !list_lookup_alter_eq, Hp. cbn. eauto 6.
Qed.

(** ** The theorems on the deployment *)

Lemma toy_bytes_of_Z_length n z : length (Toy.bytes_of_Z n z) = n.
Proof.
  revert z. induction n as [|n IH]; intros z; simpl; [done|]. by rewrite IH.
Qed.

Lemma toy_public_length k : length (X25519_public Toy.prims k) = 32%nat.
Proof. apply toy_bytes_of_Z_length. Qed.


Lemma recvconfig_table_witness :
  recvconfig Toy.prims Scenario.fresh_hs Scenario.R_frames
    = (Ok Run.R_table, []) /\
  forall n i, Run.R_table !! n = Some i ->
    ifn_id i = Z.of_nat n /\
    forall m p, ifn_peers i !! m = Some p ->
      p_dhsecret p = X25519 Toy.prims (ifn_privkey i) (p_pubkey p) /\
      p_pubkeyhash p
        = appendhash Toy.prims (considhash Toy.prims) (p_pubkey p) /\
      p_recvts p = zeros 12 /\ p_hs p = Scenario.fresh_hs n m.
Proof.
  split; [vm_compute; reflexivity|].
  apply (recvconfig_table Toy.prims Scenario.fresh_hs Scenario.R_frames
           Run.R_table []).
  vm_compute. reflexivity.
Defined.

Lemma recvconfig_frames_witness :
  exists si used,
    Scenario.R_frames = Some (SINIT si) :: used ++ Some SEOS :: [] /\
    length Run.R_table = Z.to_nat (si_nifns si) /\
    length used =
      (length Run.R_table
       + sum_list (map (fun i => length (ifn_peers i)) Run.R_table))%nat.
Proof.
  apply (recvconfig_frames Toy.prims Scenario.fresh_hs Scenario.R_frames
           Run.R_table []).
  vm_compute. reflexivity.
Defined.

Lemma sendconfig_recvconfig_witness :
  exists st1 st2 table,
    sendconfig_enclave 16 (fun _ => true) 3 Run.R_master = (Ok tt, st1) /\
    signal_eos (fun _ => true) st1 = (Ok tt, st2) /\
    recvconfig Toy.prims Scenario.fresh_hs (map Some (m_out st2))
      = (Ok table, []) /\
    length table = length (m_ifnv Run.R_master) /\
    forall n mi, m_ifnv Run.R_master !! n = Some mi ->
      exists i, table !! n = Some i /\
                ifn_configured_as Toy.prims 16 n mi i.
Proof.
  apply (sendconfig_recvconfig Toy.prims Scenario.fresh_hs 16 (fun _ => true)
           3 Run.R_master).
  - reflexivity.
  - reflexivity.
  - vm_compute. discriminate.
  - repeat constructor; vm_compute; discriminate.
Defined.



Lemma handlewginit_replies_witness :
  exists n p msk,
    ifn_peers (w_ifn Run.wR_out) !! n = Some p /\
    makemsgsesskeys Toy.prims (p_hs p) true = Some msk /\
    w_sent Run.wR_out = w_sent Run.wR_in ++
      map (sent_ok (ifn_port (w_ifn Run.wR_in)) (p_id p))
          (connreq_msgs Toy.prims None ++
           [(MSGSESSKEYS, PSesskeys msk);
            (MSGWGRESP, PWgresp (w_mwr Run.wR_out))]) /\
    mwr_type (w_mwr Run.wR_out) = 2 /\
    mwr_sender (w_mwr Run.wR_out) = hs_sessid (p_hs p) /\
    mwr_receiver (w_mwr Run.wR_out) = mwi_sender (w_mwi Run.wR_in) /\
    hs_peersessid (p_hs p) = mwi_sender (w_mwi Run.wR_in) /\
    msk_sessid msk = mwr_sender (w_mwr Run.wR_out) /\
    msk_peersessid msk = mwi_sender (w_mwi Run.wR_in) /\
    mwr_mac2 (w_mwr Run.wR_out) = zeros 16 /\
    ws_mac Toy.prims (mwr_prefix (w_mwr Run.wR_out)) (p_mac1key p)
      = Some (mwr_mac1 (w_mwr Run.wR_out)).
Proof.
  apply (handlewginit_replies Toy.prims Scenario.ER None None Run.wR_in
           Run.wR_out).
  vm_compute. reflexivity.
Defined.

Lemma handlewgresp_replies_witness :
  exists n p msk,
    findifnpeerbysessid (w_ifn Run.wI_in) (mwr_receiver (w_mwr Run.wI_in))
      = Some n /\
    ifn_peers (w_ifn Run.wI_out) !! n = Some p /\
    hs_sessid (p_hs p) = mwr_receiver (w_mwr Run.wI_in) /\
    hs_peersessid (p_hs p) = mwr_sender (w_mwr Run.wI_in) /\
    makemsgsesskeys Toy.prims (p_hs p) false = Some msk /\
    msk_sessid msk = mwr_receiver (w_mwr Run.wI_in) /\
    msk_peersessid msk = mwr_sender (w_mwr Run.wI_in) /\
    w_sent Run.wI_out = w_sent Run.wI_in ++
      map (sent_ok (ifn_port (w_ifn Run.wI_in)) (p_id p))
          (connreq_msgs Toy.prims None ++ [(MSGSESSKEYS, PSesskeys msk)]).
Proof.
  apply (handlewgresp_replies Toy.prims Scenario.EI None None Run.wI_in
           Run.wI_out).
  vm_compute. reflexivity.
Defined.

Lemma handleifnmsg_reqwginit_witness :
  exists p,
    ifn_peers (w_ifn Run.wI_req) !! Z.to_nat (pim_peerid Run.req) = Some p /\
    w_sent Run.wI_req = w_sent Scenario.wI ++
      [sent_ok (ifn_port (w_ifn Scenario.wI)) (pim_peerid Run.req)
               (MSGWGINIT, PWginit (w_mwi Run.wI_req))] /\
    mwi_type (w_mwi Run.wI_req) = 1 /\
    mwi_sender (w_mwi Run.wI_req) = e_arc4random Scenario.EI /\
    hs_sessid (p_hs p) = e_arc4random Scenario.EI /\
    mwi_ephemeral (w_mwi Run.wI_req)
      = X25519_public Toy.prims (e_keypair Scenario.EI) /\
    hs_epriv (p_hs p) = e_keypair Scenario.EI /\
    mwi_mac2 (w_mwi Run.wI_req) = zeros 16 /\
    ws_mac Toy.prims (mwi_prefix (w_mwi Run.wI_req)) (p_mac1key p)
      = Some (mwi_mac1 (w_mwi Run.wI_req)).
Proof.
  apply (handleifnmsg_reqwginit Toy.prims Scenario.EI Run.req Scenario.wI
           Run.wI_req).
  - reflexivity.
  - vm_compute. reflexivity.
Defined.

Lemma handshake_session_keys_witness :
  exists mskR mskI,
    PSesskeys mskR ∈ map sent_payload (w_sent Run.wR_out) /\
    PSesskeys mskI ∈ map sent_payload (w_sent Run.wI_out) /\
    msk_sendkey mskI = msk_recvkey mskR /\
    msk_recvkey mskI = msk_sendkey mskR /\
    msk_sessid mskI = msk_peersessid mskR /\
    msk_peersessid mskI = msk_sessid mskR.
Proof.
  apply (handshake_session_keys Toy.prims Scenario.EI Scenario.ER Scenario.EI
           Scenario.wI Run.wR_in Run.wI_in Run.req None None None None
           Run.wI_req Run.wR_out Run.wI_out Run.I_peer0 toy_prims_ok
           toy_public_length).
  - vm_compute. reflexivity.
  - vm_compute. reflexivity.
  - vm_compute. reflexivity.
  - vm_compute. reflexivity.
  - vm_compute. reflexivity.
  - intros m q Hq.
    do 3 (destruct m as [|m];
          [vm_compute in Hq; injection Hq as <-;
           split; [vm_compute; reflexivity|];
           split; [vm_compute; reflexivity|];
           intros _; vm_compute; reflexivity|]).
    vm_compute in Hq. discriminate.
  - intros m q _ Hm. vm_compute in Hm. lia.
  - reflexivity.
  - vm_compute. reflexivity.
  - reflexivity.
  - vm_compute. reflexivity.
  - reflexivity.
  - reflexivity.
  - vm_compute. reflexivity.
Defined.

Lemma handleifnmsg_other_peers_witness :
  ifn_peers (w_ifn (snd (handleifnmsg Toy.prims Scenario.ER
                           (Some Run.init_pim) Run.wR_in))) !! 1%nat
  = ifn_peers (w_ifn Run.wR_in) !! 1%nat.
Proof.
  apply (handleifnmsg_other_peers Toy.prims Scenario.ER Run.init_pim
           Run.wR_in 1).
  - intros m p Hp.
    do 3 (destruct m as [|m];
          [vm_compute in Hp; injection Hp as <-; vm_compute; reflexivity|]).
    vm_compute in Hp. discriminate.
  - vm_compute. lia.
Defined.

Lemma enclave_serv_iteration_doterm_witness :
  fst (enclave_serv_iteration Toy.prims Run.last_turn Run.serv0) = Exit /\
  sv_enclave (snd (enclave_serv_iteration Toy.prims Run.last_turn Run.serv0))
  = sv_enclave Run.serv0.
Proof.
  apply (enclave_serv_iteration_doterm Toy.prims Run.last_turn Run.serv0).
  right. right. apply elem_of_cons. right. apply elem_of_cons. left.
  reflexivity.
Defined.

Lemma createhsinit_failure_witness :
  exists p',
    ifn_peers (w_ifn (snd (createhsinit Toy.prims Run.E_noclock 0
                             Scenario.wI))) !! 0%nat = Some p' /\
    hs_sessid (p_hs p') = e_arc4random Run.E_noclock /\
    hs_epriv (p_hs p') = e_keypair Run.E_noclock.
Proof.
  apply (createhsinit_failure Toy.prims Run.E_noclock 0 Scenario.wI
           Run.I_peer0).
  - vm_compute. reflexivity.
  - vm_compute. reflexivity.
Defined.

Lemma createhsresp_failure_witness :
  exists p',
    ifn_peers (w_ifn (snd (createhsresp Toy.prims Scenario.ER 2
                             Run.wR_in))) !! 2%nat = Some p' /\
    hs_sessid (p_hs p') = e_arc4random Scenario.ER /\
    hs_peersessid (p_hs p') = mwi_sender (w_mwi Run.wR_in) /\
    hs_epriv (p_hs p') = e_keypair Scenario.ER /\
    hs_h (p_hs p') = hs_h (p_hs Run.R_peer2).
Proof.
  apply (createhsresp_failure Toy.prims Scenario.ER 2 Run.wR_in Run.R_peer2).
  - vm_compute. reflexivity.
  - vm_compute. reflexivity.
Defined.

(** ** Runs that come back *)

















